(** * Ephemeris, photometry and shadow geometry of [src/modules/planets.c]

    A shallow embedding of the position cache ([planet_get_pvh],
    [planet_get_pvo]), of the photometric helpers ([planet_get_phase],
    [sun_get_vmag], [compute_sun_eclipse_factor]) and of the shadow
    candidate selection ([could_cast_shadow], [get_shadow_candidates]).

    C [double] values are idealised as real numbers: rounding, infinities
    and the propagation of not-a-number values are outside this model.  The
    one place where the source produces [NAN] on purpose is modelled with an
    explicit sentinel.  The arithmetic of [compute_sun_eclipse_factor] is
    given a second time in IEEE 754 binary64 (module [B64]), where its
    behaviour at the boundaries of the partial eclipse depends on the
    rounding. *)

From Stdlib Require Import Reals Machin Lra Lia ZArith List Bool.
From Stdlib Require SpecFloat.
From stdpp Require Import base option list sorting strings.
Import ListNotations.

Local Open Scope R_scope.

(** ** Vectors *)

(** [double v[3]]. *)
Definition vec3 : Type := (R * R * R)%type.

(** [double pv[2][3]]: row 0 is the position, row 1 the velocity. *)
Definition pv_t : Type := (vec3 * vec3)%type.

(** [double m[3][3]], stored by rows. *)
Definition mat3 : Type := (vec3 * vec3 * vec3)%type.

Module Vec.

Definition vx (v : vec3) : R := fst (fst v).
Definition vy (v : vec3) : R := snd (fst v).
Definition vz (v : vec3) : R := snd v.

Definition zero : vec3 := (0, 0, 0).

Definition vec3_add (a b : vec3) : vec3 :=
  (vx a + vx b, vy a + vy b, vz a + vz b).

Definition vec3_sub (a b : vec3) : vec3 :=
  (vx a - vx b, vy a - vy b, vz a - vz b).

Definition vec3_mul (k : R) (v : vec3) : vec3 :=
  (k * vx v, k * vy v, k * vz v).

Definition vec3_dot (a b : vec3) : R :=
  vx a * vx b + vy a * vy b + vz a * vz b.

Definition vec3_cross (a b : vec3) : vec3 :=
  (vy a * vz b - vz a * vy b,
   vz a * vx b - vx a * vz b,
   vx a * vy b - vy a * vx b).

Definition vec3_norm2 (v : vec3) : R := vec3_dot v v.

Definition vec3_norm (v : vec3) : R := sqrt (vec3_norm2 v).

(** Norm of the first two components only. *)
Definition vec2_norm (v : vec3) : R := sqrt (vx v * vx v + vy v * vy v).

Definition vec3_normalize (v : vec3) : vec3 :=
  vec3_mul (1 / vec3_norm v) v.

End Vec.

Export Vec.

(** ** Constants and library routines the source relies on

    [swe.h] and the ERFA library are not part of the translated sources;
    the routines below are the small, closed-form ones, written out from
    their documented behaviour.  The heavy numerical theories (planetary
    series, lunar theory, Kepler solver) stay abstract, see [Ephemeris]. *)

(** Modelled from the spec: [ERFA_DAYSEC], the number of seconds in a day,
    used to turn the refresh interval from seconds into days. *)
Definition ERFA_DAYSEC : R := 86400.

(** Modelled from the spec: [DAU], the astronomical unit in metres (all
    lengths of the engine are in astronomical units). *)
Definition DAU : R := 149597870700.

(** Modelled from the spec: [DJY], the number of days in a Julian year. *)
Definition DJY : R := 36525 / 100.

(** Modelled from the spec: [DJM0], the Julian date of the origin of the
    Modified Julian Date time scale. *)
Definition DJM0 : R := 24000005 / 10.

(** The identifiers of the known bodies (JPL HORIZONS numbering). *)
Definition SUN : Z := 10.
Definition MERCURY : Z := 199.
Definition VENUS : Z := 299.
Definition MOON : Z := 301.
Definition EARTH : Z := 399.
Definition MARS : Z := 499.
Definition IO : Z := 501.
Definition EUROPA : Z := 502.
Definition GANYMEDE : Z := 503.
Definition CALLISTO : Z := 504.
Definition JUPITER : Z := 599.
Definition SATURN : Z := 699.
Definition URANUS : Z := 799.
Definition NEPTUNE : Z := 899.

(** A C [double] that may be the [NAN] sentinel. *)
Inductive double : Type :=
| NAN : double
| Num : R -> double.

(** Modelled from the spec: the [max] macro of [swe.h]. *)
Definition max (a b : R) : R := if Rgt_dec a b then a else b.

(** Modelled from the spec: the [cmp] macro of [swe.h], a three-way
    comparison. *)
Definition cmp (a b : R) : Z :=
  if Rgt_dec a b then 1%Z else if Rlt_dec a b then (-1)%Z else 0%Z.

(** Modelled from the spec: decimal logarithm of the C library. *)
Definition log10 (x : R) : R := ln x / ln 10.

(** Modelled from the spec: [atan2] of the C library, for finite
    arguments. *)
Definition atan2 (y x : R) : R :=
  if Rlt_dec 0 x then atan (y / x)
  else if Rlt_dec x 0 then
         (if Rle_dec 0 y then atan (y / x) + PI else atan (y / x) - PI)
  else if Rlt_dec 0 y then PI / 2
  else if Rlt_dec y 0 then - (PI / 2)
  else 0.

Module Erfa.

(** Modelled from the spec: [eraCpv], copy of a position-velocity pair. *)
Definition eraCpv (pv : pv_t) : pv_t := pv.

(** Modelled from the spec: [eraZpv], the zero position-velocity pair. *)
Definition eraZpv : pv_t := (Vec.zero, Vec.zero).

(** Modelled from the spec: [eraPvppv], sum of two position-velocity
    pairs. *)
Definition eraPvppv (a b : pv_t) : pv_t :=
  (vec3_add (fst a) (fst b), vec3_add (snd a) (snd b)).

(** Modelled from the spec: [eraPvmpv], difference of two
    position-velocity pairs. *)
Definition eraPvmpv (a b : pv_t) : pv_t :=
  (vec3_sub (fst a) (fst b), vec3_sub (snd a) (snd b)).

(** Modelled from the spec: [eraPvu], constant-velocity update of a
    position-velocity pair over the time [dt]; the velocity is copied. *)
Definition eraPvu (dt : R) (pv : pv_t) : pv_t :=
  (vec3_add (fst pv) (vec3_mul dt (snd pv)), snd pv).

(** Modelled from the spec: [eraSepp], angular separation of two
    vectors, from the norm of their cross product and their dot
    product; zero when both vanish. *)
Definition eraSepp (a b : vec3) : R :=
  let ss := vec3_norm (vec3_cross a b) in
  let cs := vec3_dot a b in
  if Req_dec_T ss 0 then
    (if Req_dec_T cs 0 then 0 else atan2 ss cs)
  else atan2 ss cs.

(** Modelled from the spec: [eraIr], the identity matrix. *)
Definition eraIr : mat3 := ((1, 0, 0), (0, 1, 0), (0, 0, 1)).

(** Modelled from the spec: [eraRx], rotation of a matrix about the
    x axis by the angle [phi]. *)
Definition eraRx (phi : R) (r : mat3) : mat3 :=
  let '(r0, r1, r2) := r in
  let s := sin phi in
  let c := cos phi in
  (r0,
   vec3_add (vec3_mul c r1) (vec3_mul s r2),
   vec3_add (vec3_mul (- s) r1) (vec3_mul c r2)).

(** Modelled from the spec: [eraS2p], spherical coordinates to a
    vector. *)
Definition eraS2p (theta phi r : R) : vec3 :=
  vec3_mul r (cos theta * cos phi, sin theta * cos phi, sin phi).

(** Modelled from the spec: [eraRxp], product of a matrix and a
    vector. *)
Definition eraRxp (r : mat3) (p : vec3) : vec3 :=
  let '(r0, r1, r2) := r in
  (vec3_dot r0 p, vec3_dot r1 p, vec3_dot r2 p).

(** Modelled from the spec: [eraTrxp], product of the transpose of a
    matrix and a vector. *)
Definition eraTrxp (r : mat3) (p : vec3) : vec3 :=
  let '(r0, r1, r2) := r in
  vec3_add (vec3_mul (vx p) r0)
           (vec3_add (vec3_mul (vy p) r1) (vec3_mul (vz p) r2)).

End Erfa.

Export Erfa.

(** Orbit elements, with ICRF reference plane ([elements_t]). *)
Record elements_t : Type := mk_elements {
  el_mjd : R;
  el_in : R;
  el_om : R;
  el_w : R;
  el_a : R;
  el_n : R;
  el_ec : R;
  el_ma : R
}.

(** The numerical theories called by the position engine.  They live
    outside the translated sources and are parameters of the model. *)
Class Ephemeris : Type := {
  (** [LIGHT_YEAR_IN_METER] of [swe.h]. *)
  LIGHT_YEAR_IN_METER : R;
  (** [eraPlan94 (date1, date2, np)]: heliocentric state of a major
      planet. *)
  eraPlan94 : R -> R -> Z -> pv_t;
  (** [l12 (date1, date2, ks)]: state of a Galilean moon relative to
      Jupiter. *)
  l12 : R -> R -> Z -> pv_t;
  (** [orbit_compute_pv (precision, tt, elements, od, ow)]: two-body
      propagation of the stored elements. *)
  orbit_compute_pv : R -> R -> elements_t -> R -> R -> pv_t;
  (** [moon_pos (jd)]: ecliptic longitude, latitude and distance (km) of
      the Moon. *)
  moon_pos : R -> R * R * R;
  (** [eraObl06 (date1, date2)]: mean obliquity of the ecliptic. *)
  eraObl06 : R -> R -> R;
  (** [eraPmat76 (date1, date2)]: precession matrix. *)
  eraPmat76 : R -> R -> mat3
}.

(** ** Data model *)

(** The fields of [struct planet] the engine reads or writes.  Pointers to
    planets are indices into the list of children of the planets module
    (the list [PLANETS_ITER] walks); [parent = None] is the null pointer. *)
Record planet_t : Type := mk_planet {
  (* Constant data. *)
  parent : option nat;
  radius_m : R;
  id : Z;
  (* Optimizations vars. *)
  update_delta_s : R;
  last_full_update : R;
  last_full_pvh : pv_t;
  (* Cached pvo value and the observer hash used for the computation. *)
  pvo_obs_hash : Z;
  pvo : pv_t;
  (* Orbit elements (in ICRF plane, relative to the parent body). *)
  orbit : elements_t
}.

(** The fields of [observer_t] the engine reads. *)
Record observer_t : Type := mk_observer {
  tt : R;
  earth_pvh : pv_t;
  sun_pvb : pv_t;
  obs_pvb : pv_t;
  sun_pvo : pv_t;
  hash : Z
}.

(** The children of the planets module, in iteration order.  This is the
    only mutable store: every query threads it. *)
Abbreviation world := (list planet_t).

Definition set_tt (obs : observer_t) (t : R) : observer_t :=
  mk_observer t (earth_pvh obs) (sun_pvb obs) (obs_pvb obs)
              (sun_pvo obs) (hash obs).

(** The two writes of the heliocentric cache, at the end of
    [planet_get_pvh]. *)
Definition set_pvh_cache (pvh : pv_t) (t : R) (p : planet_t) : planet_t :=
  mk_planet (parent p) (radius_m p) (id p) (update_delta_s p)
            t pvh (pvo_obs_hash p) (pvo p) (orbit p).

(** The two writes of the observer-relative cache, at the end of
    [planet_get_pvo]. *)
Definition set_pvo_cache (h : Z) (v : pv_t) (p : planet_t) : planet_t :=
  mk_planet (parent p) (radius_m p) (id p) (update_delta_s p)
            (last_full_update p) (last_full_pvh p) h v (orbit p).

(** ** A state and failure monad

    A computation reads and writes the world; [None] stands for a run the
    C program does not survive (null or dangling planet pointer) or for
    the recursion budget being exhausted. *)
Definition M (A : Type) : Type := world -> option (A * world).

Definition ret {A : Type} (a : A) : M A := fun w => Some (a, w).

Definition bind {A B : Type} (m : M A) (f : A -> M B) : M B :=
  fun w => match m w with
           | Some (a, w') => f a w'
           | None => None
           end.

Definition fail {A : Type} : M A := fun _ => None.

(** Dereference of a planet pointer. *)
Definition get_planet (p : nat) : M planet_t :=
  fun w => match w !! p with
           | Some pl => Some (pl, w)
           | None => None
           end.

(** In-place update of the planet a pointer designates. *)
Definition modify_planet (p : nat) (f : planet_t -> planet_t) : M unit :=
  fun w => Some (Datatypes.tt, alter f p w).

Declare Scope monad_scope.
Delimit Scope monad_scope with monad.
Notation "'do' x <- m ; k" := (bind m (fun x => k))
  (at level 10, x name, m at level 100, k at level 200) : monad_scope.
Notation "'run' m ; k" := (bind m (fun _ => k))
  (at level 10, m at level 100, k at level 200) : monad_scope.
Local Open Scope monad_scope.

(** ** Body position engine *)

Section Engine.

Context `{Eph : Ephemeris}.

(** [moon_icrf_geocentric_pos]: Moon position at a given time, in the
    ICRF frame, geocentric. *)
Definition moon_icrf_geocentric_pos (t : R) : vec3 :=
  let '(lambda, beta, dist) := moon_pos (DJM0 + t) in
  let dist := dist * (1000 / DAU) in
  let obl := eraObl06 DJM0 t in
  let rmatecl := eraRx (- obl) eraIr in
  let pos := eraS2p lambda beta dist in
  let pos := eraRxp rmatecl pos in
  let rmatp := eraPmat76 DJM0 t in
  eraTrxp rmatp pos.

(** The test guarding the cached branch of [planet_get_pvh]: the epoch
    is non-zero and the query time is within the refresh interval. *)
Definition pvh_cache_hit (pl : planet_t) (obs : observer_t) : bool :=
  if Req_dec_T (last_full_update pl) 0 then false
  else if Rlt_dec (Rabs (tt obs - last_full_update pl))
                  (update_delta_s pl / ERFA_DAYSEC)
       then true else false.

(** The labels of the [switch (planet->id)] of [planet_get_pvh]. *)
Inductive pvh_case : Type :=
| CaseEarth | CaseSun | CaseMoon | CasePlan94 | CaseL12 | CaseDefault.

Definition pvh_switch (i : Z) : pvh_case :=
  if (i =? EARTH)%Z then CaseEarth
  else if (i =? SUN)%Z then CaseSun
  else if (i =? MOON)%Z then CaseMoon
  else if ((i =? MERCURY) || (i =? VENUS) || (i =? MARS) || (i =? JUPITER)
           || (i =? SATURN) || (i =? URANUS) || (i =? NEPTUNE))%Z
       then CasePlan94
  else if ((i =? IO) || (i =? EUROPA) || (i =? GANYMEDE)
           || (i =? CALLISTO))%Z
       then CaseL12
  else CaseDefault.

(** [planet_get_pvh]: heliocentric (ICRF) position of a planet at a
    given time.  [fuel] bounds the depth of the recursion through
    [planet->parent]. *)
Fixpoint planet_get_pvh (fuel : nat) (planet : nat) (obs : observer_t)
  : M pv_t :=
  match fuel with
  | O => fail
  | S fuel' =>
    do pl <- get_planet planet;
    (* Use cached value if possible. *)
    if pvh_cache_hit pl obs then
      ret (eraPvu (tt obs - last_full_update pl) (last_full_pvh pl))
    else
      let parent_pvh : M pv_t :=
        match parent pl with
        | Some q => planet_get_pvh fuel' q obs
        | None => fail
        end in
      let cache (pvh : pv_t) : M pv_t :=
        (* Cache the value for next time. *)
        run modify_planet planet (set_pvh_cache (eraCpv pvh) (tt obs));
        ret pvh in
      match pvh_switch (id pl) with
      | CaseEarth => ret (eraCpv (earth_pvh obs))
      | CaseSun => ret eraZpv
      | CaseMoon =>
          let p0 := moon_icrf_geocentric_pos (tt obs) in
          let p1 := moon_icrf_geocentric_pos (tt obs + 1) in
          let p1 := vec3_sub p1 p0 in
          ret (eraPvppv (p0, p1) (earth_pvh obs))
      | CasePlan94 =>
          let n := ((id pl - MERCURY) ÷ 100 + 1)%Z in
          cache (eraPlan94 DJM0 (tt obs) n)
      | CaseL12 =>
          do ppvh <- parent_pvh;
          let pvh := l12 DJM0 (tt obs) (id pl - IO + 1)%Z in
          cache (vec3_add (fst pvh) (fst ppvh),
                 vec3_add (snd pvh) (snd ppvh))
      | CaseDefault =>
          do ppvh <- parent_pvh;
          let pvh := orbit_compute_pv 0 (tt obs) (orbit pl) 0 0 in
          cache (vec3_add (fst pvh) (fst ppvh),
                 vec3_add (snd pvh) (snd ppvh))
      end
  end.

(** The translation to the observer: add the barycentric state of the
    Sun, subtract the barycentric state of the observer. *)
Definition to_observer (obs : observer_t) (pvh : pv_t) : pv_t :=
  eraPvmpv (eraPvppv (eraCpv pvh) (sun_pvb obs)) (obs_pvb obs).

(** The light travel time of [planet_get_pvo], in days, for an
    observer-relative position in astronomical units. *)
Definition light_time (p : vec3) : R :=
  vec3_norm p * DAU / LIGHT_YEAR_IN_METER * DJY.

(** [planet_get_pvo]: observed position of a planet (ICRF, centered on
    the observer).  With [adjust_light_speed = false] the position is
    the one an infinite speed of light would give. *)
Definition planet_get_pvo (fuel : nat) (planet : nat) (obs : observer_t)
           (adjust_light_speed : bool) : M pv_t :=
  do pl <- get_planet planet;
  (* Use cached value if possible. *)
  if adjust_light_speed && (hash obs =? pvo_obs_hash pl)%Z then
    ret (eraCpv (pvo pl))
  else
    do pvh <- planet_get_pvh fuel planet obs;
    let pvo1 := to_observer obs pvh in
    if negb adjust_light_speed then ret pvo1
    else
      (* Apply light speed adjustment. *)
      let ldt := light_time (fst pvo1) in
      let obs2 := set_tt obs (tt obs - ldt) in
      do pvh <- planet_get_pvh fuel planet obs2;
      let pvo2 := to_observer obs pvh in
      (* Copy value into cache to speed up next access. *)
      run modify_planet planet (set_pvo_cache (hash obs) (eraCpv pvo2));
      ret pvo2.

End Engine.

(** ** Photometry and eclipse geometry *)

(** The classification in the body of the loop of
    [compute_sun_eclipse_factor], as a function of the angular radius of
    the Sun, the angular radius of the blocking body and their
    separation. *)
Definition shadow_factor (sun_r sph_r sep : R) : R :=
  if Rge_dec sep (sun_r + sph_r) then 1 (* Outside of shadow. *)
  else if Rle_dec sep (sph_r - sun_r) then 0 (* Umbra. *)
  else if Rle_dec sep (sun_r - sph_r) then (* Penumbra completely inside. *)
    1 - sph_r * sph_r / (sun_r * sun_r)
  else
    (* Penumbra partially inside. *)
    let x := (sun_r * sun_r + sep * sep - sph_r * sph_r) / (2 * sep) in
    let alpha := acos (x / sun_r) in
    let beta := acos ((sep - x) / sph_r) in
    let AR := sun_r * sun_r * (alpha - 0.5 * sin (2 * alpha)) in
    let Ar := sph_r * sph_r * (beta - 0.5 * sin (2 * beta)) in
    let AS := sun_r * sun_r * 2 * 1.57079633 in
    1 - (AR + Ar) / AS.

Section Photometry.

Context `{Eph : Ephemeris}.

(** The loop of [compute_sun_eclipse_factor] over the children of the
    planets module: bodies other than the Moon are skipped, the first
    Moon found decides. *)
Fixpoint eclipse_scan (fuel : nat) (sun_r : R) (obs : observer_t)
         (ps : list nat) : M R :=
  match ps with
  | [] => ret 1
  | p :: ps' =>
    do pl <- get_planet p;
    if negb (id pl =? MOON)%Z then eclipse_scan fuel sun_r obs ps'
    else
      do pvo <- planet_get_pvo fuel p obs true;
      let sph_r := 2 * radius_m pl / DAU / vec3_norm (fst pvo) in
      let sep := eraSepp (fst (sun_pvo obs)) (fst pvo) in
      ret (shadow_factor sun_r sph_r sep)
  end.

(** [compute_sun_eclipse_factor]: the illumination from the Sun, taking
    possible eclipses into account. *)
Definition compute_sun_eclipse_factor (fuel : nat) (sun : nat)
           (obs : observer_t) : M R :=
  do s <- get_planet sun;
  let sun_r := 2 * radius_m s / DAU / vec3_norm (fst (sun_pvo obs)) in
  fun w => eclipse_scan fuel sun_r obs (seq 0 (length w)) w.

(** [planet_get_phase]. *)
Definition planet_get_phase (fuel : nat) (planet : nat)
           (obs : observer_t) : M double :=
  do pl <- get_planet planet;
  if ((id pl =? EARTH) || (id pl =? SUN))%Z then ret NAN
  else
    do pvh <- planet_get_pvh fuel planet obs;
    do pvo <- planet_get_pvo fuel planet obs true;
    let i := eraSepp (fst pvh) (fst pvo) in (* Phase angle. *)
    ret (Num (0.5 * cos i + 0.5)).

(** [sun_get_vmag]: apparent magnitude from the absolute magnitude
    (V: 4.83) and the distance of the observer. *)
Definition sun_get_vmag (fuel : nat) (sun : nat) (obs : observer_t)
  : M R :=
  let dist_pc := vec3_norm (fst (earth_pvh obs)) * (PI / 648000) in
  do f <- compute_sun_eclipse_factor fuel sun obs;
  let eclipse_factor := max f 0.000128 in
  ret (4.83 + 5.0 * (log10 dist_pc - 1.0) - 2.5 * log10 eclipse_factor).

End Photometry.

(** ** Shadow candidates *)

(** [double sphere[4]]: xyz is the position, w the radius (AU). *)
Abbreviation sphere := (vec3 * R)%type.

(** [sort_shadow_cmp]: biggest radius first. *)
Definition sort_shadow_cmp (a b : sphere) : Z := (- cmp (snd a) (snd b))%Z.

(** Modelled from the spec: [qsort] of the C library, as an insertion
    sort driven by the comparison function.  The C standard leaves the
    relative order of elements that compare equal unspecified; no result
    below depends on it. *)
Fixpoint qsort_insert {A : Type} (c : A -> A -> Z) (x : A) (l : list A)
  : list A :=
  match l with
  | [] => [x]
  | y :: l' =>
    if (c x y <=? 0)%Z then x :: y :: l' else y :: qsort_insert c x l'
  end.

Fixpoint qsort {A : Type} (c : A -> A -> Z) (l : list A) : list A :=
  match l with
  | [] => []
  | x :: l' => qsort_insert c x (qsort c l')
  end.

Section Shadow.

Context `{Eph : Ephemeris}.

(** [could_cast_shadow]: test if a planet [a] could cast shadow on a
    planet [b].  With [a = None] (the null pointer) the answer is false
    when no body at all is considered for [b]. *)
Definition could_cast_shadow (fuel : nat) (a : option nat) (b : nat)
           (obs : observer_t) : M bool :=
  let SUN_RADIUS := 695508000 / DAU in
  do pb <- get_planet b;
  match a with
  | None =>
    ret ((id pb =? MOON) || ((IO <=? id pb) && (id pb <=? JUPITER)))%Z
  | Some a =>
    do pa <- get_planet a;
    if (id pb =? id pa)%Z then ret false (* No self shadow. *)
    else if (((IO <=? id pb) && (id pb <=? JUPITER))
             && ((id pa <? IO) || (JUPITER <? id pa)))%Z then ret false
    else if ((id pb =? MOON) && negb (id pa =? EARTH))%Z then ret false
    else
      do apvh <- planet_get_pvh fuel a obs;
      do bpvh <- planet_get_pvh fuel b obs;
      if Rgt_dec (vec3_norm2 (fst apvh)) (vec3_norm2 (fst bpvh))
      then ret false
      else
        let pp := vec3_normalize (fst apvh) in
        let shadow_dist := vec3_dot pp (fst bpvh) in
        let d := vec2_norm (fst apvh)
                 / (radius_m pa / DAU / SUN_RADIUS + 1) in
        let penumbra_r := (shadow_dist - d) / d * SUN_RADIUS in
        let pp := vec3_mul shadow_dist pp in
        let pp := vec3_sub pp (fst bpvh) in
        ret (if Rlt_dec (vec3_norm pp) (penumbra_r + radius_m pb / DAU)
             then true else false)
  end.

(** The loop of [get_shadow_candidates].  [spheres] holds the [nb]
    entries filled so far ([nb] is its length); entries of the C array
    past [nb] are not part of the result. *)
Fixpoint shadow_scan (fuel : nat) (planet : nat) (obs : observer_t)
         (nb_max : nat) (others : list nat) (spheres : list sphere)
  : M (list sphere) :=
  match others with
  | [] => ret spheres
  | other :: rest =>
    do c <- could_cast_shadow fuel (Some other) planet obs;
    if c then
      do po <- get_planet other;
      let r := radius_m po / DAU in
      let add (kept : list sphere) : M (list sphere) :=
        do pvo <- planet_get_pvo fuel other obs true;
        shadow_scan fuel planet obs nb_max rest
                    (qsort sort_shadow_cmp (kept ++ [(fst pvo, r)])) in
      if (nb_max <=? length spheres)%nat then
        (* No more space: replace the smallest one in the list if we
           can. *)
        match spheres !! (nb_max - 1)%nat with
        | None => fail
        | Some smallest =>
          if Rlt_dec r (snd smallest)
          then shadow_scan fuel planet obs nb_max rest spheres
          else add (take (length spheres - 1) spheres)
                   (* Remove the last one. *)
        end
      else add spheres
    else shadow_scan fuel planet obs nb_max rest spheres
  end.

(** [get_shadow_candidates]: the list of potential shadow spheres that
    should be considered when rendering a planet, sorted with the
    biggest first. *)
Definition get_shadow_candidates (fuel : nat) (planet : nat)
           (obs : observer_t) (nb_max : nat) : M (list sphere) :=
  do c <- could_cast_shadow fuel None planet obs;
  if negb c then ret []
  else fun w => shadow_scan fuel planet obs nb_max (seq 0 (length w)) [] w.

End Shadow.


(** ** The eclipse factor in binary64 *)

(** IEEE 754 binary64 arithmetic, rounding to nearest with ties to even:
    the arithmetic of a C [double] when every operation is rounded to
    binary64 (no fused multiply-add, no extended precision).  The
    operations are the reference operations of [SpecFloat]. *)
Module B64.
Import SpecFloat.

Abbreviation binary64 := spec_float.

Definition prec : Z := 53.
Definition emax : Z := 1024.

Definition add : binary64 -> binary64 -> binary64 := SFadd prec emax.
Definition sub : binary64 -> binary64 -> binary64 := SFsub prec emax.
Definition mul : binary64 -> binary64 -> binary64 := SFmul prec emax.
Definition div : binary64 -> binary64 -> binary64 := SFdiv prec emax.

(** The comparisons of C: both are false when an operand is not a
    number. *)
Definition le (a b : binary64) : bool := SFleb a b.
Definition ge (a b : binary64) : bool := SFleb b a.

Definition NaN : binary64 := S754_nan.

(** The next binary64 number above. *)
Definition succ : binary64 -> binary64 := SFsucc prec emax.

(** An integer constant, and the decimal constant [m * 10 ^ (- p)]
    rounded to the nearest binary64 number. *)
Definition of_Z (m : Z) : binary64 := binary_normalize prec emax m 0 false.
Definition decimal (m : Z) (p : Z) : binary64 :=
  div (of_Z m) (of_Z (10 ^ p)).

Declare Scope b64_scope.
Delimit Scope b64_scope with b64.
Infix "+" := add : b64_scope.
Infix "-" := sub : b64_scope.
Infix "*" := mul : b64_scope.
Infix "/" := div : b64_scope.
Infix "<=" := le : b64_scope.
Infix ">=" := ge : b64_scope.

Definition DAU : binary64 := of_Z 149597870700.

(** Modelled from the spec: the two functions of the C library the
    eclipse factor calls.  Their values are left open, but for the one
    case Annex F of the C standard fixes (C11, F.10.1.1): [acos] of an
    argument of absolute value above 1 is a domain error and returns a
    not-a-number value. *)
Class Libm : Type := {
  acos : binary64 -> binary64;
  sin : binary64 -> binary64;
  acos_domain (x : binary64) :
    SFltb (of_Z 1) (SFabs x) = true -> acos x = NaN
}.

Section Eclipse.

Context `{L : Libm}.

Local Open Scope b64_scope.

(** [compute_sun_eclipse_factor] for the Moon the loop meets, as a
    function of the two radii in metres and of the three values the
    callees return: [sun_norm] is [vec3_norm(obs->sun_pvo[0])],
    [moon_norm] is [vec3_norm(pvo[0])] and [sep] is
    [eraSepp(obs->sun_pvo[0], pvo[0])]. *)
Definition compute_sun_eclipse_factor
           (sun_radius_m sun_norm moon_radius_m moon_norm sep : binary64)
  : binary64 :=
  let sun_r := of_Z 2 * sun_radius_m / DAU / sun_norm in
  let sph_r := of_Z 2 * moon_radius_m / DAU / moon_norm in
  if sep >= sun_r + sph_r then of_Z 1 (* Outside of shadow. *)
  else if sep <= sph_r - sun_r then of_Z 0 (* Umbra. *)
  else if sep <= sun_r - sph_r then (* Penumbra completely inside. *)
    of_Z 1 - sph_r * sph_r / (sun_r * sun_r)
  else
    (* Penumbra partially inside. *)
    let x := (sun_r * sun_r + sep * sep - sph_r * sph_r) / (of_Z 2 * sep) in
    let alpha := acos (x / sun_r) in
    let beta := acos ((sep - x) / sph_r) in
    let AR := sun_r * sun_r * (alpha - decimal 5 1 * sin (of_Z 2 * alpha)) in
    let Ar := sph_r * sph_r * (beta - decimal 5 1 * sin (of_Z 2 * beta)) in
    let AS := sun_r * sun_r * of_Z 2 * decimal 157079633 8 in
    of_Z 1 - (AR + Ar) / AS.

End Eclipse.

End B64.
(** * Auxiliary definitions *)

(** ** Parts of the store and well-formed worlds *)

(** The fields no query ever writes. *)
Definition static_part (p : planet_t)
  : option nat * R * Z * R * elements_t :=
  (parent p, radius_m p, id p, update_delta_s p, orbit p).

(** The heliocentric cache. *)
Definition pvh_part (p : planet_t) : R * pv_t :=
  (last_full_update p, last_full_pvh p).

(** The observer-relative cache. *)
Definition pvo_part (p : planet_t) : Z * pv_t := (pvo_obs_hash p, pvo p).

(** [pvh_resolves w fuel planet]: walking up from [planet], every body
    whose position is relative to its parent has one, and a body that
    needs no parent is reached within [fuel] steps.  This is the tree
    invariant of the catalog, restricted to the part a query follows. *)
Fixpoint pvh_resolves (w : world) (fuel : nat) (planet : nat) : bool :=
  match fuel with
  | O => false
  | S fuel' =>
    match w !! planet with
    | None => false
    | Some pl =>
      match pvh_switch (id pl) with
      | CaseL12 | CaseDefault =>
        match parent pl with
        | Some q => pvh_resolves w fuel' q
        | None => false
        end
      | _ => true
      end
    end
  end.

(** Every body of the world is within reach of the recursion budget. *)
Definition all_resolve (w : world) (fuel : nat) : Prop :=
  forall i : nat, (i < length w)%nat -> pvh_resolves w fuel i = true.

(** Two worlds that differ at most in the observer-relative caches. *)
Definition same_but_pvo (w1 w2 : world) : Prop :=
  map static_part w1 = map static_part w2 /\
  map pvh_part w1 = map pvh_part w2.

(** A world whose observer-relative caches all carry the fingerprint of
    the observer, as after the positions of a frame have been computed:
    [planet_get_pvo] with the light-time adjustment then answers from
    the cache and writes nothing. *)
Definition pvo_warm (w : world) (obs : observer_t) : Prop :=
  Forall (fun pl => hash obs = pvo_obs_hash pl) w.

(** ** Reference quantities of the photometry *)

(** The phase angle in the words of the glossary: the angle, at the body,
    between the direction to the Sun and the direction to the observer.
    [pvh] is the position of the body from the Sun, [pvo] its position
    from the observer, so the two directions are their opposites. *)
Definition phase_angle (pvh pvo : vec3) : R :=
  eraSepp (vec3_mul (-1) pvh) (vec3_mul (-1) pvo).

(** The magnitude of the Sun seen from [dist_pc] parsec with nothing in
    front of it (eclipse factor 1). *)
Definition sun_vmag_unobstructed (dist_pc : R) : R :=
  4.83 + 5 * (log10 dist_pc - 1).

(** One astronomical unit, in parsec. *)
Definition au_in_parsec : R := PI / 648000.

(** ** The eclipse factor in the words of the specification *)

(** The angular radius, in radians, of a body of radius [radius_m]
    metres seen from the distance [dist] astronomical units, as
    [planet_get_info] computes it for [INFO_RADIUS]
    ([planet->radius_m / DAU / vec3_norm(pvo[0])]). *)
Definition angular_radius (radius_m dist : R) : R := radius_m / DAU / dist.

(** The child of the planets module at index [i] carries the id of the
    Moon. *)
Definition is_moon (w : world) (i : nat) : bool :=
  match w !! i with
  | Some pl => (id pl =? MOON)%Z
  | None => false
  end.

(** The first Moon in iteration order, if any: the only body the loop of
    [compute_sun_eclipse_factor] computes with. *)
Definition first_moon (w : world) : option nat :=
  find (is_moon w) (seq 0 (length w)).

(** ** Geometry of two crossing circles *)

(** The area two disks of radii [ra] and [rb] share when their centres
    are [d] apart and the circles cross ([|ra - rb| < d < ra + rb]): the
    standard two-circle intersection formula, the sum of two circular
    segments. *)
Definition lens_area (ra rb d : R) : R :=
  let x := (ra * ra + d * d - rb * rb) / (2 * d) in
  let alpha := acos (x / ra) in
  let beta := acos ((d - x) / rb) in
  ra * ra * (alpha - sin (2 * alpha) / 2)
  + rb * rb * (beta - sin (2 * beta) / 2).

(** The area of a disk of radius [ra]. *)
Definition disk_area (ra : R) : R := PI * (ra * ra).

(** The three tests that lead to the last branch of [shadow_factor]. *)
Definition crossing (sun_r sph_r sep : R) : Prop :=
  sep < sun_r + sph_r /\ sph_r - sun_r < sep /\ sun_r - sph_r < sep.

(** The area of the segment of the unit disk beyond the chord at
    abscissa [u]. *)
Definition segment (u : R) : R := acos u - u * sqrt (1 - u * u).

(** The abscissa of the chord two crossing circles share, from the centre
    of the first. *)
Definition chord_x (ra rb d : R) : R := (ra * ra + d * d - rb * rb) / (2 * d).

(** Half the length of the chord two crossing circles share. *)
Definition half_chord (ra rb d : R) : R :=
  ra * sqrt (1 - chord_x ra rb d / ra * (chord_x ra rb d / ra)).

(** The area of the segment of the unit disk of half-angle [t]. *)
Definition angle_segment (t : R) : R := t - sin t * cos t.

(** The area of a segment divided by the square of its half chord. *)
Definition segment_ratio (t : R) : R := angle_segment t / (sin t * sin t).

(** The least height of the step of [shadow_factor] at the inner boundary
    [|sun_r - sph_r|] of the crossing configuration. *)
Definition inner_step (sun_r sph_r : R) : R :=
  (1 - PI / (2 * 1.57079633))
  * Rmin 1 (sph_r * sph_r / (sun_r * sun_r)).

(** ** Shadow candidates: the reference selection *)

(** The radii of a list of spheres. *)
Definition radii (spheres : list sphere) : list R := map snd spheres.

(** Brute-force sort of a list of radii, biggest first. *)
Fixpoint insert_desc (r : R) (l : list R) : list R :=
  match l with
  | [] => [r]
  | a :: l' => if Rle_dec a r then r :: a :: l' else a :: insert_desc r l'
  end.

Fixpoint sort_desc (l : list R) : list R :=
  match l with
  | [] => []
  | r :: l' => insert_desc r (sort_desc l')
  end.

(** The [n] biggest radii of a list (all of them when there are fewer),
    biggest first. *)
Definition top_radii (n : nat) (l : list R) : list R :=
  take n (sort_desc l).

(** The radius [get_shadow_candidates] records for the body at index
    [i]. *)
Definition candidate_radius (w : world) (i : nat) : R :=
  match w !! i with
  | Some p => radius_m p / DAU
  | None => 0
  end.

(** The geometric test at the end of [could_cast_shadow], for a caster of
    radius [ra_m] at the heliocentric position [apos] and a target of
    radius [rb_m] at [bpos]. *)
Definition shadow_geometry (ra_m rb_m : R) (apos bpos : vec3) : bool :=
  let SUN_RADIUS := 695508000 / DAU in
  if Rgt_dec (vec3_norm2 apos) (vec3_norm2 bpos) then false
  else
    let pp := vec3_normalize apos in
    let shadow_dist := vec3_dot pp bpos in
    let d := vec2_norm apos / (ra_m / DAU / SUN_RADIUS + 1) in
    let penumbra_r := (shadow_dist - d) / d * SUN_RADIUS in
    let pp := vec3_mul shadow_dist pp in
    let pp := vec3_sub pp bpos in
    if Rlt_dec (vec3_norm pp) (penumbra_r + rb_m / DAU)
    then true else false.

(** The sphere [get_shadow_candidates] records for the body at index
    [i] once [planet_get_pvo] has filled its observer-relative cache:
    the cached position and the radius in astronomical units. *)
Definition sphere_of (w : world) (i : nat) : sphere :=
  match w !! i with
  | Some p => (fst (pvo p), radius_m p / DAU)
  | None => (Vec.zero, 0)
  end.

(** The observer-relative cache of the body at index [i] carries the
    fingerprint of the observer. *)
Definition pvo_cached (w : world) (obs : observer_t) (i : nat) : Prop :=
  exists p : planet_t, w !! i = Some p /\ pvo_obs_hash p = hash obs.

(** [sel] is a choice of [nb_max] bodies of largest radius among the
    bodies [eligible] (all of them when there are fewer): distinct
    eligible bodies, none left out while there is room, and none left
    out that is bigger than a chosen one. *)
Definition selection (w : world) (nb_max : nat) (eligible sel : list nat)
  : Prop :=
  NoDup sel /\
  (forall i : nat, i ∈ sel -> i ∈ eligible) /\
  (forall i : nat,
      i ∈ eligible -> i ∉ sel ->
      length sel = nb_max /\
      forall j : nat,
        j ∈ sel -> candidate_radius w i <= candidate_radius w j).

(** The tie rule of the loop, seen on its last accepted body: the head
    of [eligible], the body accepted last, is left out of [sel] only if
    it is strictly smaller than every body of [sel] (a candidate as big
    as the smallest sphere takes its place). *)
Definition latest_kept (w : world) (eligible sel : list nat) : Prop :=
  forall (o : nat) (rest : list nat),
    eligible = o :: rest -> o ∉ sel ->
    forall j : nat, j ∈ sel -> candidate_radius w o < candidate_radius w j.

(** One turn of the loop of [get_shadow_candidates]: the body visited,
    the world in which [could_cast_shadow] was called for it, and the
    answer. *)
Record visit_t : Type := mk_visit {
  visit_body : nat;
  visit_world : world;
  visit_answer : bool
}.

(** The bodies of a log for which the answer was true. *)
Fixpoint accepted (log : list visit_t) : list nat :=
  match log with
  | [] => []
  | v :: log' =>
    if visit_answer v then visit_body v :: accepted log'
    else accepted log'
  end.

Section ShadowLog.

Context `{Eph : Ephemeris}.

(** The loop of [get_shadow_candidates] again, instrumented: next to the
    spheres it returns [log], the turns of the loop, most recent first.
    The tests and the writes are those of [shadow_scan]. *)
Fixpoint shadow_scan_log (fuel : nat) (planet : nat) (obs : observer_t)
         (nb_max : nat) (others : list nat) (spheres : list sphere)
         (log : list visit_t) : M (list sphere * list visit_t) :=
  match others with
  | [] => ret (spheres, log)
  | other :: rest =>
    fun w =>
      (do c <- could_cast_shadow fuel (Some other) planet obs;
       let log := mk_visit other w c :: log in
       if c then
         do po <- get_planet other;
         let r := radius_m po / DAU in
         let add (kept : list sphere) : M (list sphere * list visit_t) :=
           do pvo <- planet_get_pvo fuel other obs true;
           shadow_scan_log fuel planet obs nb_max rest
                           (qsort sort_shadow_cmp (kept ++ [(fst pvo, r)]))
                           log in
         if (nb_max <=? length spheres)%nat then
           match spheres !! (nb_max - 1)%nat with
           | None => fail
           | Some smallest =>
             if Rlt_dec r (snd smallest)
             then shadow_scan_log fuel planet obs nb_max rest spheres log
             else add (take (length spheres - 1) spheres)
           end
         else add spheres
       else shadow_scan_log fuel planet obs nb_max rest spheres log) w
  end.

(** [get_shadow_candidates], instrumented in the same way. *)
Definition get_shadow_candidates_log (fuel : nat) (planet : nat)
           (obs : observer_t) (nb_max : nat)
  : M (list sphere * list visit_t) :=
  do c <- could_cast_shadow fuel None planet obs;
  if negb c then ret ([], [])
  else fun w =>
         shadow_scan_log fuel planet obs nb_max (seq 0 (length w)) [] [] w.

(** The answer a turn of the loop recorded is the answer of
    [could_cast_shadow] for the body visited, in the world recorded. *)
Definition visit_holds (fuel : nat) (planet : nat) (obs : observer_t)
           (v : visit_t) : Prop :=
  exists w1 : world,
    could_cast_shadow fuel (Some (visit_body v)) planet obs (visit_world v)
    = Some (visit_answer v, w1).

(** [ahead w0 obs w]: the world [w] is the world [w0] but for
    heliocentric caches that hold, for the date of [obs], the state a
    query made in [w0] returns.  The worlds the loop goes through are of
    this kind when the observer-relative caches answer. *)
Definition ahead (w0 : world) (obs : observer_t) (w : world) : Prop :=
  map static_part w = map static_part w0 /\
  map pvo_part w = map pvo_part w0 /\
  forall (i : nat) (p0 p : planet_t),
    w0 !! i = Some p0 -> w !! i = Some p ->
    pvh_part p = pvh_part p0 \/
    (last_full_update p = tt obs /\
     exists (fuel : nat) (w1 : world),
       planet_get_pvh fuel i obs w0 = Some (last_full_pvh p, w1)).

End ShadowLog.

(** ** Worked inputs *)

(** An ephemeris whose theories are constant: every body rests at the
    origin of the frame its theory is expressed in. *)
Definition still_ephemeris : Ephemeris :=
  {| LIGHT_YEAR_IN_METER := 9460730472580800;
     eraPlan94 := fun _ _ _ => eraZpv;
     l12 := fun _ _ _ => eraZpv;
     orbit_compute_pv := fun _ _ _ _ _ => eraZpv;
     moon_pos := fun _ => (0, 0, 0);
     eraObl06 := fun _ _ => 0;
     eraPmat76 := fun _ _ => eraIr |}.

Definition no_orbit : elements_t := mk_elements 0 0 0 0 0 0 0 0.

(** A position on the x axis, at rest. *)
Definition at_x (x : R) : pv_t := ((x, 0, 0), Vec.zero).

(** An ephemeris whose planetary theory moves every planet along the x
    axis: at the date [t] a planet is [5 + t] astronomical units from the
    Sun.  The other theories are constant. *)
Definition drifting_ephemeris : Ephemeris :=
  {| LIGHT_YEAR_IN_METER := 9460730472580800;
     eraPlan94 := fun _ t _ => at_x (5 + t);
     l12 := fun _ _ _ => eraZpv;
     orbit_compute_pv := fun _ _ _ _ _ => eraZpv;
     moon_pos := fun _ => (0, 0, 0);
     eraObl06 := fun _ _ => 0;
     eraPmat76 := fun _ _ => eraIr |}.

(** An observer at the Earth, one astronomical unit from the Sun, at the
    date [t] with the fingerprint [h]. *)
Definition observer_at (t : R) (h : Z) : observer_t :=
  mk_observer t (at_x 1) eraZpv (at_x 1) (at_x (-1)) h.

(** Mars with a heliocentric cache filled at the date 58000. *)
Definition mars_cached : planet_t :=
  mk_planet None 3389500 MARS 1.5 58000 ((1.5, 0, 0), (0, 0.01, 0))
            0 eraZpv no_orbit.

(** The Earth, its caches never filled. *)
Definition earth_fresh : planet_t :=
  mk_planet None 6371000 EARTH 1.5 0 eraZpv 0 eraZpv no_orbit.

(** Jupiter, its caches never filled. *)
Definition jupiter_fresh : planet_t :=
  mk_planet None 69911000 JUPITER 1.5 0 eraZpv 0 eraZpv no_orbit.

(** The Sun, its caches never filled. *)
Definition sun_fresh : planet_t :=
  mk_planet None 695508000 SUN 1.5 0 eraZpv 0 eraZpv no_orbit.

(** Mars with both caches filled: the heliocentric one at the date 58000,
    the observer-relative one under the fingerprint 1.  Sun, observer and
    Mars are aligned, Mars in opposition. *)
Definition mars_opposition : planet_t :=
  mk_planet None 3389500 MARS 1.5 58000 (at_x 1.5) 1 (at_x 0.5) no_orbit.

(** Jupiter and two moons of equal radius, all three on the x axis, the
    moons between the Sun and Jupiter; both caches of every body are
    filled for the date 58000 and the fingerprint 1. *)
Definition jupiter_aligned : planet_t :=
  mk_planet None 69911000 JUPITER 1.5 58000 (at_x 5) 1 (at_x 4) no_orbit.

Definition io_aligned : planet_t :=
  mk_planet (Some 0%nat) 1500000 IO 1.5 58000 (at_x 4.997) 1 (at_x 3.997)
            no_orbit.

Definition europa_aligned : planet_t :=
  mk_planet (Some 0%nat) 1500000 EUROPA 1.5 58000 (at_x 4.995) 1
            (at_x 3.995) no_orbit.

Definition jovian_world : world :=
  [jupiter_aligned; io_aligned; europa_aligned].

(** The Sun and the Earth with their observer-relative caches filled
    under the fingerprint 1, and two moons of equal radius on the line
    from the Sun to Jupiter, both caches filled. *)
Definition sun_seen : planet_t :=
  mk_planet None 695508000 SUN 1.5 0 eraZpv 1 (at_x (-1)) no_orbit.

Definition earth_seen : planet_t :=
  mk_planet None 6371000 EARTH 1.5 0 eraZpv 1 eraZpv no_orbit.

Definition io_of (jupiter : nat) : planet_t :=
  mk_planet (Some jupiter) 1500000 IO 1.5 58000 (at_x 4.997) 1
            (at_x 3.997) no_orbit.

Definition europa_of (jupiter : nat) : planet_t :=
  mk_planet (Some jupiter) 1500000 EUROPA 1.5 58000 (at_x 4.995) 1
            (at_x 3.995) no_orbit.

(** The Earth and Mars on the x axis, Mars in opposition. *)
Definition earth_mars_world : world := [earth_fresh; mars_opposition].

(** ** Worked inputs for the eclipse factor *)

(** The Moon with its observer-relative cache filled, under the
    fingerprint 1, with the position [p]. *)
Definition moon_seen (p : vec3) : planet_t :=
  mk_planet None 1737400 MOON 1.5 0 eraZpv 1 (p, Vec.zero) no_orbit.

(** The Sun, the Earth, the Moon, Jupiter and two of its moons.  The
    observer-relative cache of every body is filled under the
    fingerprint 1; the heliocentric caches of Jupiter and of its moons
    are filled for the date 58000, those of the Sun, the Earth and the
    Moon are empty, as the code never fills them. *)
Definition jovian_sky : world :=
  [sun_seen; earth_seen; moon_seen (0.0025, 0, 0); jupiter_aligned;
   io_of 3; europa_of 3].

(** The position, from an observer that sees the Sun in the direction
    [-x], of a point [d] astronomical units away whose direction makes
    the angle [theta] with the direction of the Sun. *)
Definition from_sun (d theta : R) : vec3 :=
  (- (d * cos theta), d * sin theta, 0).

(** The Sun and the Moon, the Moon [d] astronomical units from the
    observer and [theta] radians from the Sun. *)
Definition eclipse_world (d theta : R) : world :=
  [sun_fresh; moon_seen (from_sun d theta)].

(** The angular radius of the Sun from one astronomical unit, and the
    distance from which the Moon has the same angular radius (about
    373700 km). *)
Definition sun_angular_radius : R := angular_radius 695508000 1.

Definition matching_distance : R := 1737400 / 695508000.

(** The disk of the Moon, as large as the disk of the Sun, touches it
    from outside: the separation of the centres is the sum of the two
    angular radii. *)
Definition touching_world : world :=
  eclipse_world matching_distance (2 * sun_angular_radius).


(** ** Worked inputs in binary64 *)

(** The Sun (radius 695508000 m) one astronomical unit away and the Moon
    (radius 1737400 m) 0.0026 astronomical unit away, near its apogee:
    the disk of the Moon is smaller than the disk of the Sun.
    [annular_factor sep] is the value [compute_sun_eclipse_factor]
    returns for them in binary64 when their separation is [sep]. *)
Definition annular_factor `{L : B64.Libm} (sep : B64.binary64)
  : B64.binary64 :=
  B64.compute_sun_eclipse_factor (B64.of_Z 695508000) (B64.of_Z 1)
                                 (B64.of_Z 1737400) (B64.decimal 26 4) sep.

(** The values of [sun_r] and [sph_r] for them, and the value of
    [sun_r - sph_r], the bound of the test of the branch "penumbra
    completely inside". *)
Definition annular_sun_r : B64.binary64 :=
  B64.div (B64.div (B64.mul (B64.of_Z 2) (B64.of_Z 695508000)) B64.DAU)
          (B64.of_Z 1).

Definition annular_sph_r : B64.binary64 :=
  B64.div (B64.div (B64.mul (B64.of_Z 2) (B64.of_Z 1737400)) B64.DAU)
          (B64.decimal 26 4).

Definition annular_inner : B64.binary64 :=
  B64.sub annular_sun_r annular_sph_r.

(** A C library that implements the domain error of [acos] and nothing
    else of interest. *)
Definition domain_only_libm : B64.Libm :=
  {| B64.acos := fun x =>
       if SpecFloat.SFltb (B64.of_Z 1) (SpecFloat.SFabs x)
       then B64.NaN else B64.of_Z 0;
     B64.sin := fun x => x;
     B64.acos_domain := fun x H =>
       @eq_ind_r bool true
                 (fun b : bool =>
                    (if b then B64.NaN else B64.of_Z 0) = B64.NaN)
                 eq_refl _ H |}.
(** * Magnitudes, rotation and object information

    The rest of the query side of [src/modules/planets.c]: the apparent
    magnitudes ([moon_get_vmag], [rings_vmag], [planet_get_vmag]), the
    object information entry point ([planet_get_pvo4], [planet_get_info]),
    the rotation about the axis ([planet_get_rotation]) and the relative
    state handed to the orbit fit ([planet_compute_orbit_elements]). *)

(** Modelled from the spec: [DJM00], the Modified Julian Date of the epoch
    J2000.0. *)
Definition DJM00 : R := 515445 / 10.

(** The routines and constants of [swe.h] and of the ERFA library the
    magnitude code and the orbit fit call.  They live outside the
    translated sources and are parameters of the model. *)
Class SweLib : Type := {
  (** [DR2D]: radians to degrees. *)
  DR2D : R;
  (** [mat3_mul_vec3 (mat, v)]: product of a matrix and a vector. *)
  mat3_mul_vec3 : mat3 -> vec3 -> vec3;
  (** [eraC2s (p)]: longitude and latitude of a vector. *)
  eraC2s : vec3 -> R * R;
  (** [satrings (hlat, hlon, hr, earth_hlon, earth_hr, jd)]: tilt of the
      rings of Saturn towards the Earth and towards the Sun. *)
  satrings : R -> R -> R -> R -> R -> R -> R * R;
  (** [orbit_elements_from_pv (p, v, mu)]: the osculating elements
      [in, om, w, a, n, ec, ma] of a relative state. *)
  orbit_elements_from_pv : vec3 -> vec3 -> R -> R * R * R * R * R * R * R
}.

(** The rotation elements of [struct planet] ([planet->rot]). *)
Record rot_t : Type := mk_rot {
  rot_obliquity : R;
  rot_period : R;
  rot_offset : R;
  rot_pole_ra : R;
  rot_pole_de : R
}.

(** The constant fields of [struct planet] the position engine does not
    read.  No query writes them: they are kept in a table beside the
    world, under the same indices. *)
Record planet_phys_t : Type := mk_planet_phys {
  albedo : R;
  mass : R;
  rot : rot_t
}.

Abbreviation catalog := (list planet_phys_t).

(** The constant data of the planet a pointer designates. *)
Definition get_phys (cat : catalog) (p : nat) : M planet_phys_t :=
  fun w => match cat !! p with
           | Some ph => Some (ph, w)
           | None => None
           end.

(** The fields of [observer_t] only the ring magnitude reads. *)
Record observer_frame_t : Type := mk_observer_frame {
  ri2e : mat3;
  ut1 : R
}.

(** Visual elements of planets ([VIS_ELEMENTS]): angular size at 1 AU,
    magnitude at 1 AU from Sun and Earth and 0 deg phase angle, and the
    coefficients A, B, C of the magnitude correction.  The rows the source
    leaves empty are zero. *)
Definition VIS_ELEMENTS : list (R * R * R * R * R) :=
  [ (0, 0, 0, 0, 0);
    (* Mercury *) (6.74, -0.36, 3.8, -2.73, 2.00);
    (* Venus *)   (16.92, -4.29, 0.09, 2.39, -0.65);
    (* Earth *)   (0, 0, 0, 0, 0);
    (* Mars *)    (9.36, -1.52, 1.60, 0, 0);
    (* Jupiter *) (196.74, -9.25, 0.50, 0, 0);
    (* Saturn *)  (165.6, -8.88, 4.40, 0, 0);
    (* Uranus *)  (70.481, -7.19, 0.28, 0, 0);
    (* Neptune *) (68.294, -6.87, 0, 0, 0);
    (* Pluto *)   (8.2, -1.01, 4.1, 0, 0) ].

(** The labels of the [switch (planet->id)] of [planet_get_vmag]. *)
Inductive vmag_case : Type :=
| VmagSun | VmagMoon | VmagPlanet | VmagDefault.

Definition vmag_switch (i : Z) : vmag_case :=
  if (i =? SUN)%Z then VmagSun
  else if (i =? MOON)%Z then VmagMoon
  else if ((i =? MERCURY) || (i =? VENUS) || (i =? MARS) || (i =? JUPITER)
           || (i =? SATURN) || (i =? URANUS) || (i =? NEPTUNE))%Z
       then VmagPlanet
  else VmagDefault.

(** [double v[4]]: xyz and the homogeneous coordinate w. *)
Abbreviation vec4 := (vec3 * R)%type.

(** The selectors of [planet_get_info]: the four the source answers, and
    any other value of the enumeration. *)
Inductive info_t : Type :=
| INFO_PVO | INFO_VMAG | INFO_PHASE | INFO_RADIUS | INFO_OTHER (code : Z).

(** What [planet_get_info] writes through [out]. *)
Inductive info_value : Type :=
| OutPvo4 (pvo4 : vec4 * vec4)
| OutDouble (d : double).

Section Magnitude.

Context `{Eph : Ephemeris} `{Lib : SweLib}.

(** [planet_get_pvo4]: same as [planet_get_pvo], but returns homogeneous
    4d coordinates. *)
Definition planet_get_pvo4 (fuel : nat) (planet : nat) (obs : observer_t)
  : M (vec4 * vec4) :=
  do pvo <- planet_get_pvo fuel planet obs true;
  ret ((fst pvo, 1), (snd pvo, 1)).

(** [moon_get_vmag]: based on the algorithm of pyephem. *)
Definition moon_get_vmag (fuel : nat) (moon : nat) (obs : observer_t)
  : M R :=
  do pvh <- planet_get_pvh fuel moon obs;
  do pvo <- planet_get_pvo fuel moon obs true;
  let dist := vec3_norm (fst pvo) in
  let el := eraSepp (fst pvo) (fst (sun_pvo obs)) in (* Elongation. *)
  ret (-12.7
       + 2.5 * (log10 PI - log10 (PI / 2.0 * (1.0 + 1e-6 - cos el)))
       + 5.0 * log10 (dist / 0.0025)).

(** [rings_vmag]: magnitude adjustment from the rings. *)
Definition rings_vmag (fuel : nat) (planet : nat) (obs : observer_t)
           (obsf : observer_frame_t) : M R :=
  do pl <- get_planet planet;
  if negb (id pl =? SATURN)%Z then ret 0
  else
    do pvh <- planet_get_pvh fuel planet obs;
    let hpos := mat3_mul_vec3 (ri2e obsf) (fst pvh) in
    let earth_hpos := mat3_mul_vec3 (ri2e obsf) (fst (earth_pvh obs)) in
    let '(hlon, hlat) := eraC2s hpos in
    let '(earth_hlon, earth_hlat) := eraC2s earth_hpos in
    let '(et, st) := satrings hlat hlon (vec3_norm (fst pvh))
                              earth_hlon (vec3_norm (fst (earth_pvh obs)))
                              (ut1 obsf + DJM0) in
    let set := sin (Rabs et) in
    ret ((-2.60 + 1.25 * set) * set).

(** [planet_get_vmag]. *)
Definition planet_get_vmag (cat : catalog) (fuel : nat) (planet : nat)
           (obs : observer_t) (obsf : observer_frame_t) : M R :=
  do pl <- get_planet planet;
  match vmag_switch (id pl) with
  | VmagSun => sun_get_vmag fuel planet obs
  | VmagMoon => moon_get_vmag fuel planet obs
  | VmagPlanet =>
    do pvh <- planet_get_pvh fuel planet obs;
    do pvo <- planet_get_pvo fuel planet obs true;
    let n := ((id pl - MERCURY) ÷ 100 + 1)%Z in
    let i := eraSepp (fst pvh) (fst pvo) in
    (* Compute visual magnitude. *)
    let i := i * (DR2D / 100) in
    let rho := vec3_norm (fst pvh) in
    let rp := vec3_norm (fst pvo) in
    match VIS_ELEMENTS !! Z.to_nat n with
    | None => fail
    | Some (_, vis1, vis2, vis3, vis4) =>
      do rings <- rings_vmag fuel planet obs obsf;
      ret (vis1 + 5 * log10 (rho * rp)
           + i * (vis2 + i * (vis3 + i * vis4))
           + rings)
    end
  | VmagDefault =>
    do ph <- get_phys cat planet;
    do pvh <- planet_get_pvh fuel planet obs;
    do pvo <- planet_get_pvo fuel planet obs true;
    let rho := vec3_norm (fst pvh) in
    let rp := vec3_norm (fst pvo) in
    let mag := -1.0 / 0.2 * log10 (sqrt (albedo ph) * 2.0 * radius_m pl
                                   / 1000.0 / 1329.0) in
    ret (mag + 5 * log10 (rho * rp))
  end.

(** [planet_get_info]: the return code and the value written through
    [out], if any. *)
Definition planet_get_info (cat : catalog) (fuel : nat) (planet : nat)
           (obs : observer_t) (obsf : observer_frame_t) (info : info_t)
  : M (Z * option info_value) :=
  match info with
  | INFO_PVO =>
    do pvo4 <- planet_get_pvo4 fuel planet obs;
    ret (0%Z, Some (OutPvo4 pvo4))
  | INFO_VMAG =>
    do vmag <- planet_get_vmag cat fuel planet obs obsf;
    ret (0%Z, Some (OutDouble (Num vmag)))
  | INFO_PHASE =>
    do phase <- planet_get_phase fuel planet obs;
    ret (0%Z, Some (OutDouble phase))
  | INFO_RADIUS =>
    do pl <- get_planet planet;
    do pvo <- planet_get_pvo fuel planet obs true;
    ret (0%Z, Some (OutDouble (Num (radius_m pl / DAU
                                    / vec3_norm (fst pvo)))))
  | INFO_OTHER _ => ret (1%Z, None)
  end.

(** [planet_compute_orbit_elements]: Kepler orbit elements of a planet in
    ICRF, centered on the parent body. *)
Definition planet_compute_orbit_elements (cat : catalog) (fuel : nat)
           (planet : nat) (obs : observer_t)
  : M (R * R * R * R * R * R * R) :=
  let G := 6.674e-11 in
  let SPD := 60 * 60 * 24 in
  do pl <- get_planet planet;
  match parent pl with
  | None => fail
  | Some q =>
    do qh <- get_phys cat q;
    (* mu in (AU)^3 (day)^-2 *)
    let mu := G * mass qh / (DAU * DAU * DAU) * SPD * SPD in
    do parent_pvh <- planet_get_pvh fuel q obs;
    do pvh <- planet_get_pvh fuel planet obs;
    let p := vec3_sub (fst pvh) (fst parent_pvh) in
    let v := vec3_sub (snd pvh) (snd parent_pvh) in
    ret (orbit_elements_from_pv p v mu)
  end.

End Magnitude.

(** [planet_get_rotation]: the rotation of a planet along its axis, in
    radian, at the time [t] (TT, MJD). *)
Definition planet_get_rotation (planet : planet_phys_t) (t : R) : R :=
  if Req_dec_T (rot_period (rot planet)) 0 then 0
  else (t - DJM00) / rot_period (rot planet) * 2 * PI
       + rot_offset (rot planet).

(** ** Reference quantities of the magnitudes *)

(** The magnitude at 1 AU from Sun and Earth and 0 deg phase angle the
    table of visual elements lists under the name of each major planet. *)
Definition base_magnitude (i : Z) : R :=
  if (i =? MERCURY)%Z then -0.36
  else if (i =? VENUS)%Z then -4.29
  else if (i =? MARS)%Z then -1.52
  else if (i =? JUPITER)%Z then -9.25
  else if (i =? SATURN)%Z then -8.88
  else if (i =? URANUS)%Z then -7.19
  else if (i =? NEPTUNE)%Z then -6.87
  else 0.

(** The absolute magnitude of a body of diameter [diameter_km] and of
    geometric albedo [p]: the size-magnitude relation of asteroids,
    [diameter = 1329 km / sqrt p * 10 ^ (- H / 5)], solved for [H]. *)
Definition absolute_magnitude (diameter_km p : R) : R :=
  5 * log10 (1329 / (diameter_km * sqrt p)).

(** A matrix whose rows are unit vectors orthogonal to each other. *)
Definition orthonormal (r : mat3) : Prop :=
  let '(r0, r1, r2) := r in
  vec3_dot r0 r0 = 1 /\ vec3_dot r1 r1 = 1 /\ vec3_dot r2 r2 = 1 /\
  vec3_dot r0 r1 = 0 /\ vec3_dot r0 r2 = 0 /\ vec3_dot r1 r2 = 0.

(** A ring theory whose answers are all zero. *)
Definition flat_rings : SweLib :=
  {| DR2D := 180 / PI;
     mat3_mul_vec3 := eraRxp;
     eraC2s := fun _ => (0, 0);
     satrings := fun _ _ _ _ _ _ => (0, 0);
     orbit_elements_from_pv := fun _ _ _ => (0, 0, 0, 0, 0, 0, 0) |}.

(** A computation that never writes a constant field: whenever it
    returns, the constant fields of every planet are what they were. *)
Definition keeps_constants {A : Type} (m : M A) : Prop :=
  forall (w : world) (a : A) (w' : world),
    m w = Some (a, w') -> map static_part w' = map static_part w.

(** The Moon, a quarter of a hundredth of an astronomical unit from the
    observer in the direction opposite to the Sun, with both caches
    filled for the date 58000 and the fingerprint 1. *)
Definition moon_full : planet_t :=
  mk_planet None 1737400 MOON 1.5 58000 (at_x 1.0025) 1 (at_x 0.0025)
            no_orbit.

(** The Sun and the full Moon. *)
Definition sun_moon_world : world := [sun_fresh; moon_full].

(** Saturn with both caches filled for the date 58000 and the
    fingerprint 1, one astronomical unit from the Sun and from the
    observer, in the same direction. *)
Definition saturn_unit : planet_t :=
  mk_planet None 58232000 SATURN 1.5 58000 (at_x 1) 1 (at_x 1) no_orbit.

(** Mars in the same place. *)
Definition mars_unit : planet_t :=
  mk_planet None 3389500 MARS 1.5 58000 (at_x 1) 1 (at_x 1) no_orbit.

(** A minor body, in the same place again. *)
Definition ceres_unit : planet_t :=
  mk_planet (Some 0%nat) 473000 2000001 1.5 58000 (at_x 1) 1 (at_x 1)
            no_orbit.

Definition no_rot : rot_t := mk_rot 0 0 0 0 0.

(** Constant data: albedo 0.09, unknown mass, no rotation. *)
Definition dark_phys : planet_phys_t := mk_planet_phys 0.09 0 no_rot.

(** An observer frame: identity matrix, UT1 at the date 58000. *)
Definition plain_frame : observer_frame_t := mk_observer_frame eraIr 58000.

(** An ephemeris whose lunar theory puts the Moon at a fixed place, 384400
    kilometres from the Earth, under an obliquity of 0.4 radian. *)
Definition lunar_ephemeris : Ephemeris :=
  {| LIGHT_YEAR_IN_METER := 9460730472580800;
     eraPlan94 := fun _ _ _ => eraZpv;
     l12 := fun _ _ _ => eraZpv;
     orbit_compute_pv := fun _ _ _ _ _ => eraZpv;
     moon_pos := fun _ => (1, 0.05, 384400);
     eraObl06 := fun _ _ => 0.4;
     eraPmat76 := fun _ _ => eraIr |}.

(** A ring theory that answers a tilt of 0.4 radian towards the Earth and
    towards the Sun. *)
Definition tilted_rings : SweLib :=
  {| DR2D := 180 / PI;
     mat3_mul_vec3 := eraRxp;
     eraC2s := fun _ => (0, 0);
     satrings := fun _ _ _ _ _ _ => (0.4, 0.4);
     orbit_elements_from_pv := fun _ _ _ => (0, 0, 0, 0, 0, 0, 0) |}.

(** Constant data of a planet that turns once in 1.03 day. *)
Definition spinning_phys : planet_phys_t :=
  mk_planet_phys 0.15 0 (mk_rot 0.44 1.03 3 0 0).

(** The bodies a heliocentric query on [planet] may visit: the planet,
    then, as long as the position of the body is relative to its parent
    (Galilean moons and bodies on the two-body path), the parent. *)
Fixpoint pvh_chain (w : world) (fuel : nat) (planet : nat) : list nat :=
  match fuel with
  | O => []
  | S fuel' =>
    planet ::
    match w !! planet with
    | None => []
    | Some pl =>
      match pvh_switch (id pl) with
      | CaseL12 | CaseDefault =>
        match parent pl with
        | Some q => pvh_chain w fuel' q
        | None => []
        end
      | _ => []
      end
    end
  end.

(** The relative state [planet_compute_orbit_elements] hands to the orbit
    fit, and the gravitational parameter, for a parent of mass [m]. *)
Definition gravitational_parameter (m : R) : R :=
  6.674e-11 * m / (DAU * DAU * DAU) * (60 * 60 * 24) * (60 * 60 * 24).

(** Jupiter and a minor body in orbit around it, on the two-body path,
    with empty caches. *)
Definition himalia_fresh : planet_t :=
  mk_planet (Some 0%nat) 85000 506 1.5 0 eraZpv 0 eraZpv no_orbit.

Definition himalia_world : world := [jupiter_fresh; himalia_fresh].

(** Constant data of Jupiter: mass in kilogram. *)
Definition jupiter_phys : planet_phys_t :=
  mk_planet_phys 0.5 (1.898 * 10 ^ 27) no_rot.

(** * Modules and their children ([src/module.c])

    Objects live in a heap; a pointer to an object is an index into it and
    [None] is the null pointer.  A run the C program does not survive (a
    dangling pointer, a failed [assert], a null string handed to a string
    routine, a reference count past [INT_MAX]) has no result. *)

(** Modelled from the spec: [INT_MAX] of the C library, for a 32-bit
    [int]. *)
Definition INT_MAX : Z := 2147483647.

(** The fields of [obj_t] the module functions read or write. *)
Record obj_t : Type := mk_obj {
  obj_id : option string;    (* char *id *)
  obj_ref : Z;               (* int ref *)
  obj_parent : option nat;   (* obj_t *parent *)
  obj_children : list nat    (* obj_t *children, head of the list first *)
}.

Abbreviation heap := (list obj_t).

(** [obj->ref++]. *)
Definition take_ref (o : obj_t) : obj_t :=
  mk_obj (obj_id o) (obj_ref o + 1) (obj_parent o) (obj_children o).

(** The loop of [module_get_child] over the children of the module. *)
Fixpoint module_get_child_scan (id : string) (children : list nat)
         (h : heap) : option (option nat * heap) :=
  match children with
  | [] => Some (None, h)
  | ret :: rest =>
    match h !! ret with
    | None => None
    | Some o =>
      if negb (0 <? obj_ref o)%Z then None (* assert(ret->ref > 0) *)
      else
        match obj_id o with
        | Some i =>
          if String.eqb i id then
            if (obj_ref o =? INT_MAX)%Z then None
            else Some (Some ret, alter take_ref ret h)
          else module_get_child_scan id rest h
        | None => module_get_child_scan id rest h
        end
    end
  end.

(** [module_get_child]: the child of a module with the given id, with
    one more reference on it; the null pointer when there is none. *)
Definition module_get_child (module : nat) (id : string) (h : heap)
  : option (option nat * heap) :=
  match h !! module with
  | None => None
  | Some m => module_get_child_scan id (obj_children m) h
  end.

(** Modelled from the spec: [str_startswith (str, s)] of [swe.h], whether
    the string [str] starts with [s]. *)
Definition str_startswith (str s : string) : bool := String.prefix s str.

(** The loop of [planets_get] ([src/modules/planets.c]) over the
    children of the planets module. *)
Fixpoint planets_get_scan (id : string) (children : list nat) (h : heap)
  : option (option nat * heap) :=
  match children with
  | [] => Some (None, h)
  | p :: rest =>
    match h !! p with
    | None => None
    | Some o =>
      match obj_id o with
      | None => None (* strcmp on a null id *)
      | Some i =>
        if String.eqb i id then
          if (obj_ref o =? INT_MAX)%Z then None
          else Some (Some p, alter take_ref p h)
        else planets_get_scan id rest h
      end
    end
  end.

(** [planets_get] ([src/modules/planets.c]). *)
Definition planets_get (obj : nat) (id : string) (h : heap)
  : option (option nat * heap) :=
  if negb (str_startswith id "PLANET") then Some (None, h)
  else
    match h !! obj with
    | None => None
    | Some m => planets_get_scan id (obj_children m) h
    end.

(** What [module_get_path] returns: the null pointer, a newly allocated
    string, or whatever [asprintf] makes of a null string argument. *)
Inductive path_t : Type :=
| PathNull
| PathStr (s : string)
| PathUndefined.

(** [module_get_path]: the path of the object relative to a root object.
    [fuel] bounds the depth of the recursion through [obj->parent]. *)
Fixpoint module_get_path (fuel : nat) (obj root : nat) (h : heap)
  : option path_t :=
  match fuel with
  | O => None
  | S fuel' =>
    match h !! obj with
    | None => None
    | Some o =>
      match obj_parent o, obj_id o with
      | Some p, Some i =>
        if (p =? root)%nat then Some (PathStr i)
        else
          match module_get_path fuel' p root h with
          | None => None
          | Some (PathStr base) => Some (PathStr (base +:+ "." +:+ i))
          | Some _ => Some PathUndefined
          end
      | _, _ => Some PathNull
      end
    end
  end.

Section ListObjs.

(** The objects, and everything the callbacks may read or write (the
    caches of the objects, the user data). *)
Context {obj state : Type}.

(** [obj_get_info (child, obs, INFO_VMAG, &vmag)]: the return code and
    the magnitude written.  The function lives outside the translated
    sources. *)
Variable obj_get_info_vmag : obj -> state -> (Z * double) * state.

(** [isnan]. *)
Definition isnan (d : double) : bool :=
  match d with
  | NAN => true
  | Num _ => false
  end.

(** [a > b] on doubles: false as soon as one side is not a number. *)
Definition double_gt (a b : double) : bool :=
  match a, b with
  | Num x, Num y => if Rgt_dec x y then true else false
  | _, _ => false
  end.

(** The default loop of [module_list_objs] over the children. *)
Fixpoint list_children (test_vmag : bool) (max_mag : double)
         (f : option (obj -> state -> Z * state)) (children : list obj)
         (s : state) : state :=
  match children with
  | [] => s
  | child :: rest =>
    let '(skip, s1) :=
      if test_vmag then
        let '((r, vmag), s1) := obj_get_info_vmag child s in
        ((r =? 0)%Z && double_gt vmag max_mag, s1)
      else (false, s) in
    if skip then list_children test_vmag max_mag f rest s1
    else
      match f with
      | None => list_children test_vmag max_mag f rest s1
      | Some f' =>
        let '(r, s2) := f' child s1 in
        if (r =? 0)%Z then list_children test_vmag max_mag f rest s2
        else s2
      end
  end.

(** [module_list_objs]: list all astro objects in a module.
    [klass_list] is the [list] method of the class of the module applied
    to the arguments of the call, if the class has one; [listable] is the
    flag [OBJ_LISTABLE] of the class. *)
Definition module_list_objs (klass_list : option (state -> Z * state))
           (listable : bool) (children : list obj) (max_mag : double)
           (f : option (obj -> state -> Z * state)) (s : state)
  : Z * state :=
  let test_vmag := negb (isnan max_mag) in
  match klass_list with
  | Some list => list s
  | None =>
    if negb listable then ((-1)%Z, s)
    else
      (* Default for listable modules: list all the children. *)
      (0%Z, list_children test_vmag max_mag f children s)
  end.

End ListObjs.

Section Json.

(** The values of a json object. *)
Context {json_value : Type}.

(** [json_extract_attr]: the value of the first attribute of the object
    named [attr], taken out of the object (its place is left null). *)
Fixpoint json_extract_attr (attr : string)
         (values : list (string * option json_value))
  : option json_value * list (string * option json_value) :=
  match values with
  | [] => (None, [])
  | (name, value) :: rest =>
    if negb (String.eqb attr name) then
      let '(ret, rest') := json_extract_attr attr rest in
      (ret, (name, value) :: rest')
    else (value, (name, None) :: rest)
  end.

End Json.

(** ** Reference notions for the modules *)

(** The children a callback sees: those of a list up to and including
    the first one on which the callback asks to stop. *)
Fixpoint upto_stop {A : Type} (stop : A -> bool) (l : list A) : list A :=
  match l with
  | [] => []
  | x :: l' => if stop x then [x] else x :: upto_stop stop l'
  end.

(** A child is listed unless its magnitude is known and above the
    limit. *)
Definition listed (max_mag : double) (v : Z * double) : bool :=
  negb ((fst v =? 0)%Z && double_gt (snd v) max_mag).

(** The callback that records the children it is given, and stops on
    those for which [code] is not 0. *)
Definition collector {A : Type} (code : A -> Z) (child : A) (log : list A)
  : Z * list A :=
  (code child, log ++ [child]).

(** No child of the list carries the id. *)
Definition none_named (h : heap) (id : string) (children : list nat)
  : Prop :=
  Forall (fun p => exists o, h !! p = Some o /\ obj_id o <> Some id)
         children.

(** [below h root obj ids]: [root] is an ancestor of [obj], and [ids]
    are the ids of the objects on the way down from the child of [root]
    to [obj]. *)
Inductive below (h : heap) (root : nat) : nat -> list string -> Prop :=
| below_child (obj : nat) (o : obj_t) (i : string) :
    h !! obj = Some o -> obj_parent o = Some root -> obj_id o = Some i ->
    below h root obj [i]
| below_step (obj p : nat) (o : obj_t) (i : string) (ids : list string) :
    h !! obj = Some o -> obj_parent o = Some p -> p <> root ->
    obj_id o = Some i -> below h root p ids ->
    below h root obj (ids ++ [i]).

(** A small tree: the core, with an unnamed object and the planets
    module below it, and two planets below the module. *)
Definition tree_heap : heap :=
  [ mk_obj (Some "core") 1 None [3%nat; 1%nat];
    mk_obj (Some "planets") 1 (Some 0%nat) [2%nat; 4%nat];
    mk_obj (Some "SUN") 1 (Some 1%nat) [];
    mk_obj None 1 (Some 0%nat) [];
    mk_obj (Some "MOON") 2 (Some 1%nat) [] ].

(** * Properties *)

(** ** Reasoning about runs *)

Ltac unfold_monad :=
  unfold bind, ret, fail, get_planet, modify_planet in *.

Lemma planet_eq (p q : planet_t) :
  static_part p = static_part q -> pvh_part p = pvh_part q ->
  pvo_part p = pvo_part q -> p = q.
Proof.
  destruct p, q; unfold static_part, pvh_part, pvo_part; simpl.
  intros H1 H2 H3; congruence.
Qed.

Lemma map_alter_same {A B : Type} (f : A -> B) (g : A -> A) (i : nat)
      (l : list A) :
  (forall x, f (g x) = f x) -> map f (alter g i l) = map f l.
Proof.
  intros Hfg; revert i; induction l as [|a l IH]; intros [|i]; cbn;
    try reflexivity.
  - now rewrite Hfg.
  - f_equal. apply IH.
Qed.

Lemma map_lookup_eq {A B : Type} (f : A -> B) (l l' : list A) (i : nat)
      (a : A) :
  map f l' = map f l -> l !! i = Some a ->
  exists a', l' !! i = Some a' /\ f a' = f a.
Proof.
  revert l' i; induction l as [|x l IH]; intros [|x' l'] i Hm Hl;
    simpl in *; try discriminate.
  injection Hm as Hx Hm.
  destruct i as [|i]; simpl in *.
  - injection Hl as ->. eauto.
  - eauto.
Qed.

Lemma map_length_eq {A B : Type} (f : A -> B) (l l' : list A) :
  map f l' = map f l -> length l' = length l.
Proof.
  intros H. rewrite <- (length_map f l'), <- (length_map f l).
  now rewrite H.
Qed.

Section EngineFacts.

Context `{Eph : Ephemeris}.

(** A run of [planet_get_pvh] writes nothing but heliocentric caches. *)
Lemma planet_get_pvh_frame (fuel : nat) :
  forall (planet : nat) (obs : observer_t) (w w' : world) (r : pv_t),
    planet_get_pvh fuel planet obs w = Some (r, w') ->
    map static_part w' = map static_part w /\
    map pvo_part w' = map pvo_part w.
Proof.
  induction fuel as [|fuel IH]; intros planet obs w w' r Hrun;
    simpl in Hrun; unfold_monad; [discriminate|].
  destruct (w !! planet) as [pl|] eqn:Hpl; [|discriminate].
  destruct (pvh_cache_hit pl obs).
  { injection Hrun as _ <-. auto. }
  assert (Hstore : forall (v : pv_t) (w1 : world),
             map static_part w1 = map static_part w ->
             map pvo_part w1 = map pvo_part w ->
             map static_part
                 (alter (set_pvh_cache (eraCpv v) (tt obs)) planet w1)
             = map static_part w /\
             map pvo_part
                 (alter (set_pvh_cache (eraCpv v) (tt obs)) planet w1)
             = map pvo_part w).
  { intros v w1 H1 H2.
    rewrite !map_alter_same by (intros []; reflexivity). auto. }
  destruct (pvh_switch (id pl));
    try (injection Hrun as _ <-; auto; fail).
  - destruct (parent pl) as [q|]; [|discriminate].
    destruct (planet_get_pvh fuel q obs w) as [[ppvh w1]|] eqn:Hq;
      [|discriminate].
    injection Hrun as _ <-. apply IH in Hq as [H1 H2].
    apply Hstore; assumption.
  - destruct (parent pl) as [q|]; [|discriminate].
    destruct (planet_get_pvh fuel q obs w) as [[ppvh w1]|] eqn:Hq;
      [|discriminate].
    injection Hrun as _ <-. apply IH in Hq as [H1 H2].
    apply Hstore; assumption.
Qed.

End EngineFacts.

(** ** Termination of the parent recursion *)

Lemma pvh_resolves_static (fuel : nat) :
  forall (w w' : world) (planet : nat),
    map static_part w' = map static_part w ->
    pvh_resolves w fuel planet = true ->
    pvh_resolves w' fuel planet = true.
Proof.
  induction fuel as [|fuel IH]; intros w w' planet Hst Hres; simpl in *;
    [discriminate|].
  destruct (w !! planet) as [pl|] eqn:Hpl; [|discriminate].
  destruct (map_lookup_eq static_part w w' planet pl Hst Hpl)
    as (pl' & -> & Heq).
  unfold static_part in Heq. injection Heq as Hpar _ Hid _ _.
  rewrite Hid, Hpar.
  destruct (pvh_switch (id pl)); auto;
    destruct (parent pl); try discriminate; eauto.
Qed.

Lemma pvh_resolves_lookup (w : world) (fuel : nat) (planet : nat) :
  pvh_resolves w fuel planet = true ->
  exists pl, w !! planet = Some pl.
Proof.
  destruct fuel; simpl; [discriminate|].
  destruct (w !! planet); [eauto|discriminate].
Qed.

Section Totality.

Context `{Eph : Ephemeris}.

(** With the recursion budget the parent chain needs, [planet_get_pvh]
    returns. *)
Lemma planet_get_pvh_total (fuel : nat) :
  forall (planet : nat) (obs : observer_t) (w : world),
    pvh_resolves w fuel planet = true ->
    exists r w', planet_get_pvh fuel planet obs w = Some (r, w').
Proof.
  induction fuel as [|fuel IH]; intros planet obs w Hres; simpl in *;
    [discriminate|].
  unfold_monad.
  destruct (w !! planet) as [pl|]; [|discriminate].
  destruct (pvh_cache_hit pl obs); [eauto|].
  destruct (pvh_switch (id pl)); eauto;
    destruct (parent pl) as [q|]; try discriminate;
    destruct (IH q obs w Hres) as (r & w1 & ->); eauto.
Qed.

(** A run of [planet_get_pvo] leaves the constant fields alone. *)
Lemma planet_get_pvo_static (fuel : nat) (planet : nat)
      (obs : observer_t) (adjust : bool) (w w' : world) (r : pv_t) :
  planet_get_pvo fuel planet obs adjust w = Some (r, w') ->
  map static_part w' = map static_part w.
Proof.
  unfold planet_get_pvo; unfold_monad. intros Hrun.
  destruct (w !! planet) as [pl|]; [|discriminate].
  destruct (adjust && (hash obs =? pvo_obs_hash pl)%Z).
  { now injection Hrun as _ <-. }
  destruct (planet_get_pvh fuel planet obs w) as [[pvh1 w1]|] eqn:H1;
    [|discriminate].
  apply planet_get_pvh_frame in H1 as [H1 _].
  destruct (negb adjust).
  { now injection Hrun as _ <-. }
  destruct (planet_get_pvh fuel planet _ w1) as [[pvh2 w2]|] eqn:H2;
    [|discriminate].
  apply planet_get_pvh_frame in H2 as [H2 _].
  injection Hrun as _ <-.
  rewrite map_alter_same by (intros []; reflexivity). congruence.
Qed.

(** With the recursion budget the parent chain needs, [planet_get_pvo]
    returns. *)
Lemma planet_get_pvo_total (fuel : nat) (planet : nat)
      (obs : observer_t) (adjust : bool) (w : world) :
  pvh_resolves w fuel planet = true ->
  exists r w', planet_get_pvo fuel planet obs adjust w = Some (r, w').
Proof.
  intros Hres. unfold planet_get_pvo; unfold_monad.
  destruct (pvh_resolves_lookup _ _ _ Hres) as [pl ->].
  destruct (adjust && (hash obs =? pvo_obs_hash pl)%Z); [eauto|].
  destruct (planet_get_pvh_total fuel planet obs w Hres)
    as (pvh1 & w1 & H1).
  rewrite H1. destruct (negb adjust); [eauto|].
  pose proof (planet_get_pvh_frame _ _ _ _ _ _ H1) as [Hst _].
  pose proof (pvh_resolves_static _ _ _ _ Hst Hres) as Hres1.
  destruct (planet_get_pvh_total fuel planet
              (set_tt obs (tt obs - light_time (fst (to_observer obs pvh1))))
              w1 Hres1) as (pvh2 & w2 & H2).
  rewrite H2. eauto.
Qed.

End Totality.

Lemma map_alter_eq {A B : Type} (f : A -> B) (g : A -> A) (i : nat) :
  (forall x y, f x = f y -> f (g x) = f (g y)) ->
  forall l1 l2 : list A,
    map f l1 = map f l2 -> map f (alter g i l1) = map f (alter g i l2).
Proof.
  intros Hfg. induction i as [|i IH]; intros [|a l1] [|b l2] Hm; cbn in *;
    try discriminate; try reflexivity; injection Hm as Hab Hm.
  - f_equal; auto.
  - f_equal; auto.
Qed.

Lemma same_but_pvo_refl (w : world) : same_but_pvo w w.
Proof. split; reflexivity. Qed.

Lemma same_but_pvo_lookup (w1 w2 : world) (i : nat) (p1 : planet_t) :
  same_but_pvo w1 w2 -> w1 !! i = Some p1 ->
  exists p2, w2 !! i = Some p2 /\ static_part p2 = static_part p1 /\
             pvh_part p2 = pvh_part p1.
Proof.
  intros [Hs Hh] Hl.
  destruct (map_lookup_eq static_part w1 w2 i p1 (eq_sym Hs) Hl)
    as (p2 & Hp2 & Hs2).
  destruct (map_lookup_eq pvh_part w1 w2 i p1 (eq_sym Hh) Hl)
    as (p2' & Hp2' & Hh2).
  rewrite Hp2 in Hp2'. injection Hp2' as <-. eauto.
Qed.

Lemma same_but_pvo_alter (w1 w2 : world) (i : nat) (v : pv_t) (t : R) :
  same_but_pvo w1 w2 ->
  same_but_pvo (alter (set_pvh_cache v t) i w1)
               (alter (set_pvh_cache v t) i w2).
Proof.
  intros [Hs Hh]. split.
  - rewrite !map_alter_same by (intros []; reflexivity). exact Hs.
  - apply map_alter_eq; [|exact Hh]. intros [] []; reflexivity.
Qed.

Section Simulation.

Context `{Eph : Ephemeris}.

(** The result of [planet_get_pvh] does not depend on the
    observer-relative caches, and the worlds it leaves differ by no
    more than those caches. *)
Lemma planet_get_pvh_ignores_pvo (fuel : nat) :
  forall (planet : nat) (obs : observer_t) (w1 w2 w1' : world) (r : pv_t),
    same_but_pvo w1 w2 ->
    planet_get_pvh fuel planet obs w1 = Some (r, w1') ->
    exists w2', planet_get_pvh fuel planet obs w2 = Some (r, w2') /\
                same_but_pvo w1' w2'.
Proof.
  induction fuel as [|fuel IH]; intros planet obs w1 w2 w1' r Hsim Hrun;
    simpl in *; unfold_monad; [discriminate|].
  destruct (w1 !! planet) as [p1|] eqn:Hp1; [|discriminate].
  destruct (same_but_pvo_lookup _ _ _ _ Hsim Hp1) as (p2 & -> & Hs & Hh).
  unfold static_part in Hs. injection Hs as Hpar _ Hid Hdelta Horb.
  unfold pvh_part in Hh. injection Hh as Hupd Hpvh.
  assert (Hhit : pvh_cache_hit p2 obs = pvh_cache_hit p1 obs).
  { unfold pvh_cache_hit. now rewrite Hupd, Hdelta. }
  rewrite Hhit, Hupd, Hpvh, Hid, Hpar, Horb.
  destruct (pvh_cache_hit p1 obs).
  { injection Hrun as <- <-. eauto. }
  destruct (pvh_switch (id p1));
    try (injection Hrun as <- <-; eauto; fail).
  - injection Hrun as <- <-. eexists; split; [reflexivity|].
    now apply same_but_pvo_alter.
  - destruct (parent p1) as [q|]; [|discriminate].
    destruct (planet_get_pvh fuel q obs w1) as [[ppvh w1q]|] eqn:Hq;
      [|discriminate].
    destruct (IH _ _ _ _ _ _ Hsim Hq) as (w2q & -> & Hsimq).
    injection Hrun as <- <-. eexists; split; [reflexivity|].
    now apply same_but_pvo_alter.
  - destruct (parent p1) as [q|]; [|discriminate].
    destruct (planet_get_pvh fuel q obs w1) as [[ppvh w1q]|] eqn:Hq;
      [|discriminate].
    destruct (IH _ _ _ _ _ _ Hsim Hq) as (w2q & -> & Hsimq).
    injection Hrun as <- <-. eexists; split; [reflexivity|].
    now apply same_but_pvo_alter.
Qed.

End Simulation.

(** ** The heliocentric cache *)

(** C4, as amended.  When the cache epoch of a body is set to a date
    other than 0 and the query time is strictly within the refresh
    interval ([update_delta_s] seconds, in days) of it, [planet_get_pvh]
    returns the cached position advanced by the cached velocity over the
    elapsed time, returns the cached velocity as it is, and leaves the
    world, caches included, untouched.  The result mentions none of the
    orbital theories.  The epoch 0 is excluded: the code reads it as the
    mark of an empty cache. *)
Theorem planet_get_pvh_cached (Eph : Ephemeris) (fuel : nat)
        (planet : nat) (obs : observer_t) (w : world) (pl : planet_t) :
  w !! planet = Some pl ->
  last_full_update pl <> 0 ->
  Rabs (tt obs - last_full_update pl) < update_delta_s pl / ERFA_DAYSEC ->
  planet_get_pvh (S fuel) planet obs w =
  Some ((vec3_add (fst (last_full_pvh pl))
                  (vec3_mul (tt obs - last_full_update pl)
                            (snd (last_full_pvh pl))),
         snd (last_full_pvh pl)),
        w).
Proof.
  intros Hpl Hset Hdt. simpl. unfold_monad. rewrite Hpl.
  unfold pvh_cache_hit.
  destruct (Req_dec_T (last_full_update pl) 0) as [Heq|_];
    [contradiction|].
  destruct (Rlt_dec _ _) as [_|Hn]; [|contradiction].
  reflexivity.
Qed.

Lemma planet_get_pvh_cached_witness :
  [mars_cached] !! 0%nat = Some mars_cached /\
  last_full_update mars_cached <> 0 /\
  Rabs (tt (observer_at 58000 1) - last_full_update mars_cached)
  < update_delta_s mars_cached / ERFA_DAYSEC /\
  planet_get_pvh (Eph := still_ephemeris) 1 0 (observer_at 58000 1)
                 [mars_cached]
  = Some ((vec3_add (1.5, 0, 0) (vec3_mul (58000 - 58000) (0, 0.01, 0)),
           (0, 0.01, 0)),
          [mars_cached]).
Proof.
  assert (H1 : last_full_update mars_cached <> 0) by (simpl; lra).
  assert (H2 : Rabs (tt (observer_at 58000 1)
                     - last_full_update mars_cached)
               < update_delta_s mars_cached / ERFA_DAYSEC).
  { simpl. unfold ERFA_DAYSEC.
    replace (58000 - 58000) with 0 by lra. rewrite Rabs_R0. lra. }
  repeat split; try assumption.
  exact (planet_get_pvh_cached still_ephemeris 0 0 (observer_at 58000 1)
           [mars_cached] mars_cached eq_refl H1 H2).
Defined.

Lemma pvh_cache_hit_fresh (pl : planet_t) (obs : observer_t) :
  last_full_update pl = 0 -> pvh_cache_hit pl obs = false.
Proof.
  intros H. unfold pvh_cache_hit.
  destruct (Req_dec_T (last_full_update pl) 0); [reflexivity|contradiction].
Qed.

(** C4, as stated, fails on a cache whose epoch has been set to the date
    0.  A query at the date 0 stores the state of Jupiter it computed,
    with the epoch 0.  The next query, 0.00001 day (0.864 s) later and so
    within the refresh interval of 1.5 s, is not answered from that
    state: the theory is evaluated again (the position returned is the
    one of the new date, not the stored one advanced by the stored
    velocity) and the cache is rewritten. *)
Lemma planet_get_pvh_cached_counterexample :
  exists (w1 w2 : world) (pl1 : planet_t) (pvh1 pvh2 : pv_t),
    planet_get_pvh (Eph := drifting_ephemeris) 1 0 (observer_at 0 1)
                   [jupiter_fresh] = Some (pvh1, w1) /\
    w1 !! 0%nat = Some pl1 /\
    last_full_pvh pl1 = pvh1 /\
    last_full_update pl1 = tt (observer_at 0 1) /\
    Rabs (tt (observer_at 0.00001 1) - last_full_update pl1)
    < update_delta_s pl1 / ERFA_DAYSEC /\
    planet_get_pvh (Eph := drifting_ephemeris) 1 0 (observer_at 0.00001 1)
                   w1 = Some (pvh2, w2) /\
    pvh2 <> (vec3_add (fst (last_full_pvh pl1))
                      (vec3_mul (tt (observer_at 0.00001 1)
                                 - last_full_update pl1)
                                (snd (last_full_pvh pl1))),
             snd (last_full_pvh pl1)) /\
    w2 <> w1.
Proof.
  exists [set_pvh_cache (at_x (5 + 0)) 0 jupiter_fresh],
         [set_pvh_cache (at_x (5 + 0.00001)) 0.00001
                        (set_pvh_cache (at_x (5 + 0)) 0 jupiter_fresh)],
         (set_pvh_cache (at_x (5 + 0)) 0 jupiter_fresh),
         (at_x (5 + 0)), (at_x (5 + 0.00001)).
  split.
  { simpl. unfold_monad. simpl.
    rewrite pvh_cache_hit_fresh by reflexivity. reflexivity. }
  split; [reflexivity|].
  split; [reflexivity|].
  split; [reflexivity|].
  split.
  { simpl. unfold ERFA_DAYSEC. rewrite Rabs_pos_eq; lra. }
  split.
  { simpl. unfold_monad. simpl.
    rewrite pvh_cache_hit_fresh by reflexivity. reflexivity. }
  split.
  - simpl. unfold at_x, vec3_add, vec3_mul, Vec.zero, vx, vy. simpl.
    intros H. injection H as H. lra.
  - intros H. injection H as H. lra.
Qed.

Lemma pvh_switch_cases (i : Z) :
  (pvh_switch i = CaseEarth <-> i = EARTH) /\
  (pvh_switch i = CaseSun <-> i = SUN) /\
  (pvh_switch i = CaseMoon <-> i = MOON).
Proof.
  unfold pvh_switch.
  destruct (Z.eqb_spec i EARTH) as [->|He].
  { cbn. repeat split; intros; try discriminate; reflexivity. }
  destruct (Z.eqb_spec i SUN) as [->|Hs].
  { cbn. repeat split; intros; try discriminate; reflexivity. }
  destruct (Z.eqb_spec i MOON) as [->|Hm].
  { cbn. repeat split; intros; try discriminate; reflexivity. }
  repeat split; intros H; try contradiction;
    repeat match type of H with
           | context [if ?b then _ else _] => destruct b
           end; discriminate.
Qed.




(** ** The observer-relative position *)

(** C6.  With light-time adjustment requested and a fingerprint that
    differs from the cached one, [planet_get_pvo] evaluates the
    heliocentric state at the time of the observer, derives the light
    travel time from the norm of the first observer-relative position,
    evaluates the heliocentric state once more at the time of the
    observer minus that delay, and returns this second state translated
    to the observer (plus the barycentric state of the Sun, minus the
    barycentric state of the observer).  Nothing is iterated further; the
    result is stored under the fingerprint of the observer. *)
Theorem planet_get_pvo_light_time (Eph : Ephemeris) (fuel : nat)
        (planet : nat) (obs : observer_t) (w : world) (pl : planet_t) :
  w !! planet = Some pl ->
  hash obs <> pvo_obs_hash pl ->
  pvh_resolves w fuel planet = true ->
  exists (pvh1 pvh2 : pv_t) (w1 w2 : world),
    planet_get_pvh fuel planet obs w = Some (pvh1, w1) /\
    let pvo1 := eraPvmpv (eraPvppv pvh1 (sun_pvb obs)) (obs_pvb obs) in
    let ldt := vec3_norm (fst pvo1) * DAU / LIGHT_YEAR_IN_METER * DJY in
    planet_get_pvh fuel planet (set_tt obs (tt obs - ldt)) w1
    = Some (pvh2, w2) /\
    let pvo2 := eraPvmpv (eraPvppv pvh2 (sun_pvb obs)) (obs_pvb obs) in
    planet_get_pvo fuel planet obs true w
    = Some (pvo2, alter (set_pvo_cache (hash obs) pvo2) planet w2).
Proof.
  intros Hpl Hhash Hres.
  destruct (planet_get_pvh_total fuel planet obs w Hres)
    as (pvh1 & w1 & H1).
  pose proof (planet_get_pvh_frame _ _ _ _ _ _ H1) as [Hst _].
  pose proof (pvh_resolves_static _ _ _ _ Hst Hres) as Hres1.
  destruct (planet_get_pvh_total fuel planet
              (set_tt obs (tt obs - light_time (fst (to_observer obs pvh1))))
              w1 Hres1) as (pvh2 & w2 & H2).
  exists pvh1, pvh2, w1, w2. split; [exact H1|].
  split; [exact H2|].
  unfold planet_get_pvo; unfold_monad. rewrite Hpl.
  apply Z.eqb_neq in Hhash. rewrite Hhash. cbn [andb negb].
  rewrite H1. rewrite H2. reflexivity.
Qed.

Lemma planet_get_pvo_light_time_witness :
  exists (pvh1 pvh2 : pv_t) (w1 w2 : world),
    planet_get_pvh (Eph := still_ephemeris) 1 0 (observer_at 58000 1)
                   [jupiter_fresh] = Some (pvh1, w1) /\
    let pvo1 := eraPvmpv (eraPvppv pvh1 (sun_pvb (observer_at 58000 1)))
                         (obs_pvb (observer_at 58000 1)) in
    let ldt := vec3_norm (fst pvo1) * DAU
               / LIGHT_YEAR_IN_METER (Ephemeris := still_ephemeris) * DJY in
    planet_get_pvh (Eph := still_ephemeris) 1 0
                   (set_tt (observer_at 58000 1) (58000 - ldt)) w1
    = Some (pvh2, w2) /\
    let pvo2 := eraPvmpv (eraPvppv pvh2 (sun_pvb (observer_at 58000 1)))
                         (obs_pvb (observer_at 58000 1)) in
    planet_get_pvo (Eph := still_ephemeris) 1 0 (observer_at 58000 1) true
                   [jupiter_fresh]
    = Some (pvo2, alter (set_pvo_cache 1 pvo2) 0%nat w2).
Proof.
  apply (planet_get_pvo_light_time still_ephemeris 1 0
           (observer_at 58000 1) [jupiter_fresh] jupiter_fresh).
  - reflexivity.
  - discriminate.
  - reflexivity.
Defined.

(** C9.  Without light-time adjustment [planet_get_pvo] does not touch
    the observer-relative cache: it returns whenever the parent chain
    resolves; after any run that returns, the cached fingerprint and the
    cached observer-relative state of every body are what they were, and
    so are the constant fields (only heliocentric caches may differ); and
    the cache is not read either, a world that differs only in these
    fields gives the same result and ends in a world that again differs
    only in these fields. *)
Theorem planet_get_pvo_no_adjust (Eph : Ephemeris) (fuel : nat)
        (planet : nat) (obs : observer_t) (w : world) :
  (pvh_resolves w fuel planet = true ->
   exists r w', planet_get_pvo fuel planet obs false w = Some (r, w')) /\
  (forall (r : pv_t) (w' : world),
      planet_get_pvo fuel planet obs false w = Some (r, w') ->
      map pvo_part w' = map pvo_part w /\
      map static_part w' = map static_part w /\
      forall w2 : world,
        same_but_pvo w w2 ->
        exists w2', planet_get_pvo fuel planet obs false w2 = Some (r, w2')
                    /\ same_but_pvo w' w2').
Proof.
  split; [apply planet_get_pvo_total|].
  intros r w'. unfold planet_get_pvo; unfold_monad.
  destruct (w !! planet) as [pl|] eqn:Hpl; [|discriminate].
  cbn [andb negb].
  destruct (planet_get_pvh fuel planet obs w) as [[pvh w1]|] eqn:H1;
    [|discriminate].
  intros Hrun. injection Hrun as <- <-.
  split; [apply (planet_get_pvh_frame _ _ _ _ _ _ H1)|].
  split; [apply (planet_get_pvh_frame _ _ _ _ _ _ H1)|].
  intros w2 Hsim.
  destruct (same_but_pvo_lookup _ _ _ _ Hsim Hpl) as (p2 & -> & _).
  destruct (planet_get_pvh_ignores_pvo _ _ _ _ _ _ _ Hsim H1)
    as (w2' & -> & Hsim').
  eauto.
Qed.

Lemma planet_get_pvo_no_adjust_witness :
  exists r w',
    planet_get_pvo (Eph := still_ephemeris) 1 0 (observer_at 58000 1)
                   false [jupiter_fresh] = Some (r, w').
Proof.
  apply (planet_get_pvo_no_adjust still_ephemeris 1 0
           (observer_at 58000 1) [jupiter_fresh]).
  reflexivity.
Defined.

(** ** Phase *)

Lemma vec3_cross_opp (a b : vec3) :
  vec3_cross (vec3_mul (-1) a) (vec3_mul (-1) b) = vec3_cross a b.
Proof.
  destruct a as [[a0 a1] a2], b as [[b0 b1] b2].
  unfold vec3_cross, vec3_mul, vx, vy, vz; simpl.
  f_equal; [f_equal|]; ring.
Qed.

Lemma vec3_dot_opp (a b : vec3) :
  vec3_dot (vec3_mul (-1) a) (vec3_mul (-1) b) = vec3_dot a b.
Proof.
  destruct a as [[a0 a1] a2], b as [[b0 b1] b2].
  unfold vec3_dot, vec3_mul, vx, vy, vz; simpl. ring.
Qed.

Lemma eraSepp_opp (a b : vec3) :
  eraSepp (vec3_mul (-1) a) (vec3_mul (-1) b) = eraSepp a b.
Proof.
  unfold eraSepp. now rewrite vec3_cross_opp, vec3_dot_opp.
Qed.

Section Phase.

Context `{Eph : Ephemeris}.

(** What a run of [planet_get_phase] is made of, for a body that is
    neither the Earth nor the Sun. *)
Lemma planet_get_phase_run (fuel : nat) (planet : nat) (obs : observer_t)
      (w : world) (pl : planet_t) :
  w !! planet = Some pl ->
  id pl <> EARTH -> id pl <> SUN ->
  pvh_resolves w fuel planet = true ->
  exists (pvh pvo : pv_t) (w1 w2 : world),
    planet_get_pvh fuel planet obs w = Some (pvh, w1) /\
    planet_get_pvo fuel planet obs true w1 = Some (pvo, w2) /\
    planet_get_phase fuel planet obs w
    = Some (Num (0.5 * cos (eraSepp (fst pvh) (fst pvo)) + 0.5), w2).
Proof.
  intros Hpl HnE HnS Hres.
  destruct (planet_get_pvh_total fuel planet obs w Hres)
    as (pvh & w1 & H1).
  pose proof (planet_get_pvh_frame _ _ _ _ _ _ H1) as [Hst _].
  pose proof (pvh_resolves_static _ _ _ _ Hst Hres) as Hres1.
  destruct (planet_get_pvo_total fuel planet obs true w1 Hres1)
    as (pvo & w2 & H2).
  exists pvh, pvo, w1, w2. repeat split; try assumption.
  unfold planet_get_phase; unfold_monad. rewrite Hpl.
  apply Z.eqb_neq in HnE, HnS. rewrite HnE, HnS. cbn [orb].
  rewrite H1, H2. reflexivity.
Qed.

Lemma planet_get_phase_nan (fuel : nat) (planet : nat) (obs : observer_t)
      (w : world) (pl : planet_t) :
  w !! planet = Some pl ->
  id pl = EARTH \/ id pl = SUN ->
  planet_get_phase fuel planet obs w = Some (NAN, w).
Proof.
  intros Hpl Hid. unfold planet_get_phase; unfold_monad. rewrite Hpl.
  destruct Hid as [-> | ->]; reflexivity.
Qed.

End Phase.

Lemma half_cos_bounds (i : R) : 0 <= 0.5 * cos i + 0.5 <= 1.
Proof. pose proof (COS_bound i). lra. Qed.

(** C10.  For a body that is neither the Earth nor the Sun, and with the
    recursion budget its parent chain needs, [planet_get_phase] returns
    the number [0.5 * cos i + 0.5], where [i] is the phase angle: the
    separation between the heliocentric position and the
    observer-relative (light-time adjusted) position of the body, which
    is the angle at the body between the directions to the Sun and to the
    observer.  The value is the illuminated fraction, in [0, 1]. *)
Theorem planet_get_phase_fraction (Eph : Ephemeris) (fuel : nat)
        (planet : nat) (obs : observer_t) (w : world) (pl : planet_t) :
  w !! planet = Some pl ->
  id pl <> EARTH -> id pl <> SUN ->
  pvh_resolves w fuel planet = true ->
  exists (pvh pvo : pv_t) (w1 w2 : world) (v : R),
    planet_get_pvh fuel planet obs w = Some (pvh, w1) /\
    planet_get_pvo fuel planet obs true w1 = Some (pvo, w2) /\
    planet_get_phase fuel planet obs w = Some (Num v, w2) /\
    v = 0.5 * cos (phase_angle (fst pvh) (fst pvo)) + 0.5 /\
    0 <= v <= 1.
Proof.
  intros Hpl HnE HnS Hres.
  destruct (planet_get_phase_run fuel planet obs w pl Hpl HnE HnS Hres)
    as (pvh & pvo & w1 & w2 & H1 & H2 & H3).
  exists pvh, pvo, w1, w2, (0.5 * cos (eraSepp (fst pvh) (fst pvo)) + 0.5).
  repeat split; try assumption.
  - unfold phase_angle. now rewrite eraSepp_opp.
  - apply half_cos_bounds.
  - apply half_cos_bounds.
Qed.

Lemma planet_get_phase_fraction_witness :
  exists (pvh pvo : pv_t) (w1 w2 : world) (v : R),
    planet_get_pvh (Eph := still_ephemeris) 1 0 (observer_at 58000 1)
                   [mars_opposition] = Some (pvh, w1) /\
    planet_get_pvo (Eph := still_ephemeris) 1 0 (observer_at 58000 1)
                   true w1 = Some (pvo, w2) /\
    planet_get_phase (Eph := still_ephemeris) 1 0 (observer_at 58000 1)
                     [mars_opposition] = Some (Num v, w2) /\
    v = 0.5 * cos (phase_angle (fst pvh) (fst pvo)) + 0.5 /\
    0 <= v <= 1.
Proof.
  apply (planet_get_phase_fraction still_ephemeris 1 0
           (observer_at 58000 1) [mars_opposition] mars_opposition).
  - reflexivity.
  - discriminate.
  - discriminate.
  - reflexivity.
Defined.

Lemma eraSepp_aligned (x y : R) :
  0 < x -> 0 < y -> eraSepp (x, 0, 0) (y, 0, 0) = 0.
Proof.
  intros Hx Hy. unfold eraSepp.
  assert (Hc : vec3_cross (x, 0, 0) (y, 0, 0) = Vec.zero).
  { unfold vec3_cross, Vec.zero, vx, vy, vz; simpl.
    f_equal; [f_equal|]; ring. }
  rewrite Hc.
  assert (Hn : vec3_norm Vec.zero = 0).
  { unfold vec3_norm, vec3_norm2, vec3_dot, Vec.zero, vx, vy, vz; simpl.
    replace (0 * 0 + 0 * 0 + 0 * 0) with 0 by ring. apply sqrt_0. }
  rewrite Hn.
  assert (Hd : vec3_dot (x, 0, 0) (y, 0, 0) = x * y).
  { unfold vec3_dot, vx, vy, vz; simpl. ring. }
  rewrite Hd.
  assert (Hxy : 0 < x * y) by (apply Rmult_lt_0_compat; assumption).
  destruct (Req_dec_T 0 0) as [_|Hne]; [|contradiction].
  destruct (Req_dec_T (x * y) 0) as [Heq|_]; [lra|].
  unfold atan2. destruct (Rlt_dec 0 (x * y)) as [_|Hn']; [|contradiction].
  unfold Rdiv. rewrite Rmult_0_l. apply atan_0.
Qed.

Lemma observer_cache_hit_mars :
  pvh_cache_hit mars_opposition (observer_at 58000 1) = true.
Proof.
  unfold pvh_cache_hit; simpl.
  destruct (Req_dec_T 58000 0) as [H|_]; [lra|].
  replace (58000 - 58000) with 0 by lra. rewrite Rabs_R0.
  unfold ERFA_DAYSEC.
  destruct (Rlt_dec 0 (1.5 / 86400)) as [_|H]; [reflexivity|].
  exfalso. apply H. lra.
Qed.

Lemma mars_opposition_pvh :
  planet_get_pvh (Eph := still_ephemeris) 1 0 (observer_at 58000 1)
                 [mars_opposition]
  = Some (at_x 1.5, [mars_opposition]).
Proof.
  simpl. unfold_monad. simpl. rewrite observer_cache_hit_mars.
  unfold eraPvu, at_x, vec3_add, vec3_mul, Vec.zero, vx, vy, vz; simpl.
  do 3 f_equal. f_equal; [f_equal|]; lra.
Qed.

Lemma mars_opposition_pvo :
  planet_get_pvo (Eph := still_ephemeris) 1 0 (observer_at 58000 1) true
                 [mars_opposition]
  = Some (at_x 0.5, [mars_opposition]).
Proof. reflexivity. Qed.

(** C8, as the code has it.  [planet_get_phase] returns the [NAN]
    sentinel for the Earth and for the Sun, leaving the world alone; for
    any other body whose parent chain resolves it returns a number, which
    is not the phase angle [i] itself but [0.5 * cos i + 0.5]. *)
Theorem planet_get_phase_sentinel (Eph : Ephemeris) (fuel : nat)
        (planet : nat) (obs : observer_t) (w : world) (pl : planet_t) :
  w !! planet = Some pl ->
  (id pl = EARTH \/ id pl = SUN ->
   planet_get_phase fuel planet obs w = Some (NAN, w)) /\
  (id pl <> EARTH -> id pl <> SUN ->
   pvh_resolves w fuel planet = true ->
   exists (pvh pvo : pv_t) (w1 w2 : world),
     planet_get_pvh fuel planet obs w = Some (pvh, w1) /\
     planet_get_pvo fuel planet obs true w1 = Some (pvo, w2) /\
     planet_get_phase fuel planet obs w
     = Some (Num (0.5 * cos (phase_angle (fst pvh) (fst pvo)) + 0.5), w2)).
Proof.
  intros Hpl. split.
  - apply planet_get_phase_nan. exact Hpl.
  - intros HnE HnS Hres.
    destruct (planet_get_phase_run fuel planet obs w pl Hpl HnE HnS Hres)
      as (pvh & pvo & w1 & w2 & H1 & H2 & H3).
    exists pvh, pvo, w1, w2. unfold phase_angle. rewrite eraSepp_opp. auto.
Qed.

Lemma planet_get_phase_sentinel_witness :
  (id sun_fresh = EARTH \/ id sun_fresh = SUN ->
   planet_get_phase (Eph := still_ephemeris) 1 0 (observer_at 58000 1)
                    [sun_fresh] = Some (NAN, [sun_fresh])) /\
  (id sun_fresh <> EARTH -> id sun_fresh <> SUN ->
   pvh_resolves [sun_fresh] 1 0 = true ->
   exists (pvh pvo : pv_t) (w1 w2 : world),
     planet_get_pvh (Eph := still_ephemeris) 1 0 (observer_at 58000 1)
                    [sun_fresh] = Some (pvh, w1) /\
     planet_get_pvo (Eph := still_ephemeris) 1 0 (observer_at 58000 1)
                    true w1 = Some (pvo, w2) /\
     planet_get_phase (Eph := still_ephemeris) 1 0 (observer_at 58000 1)
                      [sun_fresh]
     = Some (Num (0.5 * cos (phase_angle (fst pvh) (fst pvo)) + 0.5), w2)).
Proof.
  apply (planet_get_phase_sentinel still_ephemeris 1 0
           (observer_at 58000 1) [sun_fresh] sun_fresh).
  reflexivity.
Defined.

(** C8, as stated, fails for Mars in opposition: the heliocentric and
    the observer-relative positions are aligned, the phase angle is 0,
    and [planet_get_phase] returns 1. *)
Lemma planet_get_phase_counterexample :
  planet_get_pvh (Eph := still_ephemeris) 1 0 (observer_at 58000 1)
                 [mars_opposition] = Some (at_x 1.5, [mars_opposition]) /\
  planet_get_pvo (Eph := still_ephemeris) 1 0 (observer_at 58000 1) true
                 [mars_opposition] = Some (at_x 0.5, [mars_opposition]) /\
  phase_angle (fst (at_x 1.5)) (fst (at_x 0.5)) = 0 /\
  planet_get_phase (Eph := still_ephemeris) 1 0 (observer_at 58000 1)
                   [mars_opposition] = Some (Num 1, [mars_opposition]) /\
  Num 1 <> Num (phase_angle (fst (at_x 1.5)) (fst (at_x 0.5))).
Proof.
  assert (Hi : phase_angle (fst (at_x 1.5)) (fst (at_x 0.5)) = 0).
  { unfold phase_angle. rewrite eraSepp_opp. simpl.
    apply eraSepp_aligned; lra. }
  split; [exact mars_opposition_pvh|].
  split; [exact mars_opposition_pvo|].
  split; [exact Hi|].
  split.
  - unfold planet_get_phase. unfold_monad.
    change ([mars_opposition] !! 0%nat) with (Some mars_opposition).
    cbn [id mars_opposition Z.eqb MARS EARTH SUN orb Pos.eqb].
    rewrite mars_opposition_pvh, mars_opposition_pvo.
    do 3 f_equal. simpl. rewrite eraSepp_aligned by lra.
    rewrite cos_0. lra.
  - rewrite Hi. intros H. injection H as H. lra.
Qed.

(** ** Magnitude of the Sun *)

Lemma ln_10_pos : 0 < ln 10.
Proof. rewrite <- ln_1. apply ln_increasing; lra. Qed.

Lemma log10_1 : log10 1 = 0.
Proof. unfold log10. rewrite ln_1. lra. Qed.

Lemma log10_le (x y : R) : 0 < x -> x <= y -> log10 x <= log10 y.
Proof.
  intros Hx Hxy. unfold log10.
  apply Rmult_le_compat_r.
  - left. apply Rinv_0_lt_compat, ln_10_pos.
  - destruct Hxy as [Hlt | ->]; [left|right; reflexivity].
    now apply ln_increasing.
Qed.

Lemma log10_inv (x : R) : 0 < x -> log10 (1 / x) = - log10 x.
Proof.
  intros Hx. unfold log10.
  replace (1 / x) with (/ x) by (field; lra).
  rewrite ln_Rinv by assumption. field.
  apply Rgt_not_eq, ln_10_pos.
Qed.

(** Turn the [INR] of literals in [H] into real literals. *)
Ltac inr_literals H :=
  repeat match type of H with
         | context [INR ?n] =>
           let z := eval vm_compute in (Z.of_nat n) in
           replace (INR n) with (IZR z) in H
             by (rewrite INR_IZR_INZ; reflexivity)
         end.

(** Bounds on a decimal logarithm from a comparison of powers:
    [x ^ q * 10 ^ a < 10 ^ b] gives [q * log10 x + a < b]. *)
Lemma log10_pow_upper (x : R) (q a b : nat) :
  0 < x -> x ^ q * 10 ^ a < 10 ^ b ->
  INR q * log10 x + INR a < INR b.
Proof.
  intros Hx Hlt.
  assert (H10 : 0 < 10) by lra.
  pose proof ln_10_pos as Hl.
  apply ln_increasing in Hlt.
  2:{ apply Rmult_lt_0_compat; apply pow_lt; assumption. }
  rewrite ln_mult, !ln_pow in Hlt by (try apply pow_lt; assumption).
  unfold log10.
  apply (Rmult_lt_reg_r (ln 10)); [assumption|].
  replace ((INR q * (ln x / ln 10) + INR a) * ln 10)
    with (INR q * ln x + INR a * ln 10) by (field; lra).
  exact Hlt.
Qed.


(** Eight decimals of pi, from the Machin-like series of the standard
    library. *)
Lemma PI_upper : PI < 3.14159266.
Proof.
  pose proof (PI_2_3_7_ineq 5) as [_ H].
  unfold sum_f_R0, tg_alt, PI_2_3_7_tg, Ratan_seq in H.
  simpl in H. lra.
Qed.

Lemma PI_lower : 3.14159265 < PI.
Proof.
  pose proof (PI_2_3_7_ineq 5) as [H _].
  unfold sum_f_R0, tg_alt, PI_2_3_7_tg, Ratan_seq in H.
  simpl in H. lra.
Qed.



Lemma ratio_pow_lt (a b : Z) (q m n : nat) :
  (0 < b)%Z ->
  (a ^ Z.of_nat q * 10 ^ Z.of_nat m < 10 ^ Z.of_nat n * b ^ Z.of_nat q)%Z ->
  (IZR a / IZR b) ^ q * 10 ^ m < 10 ^ n.
Proof.
  intros Hb H. apply IZR_lt in H.
  rewrite !mult_IZR, <- !pow_IZR in H.
  assert (HB : 0 < IZR b ^ q) by (apply pow_lt, IZR_lt; assumption).
  unfold Rdiv. rewrite Rpow_mult_distr, pow_inv.
  apply (Rmult_lt_reg_r (IZR b ^ q)); [assumption|].
  replace (IZR a ^ q * / IZR b ^ q * 10 ^ m * IZR b ^ q)
    with (IZR a ^ q * 10 ^ m) by (field; lra).
  exact H.
Qed.





(** ** The lens of two crossing disks *)

Lemma derivable_pt_lim_value (f : R -> R) (x l l' : R) :
  l = l' -> derivable_pt_lim f x l -> derivable_pt_lim f x l'.
Proof. intros ->. auto. Qed.

Lemma one_minus_sq_deriv (u : R) :
  derivable_pt_lim (fun t => 1 - t * t) u (- 2 * u).
Proof.
  apply (derivable_pt_lim_value _ _ (0 - (1 * u + u * 1))); [ring|].
  apply (derivable_pt_lim_minus (fct_cte 1) (Ranalysis1.id * Ranalysis1.id)%F).
  - apply derivable_pt_lim_const.
  - apply (derivable_pt_lim_mult Ranalysis1.id Ranalysis1.id);
      apply derivable_pt_lim_id.
Qed.

Lemma sqrt_one_minus_sq_deriv (u : R) :
  -1 < u < 1 ->
  derivable_pt_lim (fun t => sqrt (1 - t * t)) u (- u / sqrt (1 - u * u)).
Proof.
  intros Hu.
  assert (Hpos : 0 < 1 - u * u) by nra.
  assert (Hs : 0 < sqrt (1 - u * u)) by (apply sqrt_lt_R0; assumption).
  apply (derivable_pt_lim_value _ _ (/ (2 * sqrt (1 - u * u)) * (- 2 * u))).
  { field. lra. }
  apply (derivable_pt_lim_comp (fun t => 1 - t * t) sqrt).
  - apply one_minus_sq_deriv.
  - apply derivable_pt_lim_sqrt. assumption.
Qed.

Lemma acos_deriv (u : R) :
  -1 < u < 1 -> derivable_pt_lim acos u (- 1 / sqrt (1 - u * u)).
Proof.
  intros Hu.
  pose proof (derive_pt_acos u Hu) as H.
  apply derive_pt_eq_1 in H. unfold Rsqr in H. exact H.
Qed.

Lemma segment_deriv (u : R) :
  -1 < u < 1 -> derivable_pt_lim segment u (- 2 * sqrt (1 - u * u)).
Proof.
  intros Hu.
  assert (Hpos : 0 < 1 - u * u) by nra.
  assert (Hs : 0 < sqrt (1 - u * u)) by (apply sqrt_lt_R0; assumption).
  assert (Hss : sqrt (1 - u * u) * sqrt (1 - u * u) = 1 - u * u)
    by (apply sqrt_sqrt; lra).
  apply (derivable_pt_lim_value _ _
           (- 1 / sqrt (1 - u * u)
            - (1 * sqrt (1 - u * u) + u * (- u / sqrt (1 - u * u))))).
  { set (s := sqrt (1 - u * u)) in *.
    apply (Rmult_eq_reg_r s); [|lra].
    replace ((-1 / s - (1 * s + u * (- u / s))) * s)
      with (- 1 - s * s + u * u) by (field; lra).
    rewrite Hss. ring_simplify. replace (s ^ 2) with (s * s) by ring.
    rewrite Hss. ring. }
  apply (derivable_pt_lim_minus acos (fun t => t * sqrt (1 - t * t))).
  - apply acos_deriv; assumption.
  - apply (derivable_pt_lim_mult Ranalysis1.id (fun t => sqrt (1 - t * t))).
    + apply derivable_pt_lim_id.
    + apply sqrt_one_minus_sq_deriv; assumption.
Qed.

Lemma segment_acos (u : R) :
  -1 <= u <= 1 -> acos u - sin (2 * acos u) / 2 = segment u.
Proof.
  intros Hu. unfold segment. rewrite sin_2a, sin_acos, cos_acos by assumption.
  unfold Rsqr. field.
Qed.

(** In the crossing configuration the chord lies strictly inside both
    circles: the arguments of both [acos] are strictly inside (-1, 1),
    within the domain of the C function. *)
Lemma crossing_chord (ra rb d : R) :
  0 < ra -> 0 < rb -> crossing ra rb d ->
  0 < d /\ - ra < chord_x ra rb d < ra /\ - rb < d - chord_x ra rb d < rb.
Proof.
  intros Hra Hrb (H1 & H2 & H3).
  assert (Hd : 0 < d) by lra.
  assert (Hx : chord_x ra rb d * (2 * d) = ra * ra + d * d - rb * rb).
  { unfold chord_x. field. lra. }
  split; [assumption|]. split; split.
  - apply (Rmult_lt_reg_r (2 * d)); [lra|]. rewrite Hx. nra.
  - apply (Rmult_lt_reg_r (2 * d)); [lra|]. rewrite Hx. nra.
  - apply (Rmult_lt_reg_r (2 * d)); [lra|].
    replace ((d - chord_x ra rb d) * (2 * d))
      with (2 * d * d - chord_x ra rb d * (2 * d)) by ring.
    rewrite Hx. nra.
  - apply (Rmult_lt_reg_r (2 * d)); [lra|].
    replace ((d - chord_x ra rb d) * (2 * d))
      with (2 * d * d - chord_x ra rb d * (2 * d)) by ring.
    rewrite Hx. nra.
Qed.

Lemma ratio_bounds (x r : R) : 0 < r -> - r < x < r -> -1 < x / r < 1.
Proof.
  intros Hr [H1 H2]. split.
  - apply (Rmult_lt_reg_r r); [assumption|].
    replace (x / r * r) with x by (field; lra). lra.
  - apply (Rmult_lt_reg_r r); [assumption|].
    replace (x / r * r) with x by (field; lra). lra.
Qed.

Lemma lens_area_segments (ra rb d : R) :
  0 < ra -> 0 < rb -> crossing ra rb d ->
  lens_area ra rb d
  = ra * ra * segment (chord_x ra rb d / ra)
    + rb * rb * segment ((d - chord_x ra rb d) / rb).
Proof.
  intros Hra Hrb Hc.
  destruct (crossing_chord ra rb d Hra Hrb Hc) as (Hd & Hx & Hy).
  pose proof (ratio_bounds _ _ Hra Hx) as Hu.
  pose proof (ratio_bounds _ _ Hrb Hy) as Hv.
  unfold lens_area. cbv zeta. fold (chord_x ra rb d).
  rewrite !segment_acos by lra. reflexivity.
Qed.

Lemma chord_x_deriv (ra rb d : R) :
  d <> 0 ->
  derivable_pt_lim (chord_x ra rb) d
                   ((d * d - ra * ra + rb * rb) / (2 * (d * d))).
Proof.
  intros Hd.
  apply (derivable_pt_lim_value _ _
           (((0 + (1 * d + d * 1) - 0) * (2 * d)
             - (2 * 1) * (ra * ra + d * d - rb * rb))
            / Rsqr (2 * d))).
  { unfold Rsqr. field. lra. }
  apply (derivable_pt_lim_div (fun t => ra * ra + t * t - rb * rb)
                              (fun t => 2 * t)).
  - apply (derivable_pt_lim_minus (fun t => ra * ra + t * t)
                                  (fct_cte (rb * rb))).
    + apply (derivable_pt_lim_plus (fct_cte (ra * ra)) (fun t => t * t)).
      * apply derivable_pt_lim_const.
      * apply (derivable_pt_lim_mult Ranalysis1.id Ranalysis1.id);
          apply derivable_pt_lim_id.
    + apply derivable_pt_lim_const.
  - apply (derivable_pt_lim_scal Ranalysis1.id 2). apply derivable_pt_lim_id.
  - lra.
Qed.

Lemma scaled_deriv (f : R -> R) (k x l : R) :
  derivable_pt_lim f x l -> derivable_pt_lim (fun t => f t / k) x (l / k).
Proof.
  intros H.
  apply (derivable_pt_lim_value _ _ (/ k * l)); [unfold Rdiv; ring|].
  apply (derivable_pt_lim_ext (fun t => / k * f t)).
  { intros z. unfold Rdiv. ring. }
  apply (derivable_pt_lim_scal f (/ k)). exact H.
Qed.

Lemma half_chord_nonneg (ra rb d : R) : 0 < ra -> 0 <= half_chord ra rb d.
Proof.
  intros Hra. unfold half_chord.
  apply Rmult_le_pos; [lra|apply sqrt_pos].
Qed.

(** Seen from the second centre the half chord is the same. *)
Lemma half_chord_sym (ra rb d : R) :
  0 < ra -> 0 < rb -> crossing ra rb d ->
  rb * sqrt (1 - (d - chord_x ra rb d) / rb * ((d - chord_x ra rb d) / rb))
  = half_chord ra rb d.
Proof.
  intros Hra Hrb Hc.
  destruct (crossing_chord ra rb d Hra Hrb Hc) as (Hd & Hx & Hy).
  pose proof (ratio_bounds _ _ Hra Hx) as Hu.
  pose proof (ratio_bounds _ _ Hrb Hy) as Hv.
  unfold half_chord.
  set (x := chord_x ra rb d) in *.
  assert (Hxd : x * (2 * d) = ra * ra + d * d - rb * rb).
  { unfold x, chord_x. field. lra. }
  apply Rsqr_inj.
  - apply Rmult_le_pos; [lra|apply sqrt_pos].
  - apply Rmult_le_pos; [lra|apply sqrt_pos].
  - unfold Rsqr.
    replace (rb * sqrt (1 - (d - x) / rb * ((d - x) / rb))
             * (rb * sqrt (1 - (d - x) / rb * ((d - x) / rb))))
      with (rb * rb * (sqrt (1 - (d - x) / rb * ((d - x) / rb))
                       * sqrt (1 - (d - x) / rb * ((d - x) / rb))))
      by ring.
    replace (ra * sqrt (1 - x / ra * (x / ra))
             * (ra * sqrt (1 - x / ra * (x / ra))))
      with (ra * ra * (sqrt (1 - x / ra * (x / ra))
                       * sqrt (1 - x / ra * (x / ra)))) by ring.
    rewrite !sqrt_sqrt by nra.
    field_simplify; [|lra|lra]. nra.
Qed.

Lemma lens_area_deriv (ra rb d : R) :
  0 < ra -> 0 < rb -> crossing ra rb d ->
  derivable_pt_lim (lens_area ra rb) d (- 2 * half_chord ra rb d).
Proof.
  intros Hra Hrb Hc.
  destruct (crossing_chord ra rb d Hra Hrb Hc) as (Hd & Hx & Hy).
  pose proof (ratio_bounds _ _ Hra Hx) as Hu.
  pose proof (ratio_bounds _ _ Hrb Hy) as Hv.
  set (lo := Rmax (ra - rb) (rb - ra)).
  assert (Hlo : lo < d < ra + rb).
  { destruct Hc as (H1 & H2 & H3). unfold lo, Rmax.
    destruct (Rle_dec (ra - rb) (rb - ra)); lra. }
  apply (derivable_pt_lim_locally_ext
           (fun t => ra * ra * segment (chord_x ra rb t / ra)
                     + rb * rb * segment ((t - chord_x ra rb t) / rb))
           (lens_area ra rb) d lo (ra + rb)); [exact Hlo| |].
  { intros z Hz. symmetry. apply lens_area_segments; try assumption.
    unfold lo, Rmax in Hz. unfold crossing.
    destruct (Rle_dec (ra - rb) (rb - ra)); lra. }
  set (x' := (d * d - ra * ra + rb * rb) / (2 * (d * d))).
  pose proof (chord_x_deriv ra rb d (Rgt_not_eq _ _ Hd)) as Hdx.
  fold x' in Hdx.
  assert (Hdu : derivable_pt_lim (fun t => chord_x ra rb t / ra) d (x' / ra))
    by (apply scaled_deriv; exact Hdx).
  assert (Hdv : derivable_pt_lim (fun t => (t - chord_x ra rb t) / rb) d
                                 ((1 - x') / rb)).
  { apply (scaled_deriv (fun t => t - chord_x ra rb t)).
    apply (derivable_pt_lim_minus Ranalysis1.id (chord_x ra rb));
      [apply derivable_pt_lim_id|exact Hdx]. }
  pose proof (half_chord_sym ra rb d Hra Hrb Hc) as Hsym.
  unfold half_chord in *.
  set (u := chord_x ra rb d / ra) in *.
  set (v := (d - chord_x ra rb d) / rb) in *.
  apply (derivable_pt_lim_value _ _
           (ra * ra * (- 2 * sqrt (1 - u * u) * (x' / ra))
            + rb * rb * (- 2 * sqrt (1 - v * v) * ((1 - x') / rb)))).
  { replace (ra * ra * (- 2 * sqrt (1 - u * u) * (x' / ra)))
      with (- 2 * (ra * sqrt (1 - u * u)) * x') by (field; lra).
    replace (rb * rb * (- 2 * sqrt (1 - v * v) * ((1 - x') / rb)))
      with (- 2 * (rb * sqrt (1 - v * v)) * (1 - x')) by (field; lra).
    rewrite Hsym. ring. }
  apply (derivable_pt_lim_plus
           (fun t => ra * ra * segment (chord_x ra rb t / ra))
           (fun t => rb * rb * segment ((t - chord_x ra rb t) / rb))).
  - apply (derivable_pt_lim_scal
             (fun t => segment (chord_x ra rb t / ra)) (ra * ra)).
    apply (derivable_pt_lim_comp (fun t => chord_x ra rb t / ra) segment).
    + exact Hdu.
    + apply segment_deriv. exact Hu.
  - apply (derivable_pt_lim_scal
             (fun t => segment ((t - chord_x ra rb t) / rb)) (rb * rb)).
    apply (derivable_pt_lim_comp (fun t => (t - chord_x ra rb t) / rb)
                                 segment).
    + exact Hdv.
    + apply segment_deriv. exact Hv.
Qed.

(** The lens shrinks as the circles move apart. *)
Lemma lens_area_decreasing (ra rb d1 d2 : R) :
  0 < ra -> 0 < rb -> crossing ra rb d1 -> crossing ra rb d2 ->
  d1 <= d2 -> lens_area ra rb d2 <= lens_area ra rb d1.
Proof.
  intros Hra Hrb Hc1 Hc2 [Hlt | ->]; [|lra].
  destruct (MVT_cor2 (lens_area ra rb)
                     (fun c => - 2 * half_chord ra rb c) d1 d2 Hlt)
    as (c & Hc & Hcin).
  { intros c Hcin. apply lens_area_deriv; try assumption.
    unfold crossing in *. lra. }
  pose proof (half_chord_nonneg ra rb c Hra).
  assert (- 2 * half_chord ra rb c * (d2 - d1) <= 0) by nra.
  lra.
Qed.

(** ** A segment against its chord *)

Lemma angle_segment_acos (u : R) :
  -1 <= u <= 1 -> segment u = angle_segment (acos u).
Proof.
  intros Hu. unfold segment, angle_segment.
  rewrite sin_acos, cos_acos by assumption. unfold Rsqr. ring.
Qed.

Lemma angle_segment_supplement (t : R) :
  angle_segment (PI - t) = PI - angle_segment t.
Proof.
  unfold angle_segment. rewrite sin_PI_x.
  replace (PI - t) with (- t + PI) at 2 by ring.
  rewrite neg_cos, cos_neg. ring.
Qed.

Lemma sin_minus_x_cos_deriv (t : R) :
  derivable_pt_lim (fun x => sin x - x * cos x) t (t * sin t).
Proof.
  apply (derivable_pt_lim_value _ _
           (cos t - (1 * cos t + t * (- sin t)))); [ring|].
  apply (derivable_pt_lim_minus sin (fun x => x * cos x)).
  - apply derivable_pt_lim_sin.
  - apply (derivable_pt_lim_mult Ranalysis1.id cos).
    + apply derivable_pt_lim_id.
    + apply derivable_pt_lim_cos.
Qed.

Lemma sin_ge_x_cos (t : R) : 0 <= t <= PI -> t * cos t <= sin t.
Proof.
  intros [[H0 | <-] HPI].
  2:{ rewrite sin_0. lra. }
  destruct (MVT_cor2 (fun x => sin x - x * cos x) (fun x => x * sin x)
                     0 t H0) as (c & Hc & Hcin).
  { intros c _. apply sin_minus_x_cos_deriv. }
  rewrite sin_0, cos_0 in Hc.
  assert (0 <= sin c) by (apply sin_ge_0; lra).
  assert (0 <= c * sin c * (t - 0)) by (apply Rmult_le_pos; nra).
  lra.
Qed.

Lemma angle_segment_deriv (t : R) :
  derivable_pt_lim angle_segment t (2 * (sin t * sin t)).
Proof.
  apply (derivable_pt_lim_value _ _
           (1 - (cos t * cos t + sin t * (- sin t)))).
  { pose proof (sin2_cos2 t) as H. unfold Rsqr in H. lra. }
  apply (derivable_pt_lim_minus Ranalysis1.id (fun x => sin x * cos x)).
  - apply derivable_pt_lim_id.
  - apply (derivable_pt_lim_mult sin cos).
    + apply derivable_pt_lim_sin.
    + apply derivable_pt_lim_cos.
Qed.

Lemma segment_ratio_deriv (t : R) :
  0 < t < PI ->
  derivable_pt_lim segment_ratio t
                   (2 * (sin t - t * cos t) / (sin t * sin t * sin t)).
Proof.
  intros [H0 HPI].
  pose proof (sin_gt_0 t H0 HPI) as Hs.
  apply (derivable_pt_lim_value _ _
           ((2 * (sin t * sin t) * (sin t * sin t)
             - (cos t * sin t + sin t * cos t) * angle_segment t)
            / Rsqr (sin t * sin t))).
  { unfold Rsqr, angle_segment.
    pose proof (sin2_cos2 t) as H. unfold Rsqr in H.
    assert (Hc : cos t * cos t = 1 - sin t * sin t) by lra.
    set (s := sin t) in *. set (c := cos t) in *.
    replace (2 * (s * s) * (s * s) - (c * s + s * c) * (t - s * c))
      with (2 * (s * s) * (s * s) - 2 * c * s * t + 2 * (s * s) * (c * c))
      by ring.
    rewrite Hc. field. lra. }
  apply (derivable_pt_lim_div angle_segment (fun x => sin x * sin x)).
  - apply angle_segment_deriv.
  - apply (derivable_pt_lim_mult sin sin); apply derivable_pt_lim_sin.
  - apply Rgt_not_eq. nra.
Qed.

Lemma segment_ratio_increasing (a b : R) :
  0 < a -> a <= b -> b < PI -> segment_ratio a <= segment_ratio b.
Proof.
  intros Ha [Hab | ->] Hb; [|lra].
  destruct (MVT_cor2 segment_ratio
              (fun t => 2 * (sin t - t * cos t) / (sin t * sin t * sin t))
              a b Hab) as (c & Hc & Hcin).
  { intros c Hcin. apply segment_ratio_deriv. lra. }
  assert (Hs : 0 < sin c) by (apply sin_gt_0; lra).
  assert (Hp : 0 <= sin c - c * cos c).
  { pose proof (sin_ge_x_cos c). lra. }
  assert (0 <= 2 * (sin c - c * cos c) / (sin c * sin c * sin c)).
  { apply Rmult_le_pos; [lra|]. left. apply Rinv_0_lt_compat.
    repeat apply Rmult_lt_0_compat; assumption. }
  assert (0 <= 2 * (sin c - c * cos c) / (sin c * sin c * sin c) * (b - a))
    by (apply Rmult_le_pos; lra).
  lra.
Qed.

(** The power of the chord: both circles see the same half chord. *)
Lemma chord_power (ra rb d : R) :
  d <> 0 ->
  ra * ra - chord_x ra rb d * chord_x ra rb d
  = rb * rb - (d - chord_x ra rb d) * (d - chord_x ra rb d).
Proof.
  intros Hd.
  assert (Hx : chord_x ra rb d * (2 * d) = ra * ra + d * d - rb * rb).
  { unfold chord_x. field. assumption. }
  set (x := chord_x ra rb d) in *. lra.
Qed.

(** The two angles at the centres are two angles of a triangle. *)
Lemma chord_cosines (ra rb d : R) :
  0 < ra -> 0 < rb -> crossing ra rb d ->
  0 <= chord_x ra rb d / ra + (d - chord_x ra rb d) / rb.
Proof.
  intros Hra Hrb Hc.
  destruct (crossing_chord ra rb d Hra Hrb Hc) as (Hd & Hx & Hy).
  pose proof (chord_power ra rb d (Rgt_not_eq _ _ Hd)) as Hp.
  set (x := chord_x ra rb d) in *. set (y := d - x) in *.
  assert (Hxy : 0 < x + y) by (unfold y; lra).
  assert (Hgoal : 0 <= x * rb + y * ra).
  { destruct (Rle_dec 0 x) as [Hx0|Hx0], (Rle_dec 0 y) as [Hy0|Hy0].
    - apply Rplus_le_le_0_compat; apply Rmult_le_pos; lra.
    - (* y < 0 < x *)
      assert (Hsq : (- y * ra) * (- y * ra) <= (x * rb) * (x * rb)).
      { assert (0 <= (x * x - y * y) * (ra * ra - x * x)).
        { apply Rmult_le_pos; nra. }
        nra. }
      assert (- y * ra <= x * rb).
      { apply Rsqr_incr_0; unfold Rsqr; try nra. }
      lra.
    - (* x < 0 < y *)
      assert (Hsq : (- x * rb) * (- x * rb) <= (y * ra) * (y * ra)).
      { assert (0 <= (y * y - x * x) * (rb * rb - y * y)).
        { apply Rmult_le_pos; nra. }
        nra. }
      assert (- x * rb <= y * ra).
      { apply Rsqr_incr_0; unfold Rsqr; try nra. }
      lra.
    - lra. }
  replace (x / ra + y / rb) with ((x * rb + y * ra) / (ra * rb))
    by (field; lra).
  apply Rmult_le_pos; [assumption|].
  left. apply Rinv_0_lt_compat. nra.
Qed.

(** The lens is inside the second disk. *)
Lemma lens_area_le_disk_r (ra rb d : R) :
  0 < ra -> 0 < rb -> crossing ra rb d ->
  lens_area ra rb d <= PI * (rb * rb).
Proof.
  intros Hra Hrb Hc.
  destruct (crossing_chord ra rb d Hra Hrb Hc) as (Hd & Hx & Hy).
  pose proof (ratio_bounds _ _ Hra Hx) as Hu.
  pose proof (ratio_bounds _ _ Hrb Hy) as Hv.
  pose proof (chord_cosines ra rb d Hra Hrb Hc) as Hsum.
  pose proof (chord_power ra rb d (Rgt_not_eq _ _ Hd)) as Hp.
  rewrite (lens_area_segments ra rb d Hra Hrb Hc).
  set (u := chord_x ra rb d / ra) in *.
  set (v := (d - chord_x ra rb d) / rb) in *.
  rewrite !angle_segment_acos by lra.
  pose proof (acos_bound_lt u Hu) as Ha.
  pose proof (acos_bound_lt v Hv) as Hb.
  set (a := acos u) in *. set (b := acos v) in *.
  assert (Hcosa : cos a = u) by (apply cos_acos; lra).
  assert (Hcosb : cos b = v) by (apply cos_acos; lra).
  assert (Hag : a <= PI - b).
  { apply cos_decr_0; try lra.
    replace (PI - b) with (- b + PI) by ring.
    rewrite neg_cos, cos_neg. lra. }
  pose proof (segment_ratio_increasing a (PI - b)) as Hinc.
  assert (Hratio : segment_ratio a <= segment_ratio (PI - b))
    by (apply Hinc; lra).
  unfold segment_ratio in Hratio.
  rewrite angle_segment_supplement, sin_PI_x in Hratio.
  assert (Hsa : 0 < sin a) by (apply sin_gt_0; lra).
  assert (Hsb : 0 < sin b) by (apply sin_gt_0; lra).
  assert (Hsin2a : sin a * sin a = 1 - u * u).
  { pose proof (sin2_cos2 a) as H. unfold Rsqr in H. rewrite Hcosa in H.
    lra. }
  assert (Hsin2b : sin b * sin b = 1 - v * v).
  { pose proof (sin2_cos2 b) as H. unfold Rsqr in H. rewrite Hcosb in H.
    lra. }
  assert (Hh : ra * ra * (sin a * sin a) = rb * rb * (sin b * sin b)).
  { rewrite Hsin2a, Hsin2b. unfold u, v.
    replace (ra * ra * (1 - chord_x ra rb d / ra * (chord_x ra rb d / ra)))
      with (ra * ra - chord_x ra rb d * chord_x ra rb d) by (field; lra).
    replace (rb * rb * (1 - (d - chord_x ra rb d) / rb
                            * ((d - chord_x ra rb d) / rb)))
      with (rb * rb - (d - chord_x ra rb d) * (d - chord_x ra rb d))
      by (field; lra).
    exact Hp. }
  assert (Hmain : ra * ra * angle_segment a
                  <= rb * rb * (PI - angle_segment b)).
  { replace (ra * ra * angle_segment a)
      with (ra * ra * (sin a * sin a)
            * (angle_segment a / (sin a * sin a))) by (field; lra).
    replace (rb * rb * (PI - angle_segment b))
      with (rb * rb * (sin b * sin b)
            * ((PI - angle_segment b) / (sin b * sin b))) by (field; lra).
    rewrite Hh. apply Rmult_le_compat_l; [|exact Hratio].
    apply Rmult_le_pos; nra. }
  lra.
Qed.

Lemma chord_x_swap (ra rb d : R) :
  d <> 0 -> chord_x rb ra d = d - chord_x ra rb d.
Proof. intros Hd. unfold chord_x. field. assumption. Qed.

Lemma crossing_swap (ra rb d : R) : crossing ra rb d -> crossing rb ra d.
Proof. unfold crossing. lra. Qed.

Lemma lens_area_swap (ra rb d : R) :
  0 < ra -> 0 < rb -> crossing ra rb d ->
  lens_area rb ra d = lens_area ra rb d.
Proof.
  intros Hra Hrb Hc.
  destruct (crossing_chord ra rb d Hra Hrb Hc) as (Hd & _).
  rewrite (lens_area_segments ra rb d Hra Hrb Hc).
  rewrite (lens_area_segments rb ra d Hrb Hra (crossing_swap _ _ _ Hc)).
  rewrite (chord_x_swap ra rb d) by lra.
  replace (d - (d - chord_x ra rb d)) with (chord_x ra rb d) by ring.
  ring.
Qed.

(** The lens is inside the first disk. *)
Lemma lens_area_le_disk_l (ra rb d : R) :
  0 < ra -> 0 < rb -> crossing ra rb d ->
  lens_area ra rb d <= PI * (ra * ra).
Proof.
  intros Hra Hrb Hc.
  rewrite <- (lens_area_swap ra rb d Hra Hrb Hc).
  apply lens_area_le_disk_r; try assumption. now apply crossing_swap.
Qed.

(** ** Eclipse factor *)

Lemma shadow_factor_outside (sun_r sph_r sep : R) :
  sep >= sun_r + sph_r -> shadow_factor sun_r sph_r sep = 1.
Proof.
  intros H. unfold shadow_factor.
  destruct (Rge_dec sep (sun_r + sph_r)); [reflexivity|contradiction].
Qed.

Lemma shadow_factor_umbra (sun_r sph_r sep : R) :
  0 < sun_r -> sep <= sph_r - sun_r -> shadow_factor sun_r sph_r sep = 0.
Proof.
  intros Hs H. unfold shadow_factor.
  destruct (Rge_dec sep (sun_r + sph_r)); [lra|].
  destruct (Rle_dec sep (sph_r - sun_r)); [reflexivity|contradiction].
Qed.

Lemma shadow_factor_inside (sun_r sph_r sep : R) :
  0 < sun_r -> 0 < sph_r -> 0 <= sep -> sep <= sun_r - sph_r ->
  shadow_factor sun_r sph_r sep = 1 - (sph_r / sun_r) ^ 2.
Proof.
  intros Hs Hp Hsep H. unfold shadow_factor.
  destruct (Rge_dec sep (sun_r + sph_r)); [lra|].
  destruct (Rle_dec sep (sph_r - sun_r)) as [Hu|_].
  - assert (sph_r = sun_r) by lra. subst. field. lra.
  - destruct (Rle_dec sep (sun_r - sph_r)); [|contradiction].
    field. lra.
Qed.

Lemma shadow_factor_crossing (sun_r sph_r sep : R) :
  crossing sun_r sph_r sep ->
  shadow_factor sun_r sph_r sep
  = 1 - lens_area sun_r sph_r sep / (sun_r * sun_r * 2 * 1.57079633).
Proof.
  intros (H1 & H2 & H3). unfold shadow_factor.
  destruct (Rge_dec sep (sun_r + sph_r)); [lra|].
  destruct (Rle_dec sep (sph_r - sun_r)); [lra|].
  destruct (Rle_dec sep (sun_r - sph_r)); [lra|].
  unfold lens_area. cbv zeta.
  replace (0.5 * sin (2 * acos ((sun_r * sun_r + sep * sep - sph_r * sph_r)
                                / (2 * sep) / sun_r)))
    with (sin (2 * acos ((sun_r * sun_r + sep * sep - sph_r * sph_r)
                         / (2 * sep) / sun_r)) / 2) by lra.
  replace (0.5 * sin (2 * acos ((sep - (sun_r * sun_r + sep * sep
                                        - sph_r * sph_r) / (2 * sep))
                                / sph_r)))
    with (sin (2 * acos ((sep - (sun_r * sun_r + sep * sep
                                 - sph_r * sph_r) / (2 * sep))
                         / sph_r)) / 2) by lra.
  reflexivity.
Qed.

(** A circular segment of positive angle has positive area. *)
Lemma segment_pos (a : R) : 0 < a < PI -> 0 < a - sin (2 * a) / 2.
Proof.
  intros [H0 HPI]. rewrite sin_2a.
  pose proof (sin_lt_x a H0) as Hs.
  pose proof (sin_gt_0 a H0 HPI) as Hp.
  pose proof (COS_bound a) as [_ Hc].
  assert (sin a * cos a <= sin a) by nra.
  lra.
Qed.

Lemma lens_area_pos (ra rb d : R) :
  0 < ra -> 0 < rb -> crossing ra rb d -> 0 < lens_area ra rb d.
Proof.
  intros Hra Hrb Hc.
  destruct (crossing_chord ra rb d Hra Hrb Hc) as (Hd & Hx & Hy).
  pose proof (ratio_bounds _ _ Hra Hx) as Hu.
  pose proof (ratio_bounds _ _ Hrb Hy) as Hv.
  unfold lens_area. cbv zeta. fold (chord_x ra rb d).
  pose proof (segment_pos _ (acos_bound_lt _ Hu)).
  pose proof (segment_pos _ (acos_bound_lt _ Hv)).
  apply Rplus_lt_0_compat; apply Rmult_lt_0_compat; nra.
Qed.

(** In the crossing configuration the code subtracts the lens area
    divided by [sun_r * sun_r * 2 * 1.57079633]; that divisor is larger
    than the area of the disk of the Sun, so the result is strictly
    above 1 minus the lens area over the disk area. *)
Lemma shadow_factor_crossing_above (sun_r sph_r sep : R) :
  0 < sun_r -> 0 < sph_r -> crossing sun_r sph_r sep ->
  1 - lens_area sun_r sph_r sep / disk_area sun_r
  < shadow_factor sun_r sph_r sep.
Proof.
  intros Hs Hp Hc.
  rewrite (shadow_factor_crossing _ _ _ Hc).
  pose proof (lens_area_pos _ _ _ Hs Hp Hc) as HA.
  pose proof PI_upper as Hpi. pose proof PI_RGT_0 as Hpi0.
  assert (Hss : 0 < sun_r * sun_r) by nra.
  unfold disk_area.
  assert (Hlt : lens_area sun_r sph_r sep
                / (sun_r * sun_r * 2 * 1.57079633)
                < lens_area sun_r sph_r sep / (PI * (sun_r * sun_r))).
  { unfold Rdiv. apply Rmult_lt_compat_l; [assumption|].
    set (ss := sun_r * sun_r) in *.
    assert (0 < PI * ss) by (apply Rmult_lt_0_compat; assumption).
    assert (PI * ss < ss * 2 * 1.57079633) by nra.
    apply Rinv_lt_contravar; [apply Rmult_lt_0_compat; lra|assumption]. }
  lra.
Qed.

Lemma crossing_unit : crossing 1 1 1.
Proof. unfold crossing. lra. Qed.

(** *** Range, monotonicity and the step at the inner boundary *)

Lemma step_pos : 0 < 1 - PI / (2 * 1.57079633).
Proof.
  pose proof PI_upper.
  assert (PI / (2 * 1.57079633) < 1).
  { apply (Rmult_lt_reg_r (2 * 1.57079633)); [lra|].
    replace (PI / (2 * 1.57079633) * (2 * 1.57079633)) with PI
      by (field; lra).
    lra. }
  lra.
Qed.

(** The part of the Sun the lens takes away, as the code computes it, is
    at most [PI / (2 * 1.57079633)] times the true ratio of the areas. *)
Lemma crossing_fraction (sun_r sph_r sep bound : R) :
  0 < sun_r -> lens_area sun_r sph_r sep <= PI * bound ->
  lens_area sun_r sph_r sep / (sun_r * sun_r * 2 * 1.57079633)
  <= PI / (2 * 1.57079633) * (bound / (sun_r * sun_r)).
Proof.
  intros Hs HA.
  assert (Hss : 0 < sun_r * sun_r) by nra.
  apply (Rmult_le_reg_r (sun_r * sun_r * 2 * 1.57079633)); [nra|].
  replace (lens_area sun_r sph_r sep / (sun_r * sun_r * 2 * 1.57079633)
           * (sun_r * sun_r * 2 * 1.57079633))
    with (lens_area sun_r sph_r sep) by (field; lra).
  replace (PI / (2 * 1.57079633) * (bound / (sun_r * sun_r))
           * (sun_r * sun_r * 2 * 1.57079633))
    with (PI * bound) by (field; lra).
  exact HA.
Qed.

Lemma shadow_factor_crossing_bounds (sun_r sph_r sep : R) :
  0 < sun_r -> 0 < sph_r -> crossing sun_r sph_r sep ->
  1 - PI / (2 * 1.57079633) <= shadow_factor sun_r sph_r sep < 1 /\
  1 - PI / (2 * 1.57079633) * (sph_r * sph_r / (sun_r * sun_r))
  <= shadow_factor sun_r sph_r sep.
Proof.
  intros Hs Hp Hc.
  rewrite (shadow_factor_crossing _ _ _ Hc).
  pose proof (lens_area_pos _ _ _ Hs Hp Hc) as HA.
  pose proof (lens_area_le_disk_l _ _ _ Hs Hp Hc) as Hl.
  pose proof (lens_area_le_disk_r _ _ _ Hs Hp Hc) as Hr.
  pose proof (crossing_fraction _ _ _ _ Hs Hl) as Hfl.
  pose proof (crossing_fraction _ _ _ _ Hs Hr) as Hfr.
  assert (Hss : 0 < sun_r * sun_r) by nra.
  replace (sun_r * sun_r / (sun_r * sun_r)) with 1 in Hfl by (field; lra).
  assert (0 < lens_area sun_r sph_r sep / (sun_r * sun_r * 2 * 1.57079633)).
  { apply Rdiv_lt_0_compat; [assumption|nra]. }
  repeat split; lra.
Qed.

Lemma shadow_factor_range (sun_r sph_r sep : R) :
  0 < sun_r -> 0 < sph_r -> 0 <= sep ->
  0 <= shadow_factor sun_r sph_r sep <= 1.
Proof.
  intros Hs Hp Hsep.
  destruct (Rge_dec sep (sun_r + sph_r)) as [Hout|Hout].
  { rewrite shadow_factor_outside by assumption. lra. }
  destruct (Rle_dec sep (sph_r - sun_r)) as [Hum|Hum].
  { rewrite shadow_factor_umbra by assumption. lra. }
  destruct (Rle_dec sep (sun_r - sph_r)) as [Hin|Hin].
  { rewrite shadow_factor_inside by assumption.
    assert (Hq : 0 < sph_r / sun_r <= 1).
    { split; [apply Rdiv_lt_0_compat; assumption|].
      apply (Rmult_le_reg_r sun_r); [assumption|].
      replace (sph_r / sun_r * sun_r) with sph_r by (field; lra). lra. }
    nra. }
  assert (Hc : crossing sun_r sph_r sep) by (unfold crossing; lra).
  destruct (shadow_factor_crossing_bounds _ _ _ Hs Hp Hc) as [[H1 H2] _].
  pose proof step_pos. lra.
Qed.

Lemma shadow_factor_monotone (sun_r sph_r d1 d2 : R) :
  0 < sun_r -> 0 < sph_r -> 0 <= d1 -> d1 <= d2 ->
  shadow_factor sun_r sph_r d1 <= shadow_factor sun_r sph_r d2.
Proof.
  intros Hs Hp H1 H12.
  pose proof (shadow_factor_range sun_r sph_r d1 Hs Hp H1) as Hr1.
  pose proof (shadow_factor_range sun_r sph_r d2 Hs Hp ltac:(lra)) as Hr2.
  destruct (Rge_dec d2 (sun_r + sph_r)) as [Hout|Hout].
  { rewrite (shadow_factor_outside _ _ d2) by assumption. lra. }
  destruct (Rle_dec d1 (sph_r - sun_r)) as [Hum|Hum].
  { rewrite (shadow_factor_umbra _ _ d1) by assumption. lra. }
  destruct (Rle_dec d2 (sun_r - sph_r)) as [Hin2|Hin2].
  { rewrite (shadow_factor_inside _ _ d1), (shadow_factor_inside _ _ d2)
      by (try assumption; lra).
    lra. }
  assert (Hc2 : crossing sun_r sph_r d2) by (unfold crossing; lra).
  destruct (shadow_factor_crossing_bounds _ _ _ Hs Hp Hc2) as [_ Hq].
  destruct (Rle_dec d1 (sun_r - sph_r)) as [Hin1|Hin1].
  { rewrite (shadow_factor_inside _ _ d1) by assumption.
    pose proof step_pos as Hj.
    assert (0 < sph_r * sph_r / (sun_r * sun_r)).
    { apply Rdiv_lt_0_compat; nra. }
    replace ((sph_r / sun_r) ^ 2) with (sph_r * sph_r / (sun_r * sun_r))
      by (field; lra).
    nra. }
  assert (Hc1 : crossing sun_r sph_r d1) by (unfold crossing; lra).
  rewrite (shadow_factor_crossing _ _ _ Hc1),
    (shadow_factor_crossing _ _ _ Hc2).
  pose proof (lens_area_decreasing _ _ _ _ Hs Hp Hc1 Hc2 H12) as HA.
  assert (Hden : 0 < / (sun_r * sun_r * 2 * 1.57079633)).
  { apply Rinv_0_lt_compat. nra. }
  unfold Rdiv. nra.
Qed.

Lemma inner_step_pos (sun_r sph_r : R) :
  0 < sun_r -> 0 < sph_r -> 0 < inner_step sun_r sph_r.
Proof.
  intros Hs Hp. unfold inner_step.
  apply Rmult_lt_0_compat; [apply step_pos|].
  apply Rmin_glb_lt; [lra|]. apply Rdiv_lt_0_compat; nra.
Qed.

Lemma shadow_factor_step (sun_r sph_r sep : R) :
  0 < sun_r -> 0 < sph_r -> crossing sun_r sph_r sep ->
  inner_step sun_r sph_r
  <= shadow_factor sun_r sph_r sep
     - shadow_factor sun_r sph_r (Rabs (sun_r - sph_r)).
Proof.
  intros Hs Hp Hc.
  destruct (shadow_factor_crossing_bounds _ _ _ Hs Hp Hc) as [[Hb _] Hq].
  pose proof step_pos as Hj.
  assert (Hqpos : 0 < sph_r * sph_r / (sun_r * sun_r)).
  { apply Rdiv_lt_0_compat; nra. }
  unfold inner_step.
  destruct (Rle_dec sun_r sph_r) as [Hle|Hgt].
  - (* The blocking body is at least as big: the boundary is the umbra. *)
    rewrite Rabs_left1 by lra.
    rewrite (shadow_factor_umbra sun_r sph_r (- (sun_r - sph_r)))
      by (try assumption; lra).
    pose proof (Rmin_l 1 (sph_r * sph_r / (sun_r * sun_r))).
    nra.
  - rewrite Rabs_pos_eq by lra.
    rewrite (shadow_factor_inside sun_r sph_r (sun_r - sph_r))
      by (try assumption; lra).
    replace ((sph_r / sun_r) ^ 2) with (sph_r * sph_r / (sun_r * sun_r))
      by (field; lra).
    pose proof (Rmin_r 1 (sph_r * sph_r / (sun_r * sun_r))).
    nra.
Qed.

(** In exact arithmetic the classification is not continuous at the
    separation [|sun_r - sph_r|], where the umbra (or the fully-inside)
    branch ends: the value steps up by at least [inner_step sun_r sph_r],
    because the lens area is divided by [sun_r * sun_r * 2 * 1.57079633]
    instead of the area of the disk of the Sun. *)
Lemma shadow_factor_not_continuous (sun_r sph_r : R) :
  0 < sun_r -> 0 < sph_r ->
  ~ continuity_pt (shadow_factor sun_r sph_r) (Rabs (sun_r - sph_r)).
Proof.
  intros Hs Hp Hcont.
  pose proof (inner_step_pos sun_r sph_r Hs Hp) as Hj.
  destruct (Hcont (inner_step sun_r sph_r) Hj) as (delta & Hd & Hlim).
  set (x0 := Rabs (sun_r - sph_r)) in *.
  assert (Hx0 : 0 <= x0 /\ x0 < sun_r + sph_r /\
                sph_r - sun_r <= x0 /\ sun_r - sph_r <= x0).
  { unfold x0, Rabs. destruct (Rcase_abs (sun_r - sph_r)); lra. }
  set (x := x0 + Rmin (delta / 2) ((sun_r + sph_r - x0) / 2)).
  assert (Hx : x0 < x /\ x < sun_r + sph_r /\ x - x0 < delta).
  { unfold x, Rmin.
    destruct (Rle_dec (delta / 2) ((sun_r + sph_r - x0) / 2)); lra. }
  assert (Hc : crossing sun_r sph_r x) by (unfold crossing; lra).
  pose proof (shadow_factor_step sun_r sph_r x Hs Hp Hc) as Hstep.
  fold x0 in Hstep.
  specialize (Hlim x).
  unfold D_x, no_cond, dist in Hlim; simpl in Hlim.
  unfold Rdist in Hlim.
  assert (Hpre : (True /\ x0 <> x) /\ Rabs (x - x0) < delta).
  { split; [split; [exact I|lra]|]. rewrite Rabs_pos_eq; lra. }
  specialize (Hlim Hpre).
  rewrite Rabs_pos_eq in Hlim; lra.
Qed.

(** *** From the factor to [compute_sun_eclipse_factor] *)

Lemma atan2_nonneg (y x : R) : 0 <= y -> 0 <= atan2 y x.
Proof.
  intros Hy. unfold atan2. pose proof PI_RGT_0 as Hpi.
  destruct (Rlt_dec 0 x) as [Hx|Hx].
  - destruct Hy as [Hy | <-].
    + left. rewrite <- atan_0. apply atan_increasing.
      apply Rdiv_lt_0_compat; assumption.
    + unfold Rdiv. rewrite Rmult_0_l, atan_0. lra.
  - destruct (Rlt_dec x 0) as [Hx'|Hx'].
    + destruct (Rle_dec 0 y); [|contradiction].
      pose proof (atan_bound (y / x)). lra.
    + destruct (Rlt_dec 0 y); [lra|].
      destruct (Rlt_dec y 0); lra.
Qed.

Lemma vec3_norm_nonneg (v : vec3) : 0 <= vec3_norm v.
Proof. apply sqrt_pos. Qed.

Lemma eraSepp_nonneg (a b : vec3) : 0 <= eraSepp a b.
Proof.
  unfold eraSepp.
  destruct (Req_dec_T _ 0); [destruct (Req_dec_T _ 0); [lra|]|];
    apply atan2_nonneg, vec3_norm_nonneg.
Qed.

Section EclipseRun.

Context `{Eph : Ephemeris}.

(** What the loop returns: 1 when no child is the Moon, and otherwise the
    factor of the first Moon met, for its angular radius and its
    separation from the Sun. *)
Lemma eclipse_scan_run (fuel : nat) (sun_r : R) (obs : observer_t)
      (ps : list nat) :
  forall (w w' : world) (f : R),
    eclipse_scan fuel sun_r obs ps w = Some (f, w') ->
    (f = 1 /\ w' = w) \/
    exists (moon : nat) (pl : planet_t) (pvo : pv_t),
      w !! moon = Some pl /\ id pl = MOON /\
      planet_get_pvo fuel moon obs true w = Some (pvo, w') /\
      f = shadow_factor sun_r
                        (2 * radius_m pl / DAU / vec3_norm (fst pvo))
                        (eraSepp (fst (sun_pvo obs)) (fst pvo)).
Proof.
  induction ps as [|p ps IH]; intros w w' f Hrun; simpl in Hrun;
    unfold_monad.
  { injection Hrun as <- <-. auto. }
  destruct (w !! p) as [pl|] eqn:Hpl; [|discriminate].
  destruct (Z.eqb_spec (id pl) MOON) as [Hid|Hid]; cbn [negb] in Hrun.
  - destruct (planet_get_pvo fuel p obs true w) as [[pvo w1]|] eqn:Hv;
      [|discriminate].
    injection Hrun as <- <-. right. exists p, pl, pvo. auto.
  - apply IH. exact Hrun.
Qed.

(** The value [compute_sun_eclipse_factor] returns is within [0, 1]
    whenever the angular radii it computes are positive. *)
Lemma compute_sun_eclipse_factor_range (fuel : nat) (sun : nat)
      (obs : observer_t) (w w' : world) (s : planet_t) (f : R) :
  w !! sun = Some s ->
  0 < radius_m s -> 0 < vec3_norm (fst (sun_pvo obs)) ->
  (forall (moon : nat) (pl : planet_t) (pvo : pv_t),
      w !! moon = Some pl ->
      planet_get_pvo fuel moon obs true w = Some (pvo, w') ->
      0 < radius_m pl /\ 0 < vec3_norm (fst pvo)) ->
  compute_sun_eclipse_factor fuel sun obs w = Some (f, w') ->
  0 <= f <= 1.
Proof.
  intros Hs Hrs Hds Hmoon Hrun.
  unfold compute_sun_eclipse_factor in Hrun; unfold_monad.
  rewrite Hs in Hrun.
  assert (HDAU : 0 < DAU) by (unfold DAU; lra).
  destruct (eclipse_scan_run _ _ _ _ _ _ _ Hrun)
    as [[-> _] | (moon & pl & pvo & Hpl & _ & Hv & ->)]; [lra|].
  destruct (Hmoon moon pl pvo Hpl Hv) as [Hrm Hdm].
  apply shadow_factor_range.
  - repeat apply Rdiv_lt_0_compat; lra.
  - repeat apply Rdiv_lt_0_compat; lra.
  - apply eraSepp_nonneg.
Qed.

End EclipseRun.

(** ** The eclipse factor in binary64 *)

Lemma annular_inner_value :
  annular_inner = SpecFloat.S754_finite false 6727048890268928 (-64).
Proof. vm_compute. reflexivity. Qed.

(** One, two or three binary64 numbers above [sun_r - sph_r] the
    argument of the first [acos] is above 1. *)
Lemma annular_factor_nan (L : B64.Libm) (sep : B64.binary64) :
  sep = B64.succ annular_inner \/
  sep = B64.succ (B64.succ annular_inner) \/
  sep = B64.succ (B64.succ (B64.succ annular_inner)) ->
  annular_factor sep = B64.NaN.
Proof.
  intros H.
  assert (Hv : sep = SpecFloat.S754_finite false 6727048890268929 (-64) \/
               sep = SpecFloat.S754_finite false 6727048890268930 (-64) \/
               sep = SpecFloat.S754_finite false 6727048890268931 (-64)).
  { destruct H as [-> | [-> | ->]]; vm_compute; auto. }
  clear H.
  unfold annular_factor, B64.compute_sun_eclipse_factor.
  set (sun_r := B64.div (B64.div _ _) (B64.of_Z 1)).
  set (sph_r := B64.div (B64.div _ _) (B64.decimal 26 4)).
  vm_compute in sun_r, sph_r. subst sun_r sph_r.
  destruct Hv as [-> | [-> | ->]];
    (change (B64.ge _ _) with false; cbv iota;
     change (B64.le _ (B64.sub _ _)) with false; cbv iota;
     change (B64.le _ (B64.sub _ _)) with false; cbv iota;
     cbv zeta;
     rewrite (B64.acos_domain (B64.div _ _)) by (vm_compute; reflexivity);
     reflexivity).
Qed.

(** C2, on the code in binary64.  For the Sun at 1 AU and the Moon at
    0.0026 AU, at the separation [sun_r - sph_r] where the disk of the
    Moon touches the limb of the Sun from inside, the factor is the
    finite value [1 - sph_r * sph_r / (sun_r * sun_r)], about 0.0769.  At
    each of the next three binary64 separations the partial branch is
    taken, the rounded quotient [x / sun_r] exceeds 1, [acos] fails and
    the function returns a not-a-number value: the result is neither at
    least 0 nor at most 1, and it is not at least the value at the
    smaller separation. *)
Theorem compute_sun_eclipse_factor_binary64 (L : B64.Libm) :
  annular_factor annular_inner
  = SpecFloat.S754_finite false 5541240026175048 (-56) /\
  annular_factor (B64.succ annular_inner) = B64.NaN /\
  annular_factor (B64.succ (B64.succ annular_inner)) = B64.NaN /\
  annular_factor (B64.succ (B64.succ (B64.succ annular_inner))) = B64.NaN /\
  B64.le (B64.of_Z 0) (annular_factor (B64.succ annular_inner)) = false /\
  B64.le (annular_factor (B64.succ annular_inner)) (B64.of_Z 1) = false /\
  B64.le (annular_factor annular_inner)
         (annular_factor (B64.succ annular_inner)) = false.
Proof.
  assert (H0 : annular_factor annular_inner
               = SpecFloat.S754_finite false 5541240026175048 (-56)).
  { vm_compute. reflexivity. }
  rewrite H0, !annular_factor_nan by auto.
  repeat split; reflexivity.
Qed.

Lemma compute_sun_eclipse_factor_binary64_witness :
  annular_factor (L := domain_only_libm) (B64.succ annular_inner) = B64.NaN.
Proof.
  apply (compute_sun_eclipse_factor_binary64 domain_only_libm).
Defined.

(** ** Shadow candidates *)

(** *** Sorting radii *)

#[local] Instance Rge_transitive : Transitive Rge.
Proof. intros x y z Hxy Hyz. lra. Qed.

#[local] Instance Rge_antisymm : AntiSymm eq Rge.
Proof. intros x y Hxy Hyx. lra. Qed.

Lemma insert_desc_perm (r : R) (l : list R) :
  Permutation (insert_desc r l) (r :: l).
Proof.
  induction l as [|a l IH]; simpl; [reflexivity|].
  destruct (Rle_dec a r); [reflexivity|].
  rewrite IH. apply perm_swap.
Qed.

Lemma insert_desc_sorted (r : R) (l : list R) :
  Sorted Rge l -> Sorted Rge (insert_desc r l).
Proof.
  induction l as [|a l IH]; intros Hs; simpl.
  - repeat constructor.
  - destruct (Rle_dec a r) as [Har|Har].
    + constructor; [assumption|]. constructor. lra.
    + apply Sorted_inv in Hs as [Hs Hhd].
      constructor; [auto|].
      destruct l as [|b l]; simpl.
      * constructor. lra.
      * destruct (Rle_dec b r); constructor; try lra.
        now apply HdRel_inv in Hhd.
Qed.

Lemma sort_desc_perm (l : list R) : Permutation (sort_desc l) l.
Proof.
  induction l as [|r l IH]; simpl; [reflexivity|].
  rewrite insert_desc_perm. now rewrite IH.
Qed.

Lemma sort_desc_sorted (l : list R) : Sorted Rge (sort_desc l).
Proof.
  induction l as [|r l IH]; simpl; [constructor|].
  now apply insert_desc_sorted.
Qed.

(** A sorted list is determined by its elements. *)
Lemma sort_desc_unique (l l' : list R) :
  Sorted Rge l -> Permutation l l' -> sort_desc l' = l.
Proof.
  intros Hs Hp. apply (Sorted_unique Rge).
  - apply sort_desc_sorted.
  - assumption.
  - rewrite sort_desc_perm. symmetry. assumption.
Qed.

Lemma sort_desc_snoc (l : list R) (r : R) :
  sort_desc (l ++ [r]) = insert_desc r (sort_desc l).
Proof.
  apply sort_desc_unique.
  - apply insert_desc_sorted, sort_desc_sorted.
  - rewrite insert_desc_perm, sort_desc_perm.
    rewrite Permutation_app_comm. reflexivity.
Qed.

Lemma sort_desc_id (l : list R) : Sorted Rge l -> sort_desc l = l.
Proof. intros Hs. now apply sort_desc_unique. Qed.

Lemma insert_desc_length (r : R) (l : list R) :
  length (insert_desc r l) = S (length l).
Proof.
  induction l as [|a l IH]; simpl; [reflexivity|].
  destruct (Rle_dec a r); simpl; [reflexivity|]. now rewrite IH.
Qed.

Lemma Sorted_take (n : nat) (l : list R) :
  Sorted Rge l -> Sorted Rge (take n l).
Proof.
  intros Hs. apply Sorted_StronglySorted in Hs; [|apply _].
  apply StronglySorted_Sorted.
  rewrite <- (take_drop n l) in Hs.
  now apply StronglySorted_app_1_l in Hs.
Qed.

(** [sort_shadow_cmp] orders by the radius alone, biggest first. *)
Lemma sort_shadow_cmp_le (x y : sphere) :
  (sort_shadow_cmp x y <=? 0)%Z = (if Rle_dec (snd y) (snd x)
                                   then true else false).
Proof.
  unfold sort_shadow_cmp, cmp.
  destruct (Rgt_dec (snd x) (snd y)), (Rlt_dec (snd x) (snd y)),
    (Rle_dec (snd y) (snd x)); try reflexivity; lra.
Qed.

Lemma qsort_insert_radii (x : sphere) (l : list sphere) :
  radii (qsort_insert sort_shadow_cmp x l) = insert_desc (snd x) (radii l).
Proof.
  induction l as [|y l IH]; simpl; [reflexivity|].
  rewrite sort_shadow_cmp_le.
  destruct (Rle_dec (snd y) (snd x)); simpl; [reflexivity|].
  now rewrite IH.
Qed.

Lemma qsort_radii (l : list sphere) :
  radii (qsort sort_shadow_cmp l) = sort_desc (radii l).
Proof.
  induction l as [|x l IH]; simpl; [reflexivity|].
  now rewrite qsort_insert_radii, IH.
Qed.

(** *** The bounded list keeps the biggest radii *)

(** A candidate smaller than the smallest of a full list changes
    nothing. *)
Lemma take_insert_desc_small (n : nat) :
  forall (l : list R) (r m : R),
    Sorted Rge l -> l !! (n - 1)%nat = Some m -> (1 <= n)%nat -> r < m ->
    take n (insert_desc r l) = take n l.
Proof.
  induction n as [|n IH]; intros l r m Hs Hm Hn Hr; [lia|].
  destruct l as [|a l]; [discriminate|].
  apply Sorted_StronglySorted in Hs; [|apply _].
  apply StronglySorted_inv in Hs as [Hs Hall].
  assert (Ham : a >= m).
  { destruct n as [|n']; simpl in Hm.
    - injection Hm as ->. lra.
    - rewrite Forall_forall in Hall. apply Hall.
      eapply list_elem_of_lookup_2. exact Hm. }
  simpl. destruct (Rle_dec a r); [lra|]. simpl. f_equal.
  destruct n as [|n']; [now rewrite !take_0|].
  apply (IH l r m).
  - now apply StronglySorted_Sorted.
  - replace (S n' - 1)%nat with n' by lia. exact Hm.
  - lia.
  - assumption.
Qed.

(** A candidate at least as big as the smallest of a full list takes the
    place of that smallest. *)
Lemma take_insert_desc_big (n : nat) :
  forall (l : list R) (r m : R),
    l !! n = Some m -> m <= r ->
    take (S n) (insert_desc r l) = insert_desc r (take n l).
Proof.
  induction n as [|n IH]; intros l r m Hm Hr.
  - destruct l as [|a l]; [discriminate|]. simpl in Hm.
    injection Hm as ->. simpl.
    destruct (Rle_dec m r); [|lra]. reflexivity.
  - destruct l as [|a l]; [discriminate|]. simpl in Hm. simpl.
    destruct (Rle_dec a r).
    + reflexivity.
    + change (take (S (S n)) (a :: insert_desc r l))
        with (a :: take (S n) (insert_desc r l)).
      f_equal. now apply (IH l r m).
Qed.

Lemma radii_app (l1 l2 : list sphere) :
  radii (l1 ++ l2) = radii l1 ++ radii l2.
Proof. apply map_app. Qed.

Lemma radii_take (n : nat) (l : list sphere) :
  radii (take n l) = take n (radii l).
Proof.
  revert l; induction n as [|n IH]; intros [|x l]; simpl; try reflexivity.
  f_equal. apply IH.
Qed.

Lemma radii_lookup (l : list sphere) (i : nat) (s : sphere) :
  l !! i = Some s -> radii l !! i = Some (snd s).
Proof.
  revert i; induction l as [|x l IH]; intros [|i] H; simpl in *;
    try discriminate.
  - now injection H as ->.
  - now apply IH.
Qed.

(** One step of the bounded list, on radii.  [L] is the sorted list of
    all the radii accepted so far, of which [spheres] holds the [n]
    biggest. *)
Lemma bounded_insert_room (n : nat) (spheres : list sphere) (L : list R)
      (s : sphere) :
  Sorted Rge L -> radii spheres = take n L ->
  (length spheres < n)%nat ->
  radii (qsort sort_shadow_cmp (spheres ++ [s]))
  = take n (insert_desc (snd s) L).
Proof.
  intros HL Hrad Hlen.
  assert (Hlen' : (length L < n)%nat).
  { assert (H : length (radii spheres) = length spheres)
      by apply length_map.
    rewrite Hrad, length_take in H. lia. }
  rewrite take_ge in Hrad by lia.
  rewrite qsort_radii, radii_app.
  change (radii [s]) with [snd s]. rewrite sort_desc_snoc.
  rewrite Hrad, sort_desc_id by assumption.
  rewrite take_ge; [reflexivity|].
  rewrite insert_desc_length. lia.
Qed.

Lemma bounded_insert_full (n : nat) (spheres : list sphere) (L : list R)
      (s : sphere) :
  Sorted Rge L -> radii spheres = take n L ->
  (1 <= n)%nat -> (n <= length spheres)%nat ->
  exists smallest : sphere,
    spheres !! (n - 1)%nat = Some smallest /\
    (snd s < snd smallest -> take n (insert_desc (snd s) L) = take n L) /\
    (~ snd s < snd smallest ->
     radii (qsort sort_shadow_cmp
                  (take (length spheres - 1) spheres ++ [s]))
     = take n (insert_desc (snd s) L)).
Proof.
  intros HL Hrad Hn Hlen.
  assert (Hls : length spheres = n /\ (n <= length L)%nat).
  { assert (H : length (radii spheres) = length spheres)
      by apply length_map.
    rewrite Hrad, length_take in H. lia. }
  destruct Hls as [Hls HlL].
  destruct (lookup_lt_is_Some_2 spheres (n - 1)%nat) as [m Hm]; [lia|].
  exists m. split; [exact Hm|].
  assert (HmL : L !! (n - 1)%nat = Some (snd m)).
  { apply radii_lookup in Hm. rewrite Hrad in Hm.
    rewrite lookup_take_lt in Hm by lia. exact Hm. }
  split.
  - intros Hlt. now apply (take_insert_desc_small n L (snd s) (snd m)).
  - intros Hge.
    rewrite qsort_radii, radii_app.
    change (radii [s]) with [snd s]. rewrite sort_desc_snoc.
    rewrite radii_take, Hrad, Hls, take_take.
    replace (Init.Nat.min (n - 1) n) with (n - 1)%nat by lia.
    rewrite sort_desc_id by (apply Sorted_take; assumption).
    replace n with (S (n - 1)) at 2 by lia.
    symmetry. apply (take_insert_desc_big (n - 1) L (snd s) (snd m)).
    + exact HmL.
    + lra.
Qed.

Section ShadowFacts.

Context `{Eph : Ephemeris}.

(** A run of [could_cast_shadow] leaves the constant fields alone. *)
Lemma could_cast_shadow_static (fuel : nat) (a : option nat) (b : nat)
      (obs : observer_t) (w w' : world) (c : bool) :
  could_cast_shadow fuel a b obs w = Some (c, w') ->
  map static_part w' = map static_part w.
Proof.
  unfold could_cast_shadow; unfold_monad. intros Hrun.
  destruct (w !! b) as [pb|]; [|discriminate].
  destruct a as [a|]; [|now injection Hrun as _ <-].
  destruct (w !! a) as [pa|]; [|discriminate].
  destruct (id pb =? id pa)%Z; [now injection Hrun as _ <-|].
  destruct (_ && _); [now injection Hrun as _ <-|].
  destruct (_ && _); [now injection Hrun as _ <-|].
  destruct (planet_get_pvh fuel a obs w) as [[apvh w1]|] eqn:Ha;
    [|discriminate].
  destruct (planet_get_pvh fuel b obs w1) as [[bpvh w2]|] eqn:Hb;
    [|discriminate].
  apply planet_get_pvh_frame in Ha as [Ha _].
  apply planet_get_pvh_frame in Hb as [Hb _].
  destruct (Rgt_dec _ _); injection Hrun as _ <-; congruence.
Qed.

Lemma candidate_radius_static (w w0 : world) (i : nat) (p : planet_t) :
  map static_part w = map static_part w0 ->
  w !! i = Some p -> radius_m p / DAU = candidate_radius w0 i.
Proof.
  intros Hst Hp. unfold candidate_radius.
  destruct (map_lookup_eq static_part w w0 i p (eq_sym Hst) Hp)
    as (p0 & -> & Heq).
  unfold static_part in Heq. injection Heq as _ Hr _ _ _.
  now rewrite Hr.
Qed.

End ShadowFacts.

(** *** Evaluating runs that hit the caches *)

Section CacheHits.

Context `{Eph : Ephemeris}.

Lemma planet_get_pvh_hit (fuel : nat) (planet : nat) (obs : observer_t)
      (w : world) (pl : planet_t) :
  w !! planet = Some pl ->
  pvh_cache_hit pl obs = true ->
  planet_get_pvh (S fuel) planet obs w
  = Some (eraPvu (tt obs - last_full_update pl) (last_full_pvh pl), w).
Proof.
  intros Hpl Hhit. simpl. unfold_monad. now rewrite Hpl, Hhit.
Qed.

Lemma planet_get_pvo_hit (fuel : nat) (planet : nat) (obs : observer_t)
      (w : world) (pl : planet_t) :
  w !! planet = Some pl ->
  hash obs = pvo_obs_hash pl ->
  planet_get_pvo fuel planet obs true w = Some (pvo pl, w).
Proof.
  intros Hpl Hh. unfold planet_get_pvo. unfold_monad.
  rewrite Hpl, Hh, Z.eqb_refl. reflexivity.
Qed.

(** [could_cast_shadow] once the identifier filters have let the pair
    through. *)
Lemma could_cast_shadow_geometry (fuel : nat) (a b : nat)
      (obs : observer_t) (w w1 w2 : world) (pa pb : planet_t)
      (apvh bpvh : pv_t) :
  w !! a = Some pa -> w !! b = Some pb ->
  (id pb =? id pa)%Z = false ->
  (((IO <=? id pb) && (id pb <=? JUPITER))
   && ((id pa <? IO) || (JUPITER <? id pa)))%Z = false ->
  ((id pb =? MOON) && negb (id pa =? EARTH))%Z = false ->
  planet_get_pvh fuel a obs w = Some (apvh, w1) ->
  planet_get_pvh fuel b obs w1 = Some (bpvh, w2) ->
  could_cast_shadow fuel (Some a) b obs w
  = Some (shadow_geometry (radius_m pa) (radius_m pb)
                          (fst apvh) (fst bpvh), w2).
Proof.
  intros Ha Hb H1 H2 H3 Hpa Hpb.
  unfold could_cast_shadow, shadow_geometry. unfold_monad.
  rewrite Hb, Ha, H1, H2, H3, Hpa, Hpb.
  destruct (Rgt_dec _ _); [reflexivity|].
  destruct (Rlt_dec _ _); reflexivity.
Qed.

End CacheHits.

(** A caster between the Sun and the target, on the same axis, passes the
    geometric test. *)
Lemma shadow_geometry_aligned (ra_m rb_m xa xb : R) :
  0 < ra_m -> 0 < rb_m -> 0 < xa -> xa <= xb ->
  shadow_geometry ra_m rb_m (xa, 0, 0) (xb, 0, 0) = true.
Proof.
  intros Hra Hrb Hxa Hxb. unfold shadow_geometry.
  assert (Hn2a : vec3_norm2 (xa, 0, 0) = xa * xa).
  { unfold vec3_norm2, vec3_dot, vx, vy, vz; simpl. ring. }
  assert (Hn2b : vec3_norm2 (xb, 0, 0) = xb * xb).
  { unfold vec3_norm2, vec3_dot, vx, vy, vz; simpl. ring. }
  rewrite Hn2a, Hn2b.
  destruct (Rgt_dec (xa * xa) (xb * xb)) as [Hgt|_]; [nra|].
  assert (Hna : vec3_norm (xa, 0, 0) = xa).
  { unfold vec3_norm. rewrite Hn2a. apply sqrt_square. lra. }
  assert (Hpp : vec3_normalize (xa, 0, 0) = (1, 0, 0)).
  { unfold vec3_normalize. rewrite Hna.
    unfold vec3_mul, vx, vy, vz; simpl.
    f_equal; [f_equal|]; field; lra. }
  rewrite Hpp.
  assert (Hsd : vec3_dot (1, 0, 0) (xb, 0, 0) = xb).
  { unfold vec3_dot, vx, vy, vz; simpl. ring. }
  rewrite Hsd.
  assert (Hzero : vec3_norm (vec3_sub (vec3_mul xb (1, 0, 0)) (xb, 0, 0))
                  = 0).
  { unfold vec3_norm, vec3_norm2, vec3_dot, vec3_sub, vec3_mul, vx, vy, vz;
      simpl.
    replace ((xb * 1 - xb) * (xb * 1 - xb)
             + (xb * 0 - 0) * (xb * 0 - 0)
             + (xb * 0 - 0) * (xb * 0 - 0)) with 0 by ring.
    apply sqrt_0. }
  rewrite Hzero.
  assert (Hv2 : vec2_norm (xa, 0, 0) = xa).
  { unfold vec2_norm, vx, vy; simpl.
    replace (xa * xa + 0 * 0) with (xa * xa) by ring.
    apply sqrt_square. lra. }
  rewrite Hv2.
  assert (HDAU : 0 < DAU) by (unfold DAU; lra).
  assert (HS : 0 < 695508000 / DAU) by (apply Rdiv_lt_0_compat; lra).
  set (k := ra_m / DAU / (695508000 / DAU) + 1).
  assert (Hk : 1 < k).
  { unfold k.
    assert (0 < ra_m / DAU / (695508000 / DAU)).
    { apply Rdiv_lt_0_compat; [apply Rdiv_lt_0_compat; lra|assumption]. }
    lra. }
  assert (Hd : 0 < xa / k < xa).
  { split.
    - apply Rdiv_lt_0_compat; lra.
    - apply (Rmult_lt_reg_r k); [lra|].
      replace (xa / k * k) with xa by (field; lra). nra. }
  assert (Hpen : 0 < (xb - xa / k) / (xa / k) * (695508000 / DAU)).
  { apply Rmult_lt_0_compat; [|assumption].
    apply Rdiv_lt_0_compat; lra. }
  assert (0 < rb_m / DAU) by (apply Rdiv_lt_0_compat; lra).
  destruct (Rlt_dec 0 _) as [_|Hn]; [reflexivity|].
  exfalso. apply Hn. lra.
Qed.

Lemma pvh_cache_hit_now (pl : planet_t) (obs : observer_t) :
  last_full_update pl = tt obs -> tt obs <> 0 -> 0 < update_delta_s pl ->
  pvh_cache_hit pl obs = true.
Proof.
  intros Ht Hnz Hd. unfold pvh_cache_hit. rewrite Ht.
  destruct (Req_dec_T (tt obs) 0); [contradiction|].
  replace (tt obs - tt obs) with 0 by ring. rewrite Rabs_R0.
  destruct (Rlt_dec 0 (update_delta_s pl / ERFA_DAYSEC)) as [_|Hn];
    [reflexivity|].
  exfalso. apply Hn. apply Rdiv_lt_0_compat; [assumption|].
  unfold ERFA_DAYSEC. lra.
Qed.

Lemma eraPvu_at_x (dt x : R) : eraPvu dt (at_x x) = at_x x.
Proof.
  unfold eraPvu, at_x, vec3_add, vec3_mul, Vec.zero, vx, vy, vz; simpl.
  f_equal. f_equal; [f_equal|]; ring.
Qed.

(** The heliocentric state of the bodies of [jovian_world] comes from
    their caches. *)
Lemma jovian_pvh (i : nat) (pl : planet_t) (x : R) :
  jovian_world !! i = Some pl ->
  last_full_update pl = 58000 -> update_delta_s pl = 1.5 ->
  last_full_pvh pl = at_x x ->
  planet_get_pvh (Eph := still_ephemeris) 1 i (observer_at 58000 1)
                 jovian_world
  = Some (at_x x, jovian_world).
Proof.
  intros Hpl Ht Hd Hp.
  rewrite (planet_get_pvh_hit 0 i _ _ pl Hpl).
  - now rewrite Hp, eraPvu_at_x.
  - apply pvh_cache_hit_now; simpl; lra.
Qed.

Lemma jovian_io_casts :
  could_cast_shadow (Eph := still_ephemeris) 1 (Some 1%nat) 0
                    (observer_at 58000 1) jovian_world
  = Some (true, jovian_world).
Proof.
  rewrite (could_cast_shadow_geometry 1 1 0 _ jovian_world jovian_world
             jovian_world io_aligned jupiter_aligned
             (at_x 4.997) (at_x 5));
    try reflexivity.
  - simpl. rewrite shadow_geometry_aligned; [reflexivity|lra..].
  - now apply (jovian_pvh 1 io_aligned).
  - now apply (jovian_pvh 0 jupiter_aligned).
Qed.

Lemma jovian_europa_casts :
  could_cast_shadow (Eph := still_ephemeris) 1 (Some 2%nat) 0
                    (observer_at 58000 1) jovian_world
  = Some (true, jovian_world).
Proof.
  rewrite (could_cast_shadow_geometry 1 2 0 _ jovian_world jovian_world
             jovian_world europa_aligned jupiter_aligned
             (at_x 4.995) (at_x 5));
    try reflexivity.
  - simpl. rewrite shadow_geometry_aligned; [reflexivity|lra..].
  - now apply (jovian_pvh 2 europa_aligned).
  - now apply (jovian_pvh 0 jupiter_aligned).
Qed.

Section ScanSteps.

Context `{Eph : Ephemeris}.

Lemma shadow_scan_skip (fuel : nat) (planet : nat) (obs : observer_t)
      (nb_max : nat) (other : nat) (rest : list nat)
      (spheres : list sphere) (w w1 : world) :
  could_cast_shadow fuel (Some other) planet obs w = Some (false, w1) ->
  shadow_scan fuel planet obs nb_max (other :: rest) spheres w
  = shadow_scan fuel planet obs nb_max rest spheres w1.
Proof. intros Hc. simpl. unfold bind. now rewrite Hc. Qed.

Lemma shadow_scan_add (fuel : nat) (planet : nat) (obs : observer_t)
      (nb_max : nat) (other : nat) (rest : list nat)
      (spheres : list sphere) (w w1 w2 : world) (po : planet_t)
      (v : pv_t) :
  could_cast_shadow fuel (Some other) planet obs w = Some (true, w1) ->
  w1 !! other = Some po ->
  (length spheres < nb_max)%nat ->
  planet_get_pvo fuel other obs true w1 = Some (v, w2) ->
  shadow_scan fuel planet obs nb_max (other :: rest) spheres w
  = shadow_scan fuel planet obs nb_max rest
                (qsort sort_shadow_cmp
                       (spheres ++ [(fst v, radius_m po / DAU)])) w2.
Proof.
  intros Hc Hpo Hlen Hv. simpl. unfold_monad. rewrite Hc, Hpo.
  apply Nat.leb_gt in Hlen. rewrite Hlen, Hv. reflexivity.
Qed.

Lemma shadow_scan_replace (fuel : nat) (planet : nat) (obs : observer_t)
      (nb_max : nat) (other : nat) (rest : list nat)
      (spheres : list sphere) (w w1 w2 : world) (po : planet_t)
      (v : pv_t) (smallest : sphere) :
  could_cast_shadow fuel (Some other) planet obs w = Some (true, w1) ->
  w1 !! other = Some po ->
  (nb_max <= length spheres)%nat ->
  spheres !! (nb_max - 1)%nat = Some smallest ->
  ~ radius_m po / DAU < snd smallest ->
  planet_get_pvo fuel other obs true w1 = Some (v, w2) ->
  shadow_scan fuel planet obs nb_max (other :: rest) spheres w
  = shadow_scan fuel planet obs nb_max rest
                (qsort sort_shadow_cmp
                       (take (length spheres - 1) spheres
                        ++ [(fst v, radius_m po / DAU)])) w2.
Proof.
  intros Hc Hpo Hlen Hm Hge Hv. simpl. unfold_monad. rewrite Hc, Hpo.
  apply Nat.leb_le in Hlen. rewrite Hlen, Hm.
  destruct (Rlt_dec _ _); [contradiction|]. rewrite Hv. reflexivity.
Qed.

End ScanSteps.

Lemma qsort_pair_tie (a b : sphere) :
  snd a = snd b -> qsort sort_shadow_cmp [a; b] = [a; b].
Proof.
  intros Hab. simpl. rewrite sort_shadow_cmp_le.
  destruct (Rle_dec (snd b) (snd a)); [reflexivity|lra].
Qed.

Lemma jovian_candidates :
  get_shadow_candidates (Eph := still_ephemeris) 1 0 (observer_at 58000 1)
                        4 jovian_world
  = Some ([((3.997, 0, 0), 1500000 / DAU); ((3.995, 0, 0), 1500000 / DAU)],
          jovian_world).
Proof.
  unfold get_shadow_candidates, bind.
  change (could_cast_shadow 1 None 0 (observer_at 58000 1) jovian_world)
    with (Some (true, jovian_world)).
  cbn [negb]. change (seq 0 (length jovian_world)) with [0; 1; 2]%nat.
  rewrite (shadow_scan_skip 1 0 _ 4 0 _ _ jovian_world jovian_world)
    by reflexivity.
  rewrite (shadow_scan_add 1 0 _ 4 1 _ _ jovian_world jovian_world
             jovian_world io_aligned (at_x 3.997) jovian_io_casts);
    [|reflexivity|simpl; lia|reflexivity].
  rewrite (shadow_scan_add 1 0 _ 4 2 _ _ jovian_world jovian_world
             jovian_world europa_aligned (at_x 3.995) jovian_europa_casts);
    [|reflexivity|simpl; lia|reflexivity].
  simpl app. rewrite qsort_pair_tie by reflexivity.
  reflexivity.
Qed.

(** The Earth, between the Sun and Mars, passes the full test of
    [could_cast_shadow] for Mars. *)
Lemma earth_casts_on_mars :
  could_cast_shadow (Eph := still_ephemeris) 1 (Some 0%nat) 1
                    (observer_at 58000 1) earth_mars_world
  = Some (true, earth_mars_world).
Proof.
  rewrite (could_cast_shadow_geometry 1 0 1 _ earth_mars_world
             earth_mars_world earth_mars_world earth_fresh
             mars_opposition (at_x 1) (at_x 1.5));
    try reflexivity.
  - simpl. rewrite shadow_geometry_aligned; [reflexivity|lra..].
  - simpl. unfold_monad. simpl.
    rewrite pvh_cache_hit_fresh by reflexivity. reflexivity.
  - rewrite (planet_get_pvh_hit 0 1 (observer_at 58000 1) earth_mars_world
               mars_opposition eq_refl).
    + simpl. now rewrite eraPvu_at_x.
    + apply pvh_cache_hit_now; simpl; lra.
Qed.

Lemma mars_candidates :
  get_shadow_candidates (Eph := still_ephemeris) 1 1 (observer_at 58000 1)
                        4 earth_mars_world
  = Some ([], earth_mars_world).
Proof. reflexivity. Qed.

(** With room for one sphere only, the second of two moons of equal
    radius takes the place of the first. *)
Lemma jovian_candidates_one :
  get_shadow_candidates (Eph := still_ephemeris) 1 0 (observer_at 58000 1)
                        1 jovian_world
  = Some ([((3.995, 0, 0), 1500000 / DAU)], jovian_world).
Proof.
  unfold get_shadow_candidates, bind.
  change (could_cast_shadow 1 None 0 (observer_at 58000 1) jovian_world)
    with (Some (true, jovian_world)).
  cbn [negb]. change (seq 0 (length jovian_world)) with [0; 1; 2]%nat.
  rewrite (shadow_scan_skip 1 0 _ 1 0 _ _ jovian_world jovian_world)
    by reflexivity.
  rewrite (shadow_scan_add 1 0 _ 1 1 _ _ jovian_world jovian_world
             jovian_world io_aligned (at_x 3.997) jovian_io_casts);
    [|reflexivity|simpl; lia|reflexivity].
  rewrite (shadow_scan_replace 1 0 _ 1 2 _ _ jovian_world jovian_world
             jovian_world europa_aligned (at_x 3.995)
             ((3.997, 0, 0), 1500000 / DAU) jovian_europa_casts);
    [reflexivity|reflexivity|simpl; lia|reflexivity|simpl; lra|reflexivity].
Qed.

(** C3, as stated, fails in three ways.  Around Jupiter, two accepted
    moons of equal radius are both returned: the radii are not strictly
    decreasing.  With room for one sphere, one of these two moons is
    returned and the other, as big as any, is not: the bodies of largest
    radius are not a set the radii determine.  And for Mars as target
    the Earth passes [could_cast_shadow], yet the list returned is
    empty, because the target is outside the pairs the function
    considers at all. *)
Lemma get_shadow_candidates_counterexample :
  (exists s1 s2 : sphere,
      get_shadow_candidates (Eph := still_ephemeris) 1 0
                            (observer_at 58000 1) 4 jovian_world
      = Some ([s1; s2], jovian_world) /\
      ~ snd s1 > snd s2) /\
  (could_cast_shadow (Eph := still_ephemeris) 1 (Some 1%nat) 0
                     (observer_at 58000 1) jovian_world
   = Some (true, jovian_world) /\
   could_cast_shadow (Eph := still_ephemeris) 1 (Some 2%nat) 0
                     (observer_at 58000 1) jovian_world
   = Some (true, jovian_world) /\
   candidate_radius jovian_world 1 = candidate_radius jovian_world 2 /\
   get_shadow_candidates (Eph := still_ephemeris) 1 0
                         (observer_at 58000 1) 1 jovian_world
   = Some ([sphere_of jovian_world 2], jovian_world) /\
   sphere_of jovian_world 1 <> sphere_of jovian_world 2) /\
  (could_cast_shadow (Eph := still_ephemeris) 1 (Some 0%nat) 1
                     (observer_at 58000 1) earth_mars_world
   = Some (true, earth_mars_world) /\
   get_shadow_candidates (Eph := still_ephemeris) 1 1
                         (observer_at 58000 1) 4 earth_mars_world
   = Some ([], earth_mars_world)).
Proof.
  split; [|split].
  - eexists _, _. split; [exact jovian_candidates|]. simpl. lra.
  - split; [exact jovian_io_casts|]. split; [exact jovian_europa_casts|].
    split; [reflexivity|]. split; [exact jovian_candidates_one|].
    unfold sphere_of. simpl. intros H. injection H as H. lra.
  - split; [exact earth_casts_on_mars|exact mars_candidates].
Qed.

Section ShadowTotal.

Context `{Eph : Ephemeris}.

Lemma all_resolve_static (w w' : world) (fuel : nat) :
  map static_part w' = map static_part w ->
  all_resolve w fuel -> all_resolve w' fuel.
Proof.
  intros Hst Hall i Hi.
  apply (pvh_resolves_static fuel w w' i Hst). apply Hall.
  rewrite <- (map_length_eq static_part w w' Hst). exact Hi.
Qed.

Lemma could_cast_shadow_total (fuel : nat) (a : option nat) (b : nat)
      (obs : observer_t) (w : world) :
  all_resolve w fuel -> (b < length w)%nat ->
  (forall i, a = Some i -> (i < length w)%nat) ->
  exists c w', could_cast_shadow fuel a b obs w = Some (c, w').
Proof.
  intros Hall Hb Ha. unfold could_cast_shadow; unfold_monad.
  destruct (lookup_lt_is_Some_2 w b Hb) as [pb ->].
  destruct a as [a|]; [|eauto].
  specialize (Ha a eq_refl).
  destruct (lookup_lt_is_Some_2 w a Ha) as [pa ->].
  destruct (id pb =? id pa)%Z; [eauto|].
  destruct (_ && _); [eauto|].
  destruct (_ && _); [eauto|].
  destruct (planet_get_pvh_total fuel a obs w (Hall a Ha))
    as (apvh & w1 & H1).
  rewrite H1.
  pose proof (planet_get_pvh_frame _ _ _ _ _ _ H1) as [Hst _].
  assert (Hb1 : pvh_resolves w1 fuel b = true).
  { apply (pvh_resolves_static fuel w w1 b Hst), Hall, Hb. }
  destruct (planet_get_pvh_total fuel b obs w1 Hb1) as (bpvh & w2 & H2).
  rewrite H2. destruct (Rgt_dec _ _); eauto.
Qed.

Lemma shadow_scan_total (fuel : nat) (planet : nat) (obs : observer_t)
      (nb_max : nat) (others : list nat) :
  (1 <= nb_max)%nat ->
  forall (spheres : list sphere) (w : world),
    all_resolve w fuel -> (planet < length w)%nat ->
    Forall (fun i => (i < length w)%nat) others ->
    exists res w',
      shadow_scan fuel planet obs nb_max others spheres w = Some (res, w').
Proof.
  intros Hn. induction others as [|other rest IH];
    intros spheres w Hall Hp Hothers; simpl; unfold_monad; [eauto|].
  apply Forall_cons in Hothers as [Ho Hrest].
  destruct (could_cast_shadow_total fuel (Some other) planet obs w Hall Hp)
    as (c & w1 & Hc).
  { intros i [= <-]. exact Ho. }
  rewrite Hc. apply could_cast_shadow_static in Hc.
  pose proof (map_length_eq static_part w w1 Hc) as Hlen.
  assert (Hall1 : all_resolve w1 fuel)
    by (apply (all_resolve_static w); assumption).
  assert (Hrest1 : Forall (fun i => (i < length w1)%nat) rest)
    by now rewrite Hlen.
  destruct c; [|apply IH; [assumption|lia|assumption]].
  destruct (lookup_lt_is_Some_2 w1 other) as [po ->]; [lia|].
  assert (Hadd : forall kept : list sphere,
             exists res w',
               match planet_get_pvo fuel other obs true w1 with
               | Some (a, w2) =>
                 shadow_scan fuel planet obs nb_max rest
                   (qsort sort_shadow_cmp
                          (kept ++ [(fst a, radius_m po / DAU)])) w2
               | None => None
               end = Some (res, w')).
  { intros kept.
    destruct (planet_get_pvo_total fuel other obs true w1)
      as (v & w2 & Hv); [apply Hall1; lia|].
    rewrite Hv. apply planet_get_pvo_static in Hv.
    pose proof (map_length_eq static_part w1 w2 Hv) as Hlen2.
    apply IH.
    - apply (all_resolve_static w1); assumption.
    - lia.
    - now rewrite Hlen2. }
  destruct (nb_max <=? length spheres)%nat eqn:Hfull; [|apply Hadd].
  apply Nat.leb_le in Hfull.
  destruct (lookup_lt_is_Some_2 spheres (nb_max - 1)%nat) as [m ->];
    [lia|].
  destruct (Rlt_dec _ _); [|apply Hadd].
  apply IH; [assumption|lia|assumption].
Qed.

End ShadowTotal.

Lemma could_cast_shadow_valid `{Eph : Ephemeris} (fuel : nat) (a b : nat)
      (obs : observer_t) (w w' : world) (c : bool) :
  could_cast_shadow fuel (Some a) b obs w = Some (c, w') ->
  (a < length w)%nat.
Proof.
  unfold could_cast_shadow; unfold_monad. intros Hrun.
  destruct (w !! b); [|discriminate].
  destruct (w !! a) as [pa|] eqn:Ha; [|discriminate].
  eapply lookup_lt_Some. exact Ha.
Qed.

Lemma top_radii_length (n : nat) (l : list R) :
  (length (top_radii n l) <= n)%nat.
Proof. unfold top_radii. rewrite length_take. lia. Qed.

Lemma top_radii_sorted (n : nat) (l : list R) :
  Sorted Rge (top_radii n l).
Proof. apply Sorted_take, sort_desc_sorted. Qed.
(** ** Asking twice *)

Lemma eraPvu_zero (pv : pv_t) : eraPvu 0 pv = pv.
Proof.
  destruct pv as [[[a b] c] v].
  unfold eraPvu, vec3_add, vec3_mul, vx, vy, vz; simpl.
  destruct v as [[d e] f]; simpl.
  repeat f_equal; ring.
Qed.

Lemma static_lookup (w w' : world) (i : nat) (pl : planet_t) :
  map static_part w' = map static_part w -> w !! i = Some pl ->
  exists pl', w' !! i = Some pl' /\ static_part pl' = static_part pl.
Proof.
  intros Hst Hpl. exact (map_lookup_eq static_part w w' i pl Hst Hpl).
Qed.

Lemma static_part_delta (p q : planet_t) :
  static_part p = static_part q -> update_delta_s p = update_delta_s q.
Proof. unfold static_part. intros H. now injection H. Qed.

Lemma static_part_id (p q : planet_t) :
  static_part p = static_part q -> id p = id q.
Proof. unfold static_part. intros H. now injection H. Qed.

Lemma static_part_radius (p q : planet_t) :
  static_part p = static_part q -> radius_m p = radius_m q.
Proof. unfold static_part. intros H. now injection H. Qed.

Lemma static_part_parent (p q : planet_t) :
  static_part p = static_part q -> parent p = parent q.
Proof. unfold static_part. intros H. now injection H. Qed.

Section Requery.

Context `{Eph : Ephemeris}.

(** Storing a state in the heliocentric cache and asking again at the
    same date gives the state back. *)
Lemma planet_get_pvh_stored (fuel : nat) (planet : nat) (obs : observer_t)
      (w : world) (pl : planet_t) (v : pv_t) :
  w !! planet = Some pl -> tt obs <> 0 -> 0 < update_delta_s pl ->
  planet_get_pvh (S fuel) planet obs
                 (alter (set_pvh_cache (eraCpv v) (tt obs)) planet w)
  = Some (v, alter (set_pvh_cache (eraCpv v) (tt obs)) planet w).
Proof.
  intros Hpl Hnz Hd.
  rewrite (planet_get_pvh_hit fuel planet obs _
             (set_pvh_cache (eraCpv v) (tt obs) pl)).
  - cbn [last_full_update last_full_pvh set_pvh_cache].
    rewrite Rminus_diag, eraPvu_zero. reflexivity.
  - rewrite list_lookup_alter_eq, Hpl. reflexivity.
  - apply pvh_cache_hit_now; simpl; auto.
Qed.

(** A heliocentric query answered once is answered the same way again,
    and the second answer writes nothing. *)
Lemma planet_get_pvh_requery (fuel : nat) (planet : nat) (obs : observer_t)
      (w w' : world) (r : pv_t) (pl : planet_t) :
  w !! planet = Some pl -> tt obs <> 0 -> 0 < update_delta_s pl ->
  planet_get_pvh fuel planet obs w = Some (r, w') ->
  planet_get_pvh fuel planet obs w' = Some (r, w').
Proof.
  intros Hpl Hnz Hd Hrun.
  destruct fuel as [|fuel]; [discriminate|].
  pose proof Hrun as Hrun0.
  simpl in Hrun; unfold_monad. rewrite Hpl in Hrun.
  destruct (pvh_cache_hit pl obs) eqn:Hhit.
  { injection Hrun as <- <-. exact Hrun0. }
  assert (Hchild : forall (w1 : world) (v : pv_t),
             map static_part w1 = map static_part w ->
             planet_get_pvh (S fuel) planet obs
               (alter (set_pvh_cache (eraCpv v) (tt obs)) planet w1)
             = Some (v, alter (set_pvh_cache (eraCpv v) (tt obs)) planet w1)).
  { intros w1 v Hst.
    destruct (static_lookup w w1 planet pl Hst Hpl) as (pl1 & Hpl1 & Hs1).
    apply planet_get_pvh_stored with (pl := pl1); auto.
    rewrite (static_part_delta _ _ Hs1). exact Hd. }
  destruct (pvh_switch (id pl)) eqn:Hsw.
  - injection Hrun as <- <-. exact Hrun0.
  - injection Hrun as <- <-. exact Hrun0.
  - injection Hrun as <- <-. exact Hrun0.
  - injection Hrun as <- <-. apply Hchild. reflexivity.
  - destruct (parent pl) as [q|]; [|discriminate].
    destruct (planet_get_pvh fuel q obs w) as [[ppvh w1]|] eqn:Hq;
      [|discriminate].
    injection Hrun as <- <-. apply Hchild.
    apply planet_get_pvh_frame in Hq. tauto.
  - destruct (parent pl) as [q|]; [|discriminate].
    destruct (planet_get_pvh fuel q obs w) as [[ppvh w1]|] eqn:Hq;
      [|discriminate].
    injection Hrun as <- <-. apply Hchild.
    apply planet_get_pvh_frame in Hq. tauto.
Qed.

(** A successful run of [planet_get_pvh] leaves every planet in place. *)
Lemma planet_get_pvh_lookup (fuel : nat) (planet : nat) (obs : observer_t)
      (w w' : world) (r : pv_t) (i : nat) (pl : planet_t) :
  planet_get_pvh fuel planet obs w = Some (r, w') ->
  w !! i = Some pl ->
  exists pl', w' !! i = Some pl' /\ static_part pl' = static_part pl.
Proof.
  intros Hrun Hpl. apply planet_get_pvh_frame in Hrun as [Hst _].
  exact (static_lookup w w' i pl Hst Hpl).
Qed.

(** An observer-relative query with the light-time adjustment, answered
    once, is answered from the cache the second time. *)
Lemma planet_get_pvo_requery (fuel : nat) (planet : nat) (obs : observer_t)
      (w w' : world) (r : pv_t) :
  planet_get_pvo fuel planet obs true w = Some (r, w') ->
  planet_get_pvo fuel planet obs true w' = Some (r, w').
Proof.
  intros Hrun. pose proof Hrun as Hrun0.
  unfold planet_get_pvo in Hrun; unfold_monad.
  destruct (w !! planet) as [pl|] eqn:Hpl; [|discriminate].
  simpl in Hrun.
  destruct (hash obs =? pvo_obs_hash pl)%Z eqn:Hh.
  { injection Hrun as <- <-. exact Hrun0. }
  destruct (planet_get_pvh fuel planet obs w) as [[pvh1 w1]|] eqn:H1;
    [|discriminate].
  destruct (planet_get_pvh_lookup _ _ _ _ _ _ _ _ H1 Hpl)
    as (pl1 & Hpl1 & _).
  destruct (planet_get_pvh fuel planet _ w1) as [[pvh2 w2]|] eqn:H2;
    [|discriminate].
  destruct (planet_get_pvh_lookup _ _ _ _ _ _ _ _ H2 Hpl1)
    as (pl2 & Hpl2 & _).
  injection Hrun as <- <-.
  rewrite (planet_get_pvo_hit fuel planet obs _
             (set_pvo_cache (hash obs) (eraCpv (to_observer obs pvh2)) pl2)).
  - reflexivity.
  - rewrite list_lookup_alter_eq, Hpl2. reflexivity.
  - reflexivity.
Qed.

End Requery.

(** A first query on Jupiter fills its heliocentric cache. *)
Lemma jupiter_fresh_run :
  planet_get_pvh (Eph := still_ephemeris) 1 0 (observer_at 58000 1)
                 [jupiter_fresh]
  = Some (eraZpv,
          [set_pvh_cache eraZpv 58000 jupiter_fresh]).
Proof.
  simpl. unfold_monad. simpl.
  rewrite pvh_cache_hit_fresh by reflexivity. reflexivity.
Qed.

(** X1.  A heliocentric query that returns is idempotent: asked again
    with the same observer, at a date other than 0 and for a body with a
    positive refresh interval, [planet_get_pvh] returns the same state and
    leaves the world as the first call left it. *)
Theorem planet_get_pvh_again (Eph : Ephemeris) (fuel : nat) (planet : nat)
        (obs : observer_t) (w w' : world) (r : pv_t) (pl : planet_t) :
  w !! planet = Some pl ->
  tt obs <> 0 ->
  0 < update_delta_s pl ->
  planet_get_pvh fuel planet obs w = Some (r, w') ->
  planet_get_pvh fuel planet obs w' = Some (r, w').
Proof. apply planet_get_pvh_requery. Qed.

Lemma planet_get_pvh_again_witness :
  planet_get_pvh (Eph := still_ephemeris) 1 0 (observer_at 58000 1)
                 [set_pvh_cache eraZpv 58000 jupiter_fresh]
  = Some (eraZpv, [set_pvh_cache eraZpv 58000 jupiter_fresh]).
Proof.
  apply (planet_get_pvh_again still_ephemeris 1 0 (observer_at 58000 1)
                              [jupiter_fresh] _ _ jupiter_fresh).
  - reflexivity.
  - simpl. lra.
  - simpl. lra.
  - exact jupiter_fresh_run.
Defined.

(** X2.  After a query that missed the cache of a
    body other than the Earth, the Sun and the Moon, at a date other
    than 0, every query at a date strictly within the refresh interval
    of the first one is answered from the cache: the state the first
    query returned, advanced at constant velocity over the time elapsed,
    with nothing written. *)
Theorem planet_get_pvh_extrapolates (Eph : Ephemeris) (fuel : nat)
        (planet : nat) (obs obs2 : observer_t) (w w' : world) (r : pv_t)
        (pl : planet_t) :
  w !! planet = Some pl ->
  pvh_cache_hit pl obs = false ->
  id pl <> EARTH -> id pl <> SUN -> id pl <> MOON ->
  tt obs <> 0 ->
  Rabs (tt obs2 - tt obs) < update_delta_s pl / ERFA_DAYSEC ->
  planet_get_pvh fuel planet obs w = Some (r, w') ->
  planet_get_pvh fuel planet obs2 w'
  = Some ((vec3_add (fst r) (vec3_mul (tt obs2 - tt obs) (snd r)), snd r),
          w').
Proof.
  intros Hpl Hmiss He Hs Hm Hnz Hnear Hrun.
  destruct fuel as [|fuel]; [discriminate|].
  simpl in Hrun; unfold_monad. rewrite Hpl, Hmiss in Hrun.
  destruct (pvh_switch_cases (id pl)) as (HE & HS & HM).
  assert (Hchild : forall (w1 : world) (v : pv_t),
             map static_part w1 = map static_part w ->
             planet_get_pvh (S fuel) planet obs2
               (alter (set_pvh_cache (eraCpv v) (tt obs)) planet w1)
             = Some (eraPvu (tt obs2 - tt obs) v,
                     alter (set_pvh_cache (eraCpv v) (tt obs)) planet w1)).
  { intros w1 v Hst.
    destruct (static_lookup w w1 planet pl Hst Hpl) as (pl1 & Hpl1 & Hs1).
    rewrite (planet_get_pvh_hit fuel planet obs2 _
               (set_pvh_cache (eraCpv v) (tt obs) pl1)).
    - reflexivity.
    - rewrite list_lookup_alter_eq, Hpl1. reflexivity.
    - unfold pvh_cache_hit. cbn [last_full_update update_delta_s
                                 set_pvh_cache].
      rewrite (static_part_delta _ _ Hs1).
      destruct (Req_dec_T (tt obs) 0); [contradiction|].
      destruct (Rlt_dec _ _); [reflexivity|contradiction]. }
  destruct (pvh_switch (id pl)) eqn:Hsw.
  - exfalso. apply He, HE. reflexivity.
  - exfalso. apply Hs, HS. reflexivity.
  - exfalso. apply Hm, HM. reflexivity.
  - injection Hrun as <- <-. apply (Hchild w). reflexivity.
  - destruct (parent pl) as [q|]; [|discriminate].
    destruct (planet_get_pvh fuel q obs w) as [[ppvh w1]|] eqn:Hq;
      [|discriminate].
    injection Hrun as <- <-. apply (Hchild w1).
    apply planet_get_pvh_frame in Hq. tauto.
  - destruct (parent pl) as [q|]; [|discriminate].
    destruct (planet_get_pvh fuel q obs w) as [[ppvh w1]|] eqn:Hq;
      [|discriminate].
    injection Hrun as <- <-. apply (Hchild w1).
    apply planet_get_pvh_frame in Hq. tauto.
Qed.

Lemma planet_get_pvh_extrapolates_witness :
  planet_get_pvh (Eph := still_ephemeris) 1 0
                 (observer_at (58000 + 1 / 86400) 1)
                 [set_pvh_cache eraZpv 58000 jupiter_fresh]
  = Some ((vec3_add (fst eraZpv)
                    (vec3_mul (58000 + 1 / 86400 - 58000) (snd eraZpv)),
           snd eraZpv),
          [set_pvh_cache eraZpv 58000 jupiter_fresh]).
Proof.
  apply (planet_get_pvh_extrapolates still_ephemeris 1 0
           (observer_at 58000 1) (observer_at (58000 + 1 / 86400) 1)
           [jupiter_fresh] _ _ jupiter_fresh).
  - reflexivity.
  - apply pvh_cache_hit_fresh. reflexivity.
  - discriminate.
  - discriminate.
  - discriminate.
  - simpl. lra.
  - simpl. unfold ERFA_DAYSEC.
    replace (58000 + 1 / 86400 - 58000) with (1 / 86400) by lra.
    rewrite Rabs_pos_eq; lra.
  - exact jupiter_fresh_run.
Defined.

Section MissShape.

Context `{Eph : Ephemeris}.

(** What a query that misses the cache of a body other than the Earth,
    the Sun and the Moon leaves behind. *)
Lemma planet_get_pvh_miss_shape (fuel : nat) (planet : nat)
      (obs : observer_t) (w w' : world) (r : pv_t) (pl : planet_t) :
  w !! planet = Some pl ->
  pvh_cache_hit pl obs = false ->
  id pl <> EARTH -> id pl <> SUN -> id pl <> MOON ->
  planet_get_pvh fuel planet obs w = Some (r, w') ->
  exists (w1 : world) (pl1 : planet_t),
    w1 !! planet = Some pl1 /\ static_part pl1 = static_part pl /\
    w' = alter (set_pvh_cache (eraCpv r) (tt obs)) planet w1.
Proof.
  intros Hpl Hmiss He Hs Hm Hrun.
  destruct fuel as [|fuel]; [discriminate|].
  simpl in Hrun; unfold_monad. rewrite Hpl, Hmiss in Hrun.
  destruct (pvh_switch_cases (id pl)) as (HE & HS & HM).
  destruct (pvh_switch (id pl)) eqn:Hsw.
  - exfalso. apply He, HE. reflexivity.
  - exfalso. apply Hs, HS. reflexivity.
  - exfalso. apply Hm, HM. reflexivity.
  - injection Hrun as <- <-. exists w, pl. auto.
  - destruct (parent pl) as [q|]; [|discriminate].
    destruct (planet_get_pvh fuel q obs w) as [[ppvh w1]|] eqn:Hq;
      [|discriminate].
    injection Hrun as <- <-.
    destruct (planet_get_pvh_lookup _ _ _ _ _ _ _ _ Hq Hpl)
      as (pl1 & Hpl1 & Hst).
    exists w1, pl1. auto.
  - destruct (parent pl) as [q|]; [|discriminate].
    destruct (planet_get_pvh fuel q obs w) as [[ppvh w1]|] eqn:Hq;
      [|discriminate].
    injection Hrun as <- <-.
    destruct (planet_get_pvh_lookup _ _ _ _ _ _ _ _ Hq Hpl)
      as (pl1 & Hpl1 & Hst).
    exists w1, pl1. auto.
Qed.

End MissShape.

(** X3.  The date 0 doubles as the mark of an empty
    cache: a query at the date 0 that misses the cache of a body other
    than the Earth, the Sun and the Moon stores the state it computed,
    but with the epoch 0, so the stored state answers no later query,
    whatever its date. *)
Theorem planet_get_pvh_epoch_zero (Eph : Ephemeris) (fuel : nat)
        (planet : nat) (obs : observer_t) (w w' : world) (r : pv_t)
        (pl : planet_t) :
  w !! planet = Some pl ->
  pvh_cache_hit pl obs = false ->
  id pl <> EARTH -> id pl <> SUN -> id pl <> MOON ->
  tt obs = 0 ->
  planet_get_pvh fuel planet obs w = Some (r, w') ->
  exists pl' : planet_t,
    w' !! planet = Some pl' /\ last_full_pvh pl' = r /\
    forall obs2 : observer_t, pvh_cache_hit pl' obs2 = false.
Proof.
  intros Hpl Hmiss He Hs Hm Hz Hrun.
  destruct (planet_get_pvh_miss_shape _ _ _ _ _ _ _ Hpl Hmiss He Hs Hm Hrun)
    as (w1 & pl1 & Hpl1 & _ & ->).
  exists (set_pvh_cache (eraCpv r) (tt obs) pl1).
  split; [rewrite list_lookup_alter_eq, Hpl1; reflexivity|].
  split; [reflexivity|].
  intros obs2. apply pvh_cache_hit_fresh. exact Hz.
Qed.

Lemma jupiter_epoch_zero_run :
  planet_get_pvh (Eph := still_ephemeris) 1 0 (observer_at 0 1)
                 [jupiter_fresh]
  = Some (eraZpv, [set_pvh_cache eraZpv 0 jupiter_fresh]).
Proof.
  simpl. unfold_monad. simpl.
  rewrite pvh_cache_hit_fresh by reflexivity. reflexivity.
Qed.

Lemma planet_get_pvh_epoch_zero_witness :
  exists pl' : planet_t,
    [set_pvh_cache eraZpv 0 jupiter_fresh] !! 0%nat = Some pl' /\
    last_full_pvh pl' = eraZpv /\
    forall obs2 : observer_t, pvh_cache_hit pl' obs2 = false.
Proof.
  apply (planet_get_pvh_epoch_zero still_ephemeris 1 0 (observer_at 0 1)
           [jupiter_fresh] _ _ jupiter_fresh).
  - reflexivity.
  - apply pvh_cache_hit_fresh. reflexivity.
  - discriminate.
  - discriminate.
  - discriminate.
  - reflexivity.
  - exact jupiter_epoch_zero_run.
Defined.

(** X4.  The light travel time [planet_get_pvo] subtracts
    from the date is a time in days: when the light year of [swe.h] is
    the distance light covers in a Julian year at 299792458 metres per
    second, it is the distance in metres divided by the speed of light,
    converted from seconds to days; and it is never negative. *)
Theorem light_time_days (Eph : Ephemeris) (p : vec3) :
  LIGHT_YEAR_IN_METER = 299792458 * ERFA_DAYSEC * DJY ->
  light_time p = vec3_norm p * DAU / 299792458 / ERFA_DAYSEC /\
  0 <= light_time p.
Proof.
  intros Hly. unfold light_time. rewrite Hly.
  unfold ERFA_DAYSEC, DJY, DAU.
  assert (Hn : 0 <= vec3_norm p) by apply vec3_norm_nonneg.
  split; [field|].
  apply Rmult_le_pos; [|lra].
  apply Rmult_le_pos; [|apply Rlt_le, Rinv_0_lt_compat; lra].
  apply Rmult_le_pos; [exact Hn|lra].
Qed.

Lemma light_time_days_witness :
  light_time (Eph := still_ephemeris) (5, 0, 0)
  = vec3_norm (5, 0, 0) * DAU / 299792458 / ERFA_DAYSEC /\
  0 <= light_time (Eph := still_ephemeris) (5, 0, 0).
Proof.
  apply (light_time_days still_ephemeris (5, 0, 0)).
  simpl. unfold ERFA_DAYSEC, DJY. lra.
Defined.
(** ** What no query writes *)

Lemma bind_inv {A B : Type} (m : M A) (f : A -> M B) (w w' : world)
      (b : B) :
  bind m f w = Some (b, w') ->
  exists (a : A) (w1 : world), m w = Some (a, w1) /\ f a w1 = Some (b, w').
Proof.
  unfold bind. destruct (m w) as [[a w1]|]; [eauto|discriminate].
Qed.

Lemma get_planet_inv (p : nat) (w w' : world) (pl : planet_t) :
  get_planet p w = Some (pl, w') -> w !! p = Some pl /\ w' = w.
Proof.
  unfold get_planet. destruct (w !! p); [|discriminate].
  intros H; injection H as <- <-. auto.
Qed.

Lemma keeps_ret {A : Type} (a : A) : keeps_constants (ret a).
Proof. intros w a' w' H. now injection H as _ <-. Qed.

Lemma keeps_fail {A : Type} : keeps_constants (@fail A).
Proof. intros w a w' H. discriminate. Qed.

Lemma keeps_bind {A B : Type} (m : M A) (f : A -> M B) :
  keeps_constants m -> (forall a, keeps_constants (f a)) ->
  keeps_constants (bind m f).
Proof.
  intros Hm Hf w b w' H.
  apply bind_inv in H as (a & w1 & H1 & H2).
  rewrite (Hf a _ _ _ H2). exact (Hm _ _ _ H1).
Qed.

Lemma keeps_get_planet (p : nat) : keeps_constants (get_planet p).
Proof. intros w a w' H. apply get_planet_inv in H as [_ ->]. reflexivity. Qed.

Lemma keeps_get_phys (cat : catalog) (p : nat) :
  keeps_constants (get_phys cat p).
Proof.
  intros w a w' H. unfold get_phys in H.
  destruct (cat !! p); [|discriminate]. now injection H as _ <-.
Qed.

Create HintDb keeps discriminated.

#[local] Hint Resolve keeps_ret keeps_fail keeps_get_planet keeps_get_phys
  : keeps.

Ltac keeps_step :=
  match goal with
  | |- keeps_constants (bind _ _) => apply keeps_bind; [|intros ?]
  | |- keeps_constants (if ?c then _ else _) => destruct c
  | |- keeps_constants (match ?x with (_, _) => _ end) => destruct x
  | |- keeps_constants (match ?x with Some _ => _ | None => _ end) =>
    destruct x
  | |- keeps_constants _ => solve [auto with keeps]
  end.

Section Frame.

Context `{Eph : Ephemeris} `{Lib : SweLib}.

Lemma keeps_planet_get_pvh (fuel : nat) (planet : nat) (obs : observer_t) :
  keeps_constants (planet_get_pvh fuel planet obs).
Proof.
  intros w a w' H. apply planet_get_pvh_frame in H. tauto.
Qed.

Lemma keeps_planet_get_pvo (fuel : nat) (planet : nat) (obs : observer_t)
      (adjust : bool) :
  keeps_constants (planet_get_pvo fuel planet obs adjust).
Proof. intros w a w' H. exact (planet_get_pvo_static _ _ _ _ _ _ _ H). Qed.

#[local] Hint Resolve keeps_planet_get_pvh keeps_planet_get_pvo : keeps.

Lemma keeps_eclipse_scan (fuel : nat) (sun_r : R) (obs : observer_t)
      (ps : list nat) :
  keeps_constants (eclipse_scan fuel sun_r obs ps).
Proof.
  induction ps as [|p ps IH]; simpl; repeat keeps_step.
Qed.

Lemma keeps_compute_sun_eclipse_factor (fuel : nat) (sun : nat)
      (obs : observer_t) :
  keeps_constants (compute_sun_eclipse_factor fuel sun obs).
Proof.
  unfold compute_sun_eclipse_factor. apply keeps_bind; [auto with keeps|].
  intros s w a w' H. exact (keeps_eclipse_scan _ _ _ _ _ _ _ H).
Qed.

Lemma keeps_sun_get_vmag (fuel : nat) (sun : nat) (obs : observer_t) :
  keeps_constants (sun_get_vmag fuel sun obs).
Proof.
  unfold sun_get_vmag. apply keeps_bind;
    [apply keeps_compute_sun_eclipse_factor | auto with keeps].
Qed.

Lemma keeps_planet_get_phase (fuel : nat) (planet : nat)
      (obs : observer_t) :
  keeps_constants (planet_get_phase fuel planet obs).
Proof. unfold planet_get_phase. repeat keeps_step. Qed.

Lemma keeps_moon_get_vmag (fuel : nat) (moon : nat) (obs : observer_t) :
  keeps_constants (moon_get_vmag fuel moon obs).
Proof. unfold moon_get_vmag. repeat keeps_step. Qed.

Lemma keeps_rings_vmag (fuel : nat) (planet : nat) (obs : observer_t)
      (obsf : observer_frame_t) :
  keeps_constants (rings_vmag fuel planet obs obsf).
Proof. unfold rings_vmag. repeat keeps_step. Qed.

#[local] Hint Resolve keeps_sun_get_vmag keeps_planet_get_phase
  keeps_moon_get_vmag keeps_rings_vmag : keeps.

Lemma keeps_planet_get_vmag (cat : catalog) (fuel : nat) (planet : nat)
      (obs : observer_t) (obsf : observer_frame_t) :
  keeps_constants (planet_get_vmag cat fuel planet obs obsf).
Proof.
  unfold planet_get_vmag. apply keeps_bind; [auto with keeps|].
  intros pl. destruct (vmag_switch (id pl)); repeat keeps_step.
Qed.

Lemma keeps_planet_get_pvo4 (fuel : nat) (planet : nat)
      (obs : observer_t) :
  keeps_constants (planet_get_pvo4 fuel planet obs).
Proof. unfold planet_get_pvo4. repeat keeps_step. Qed.

#[local] Hint Resolve keeps_planet_get_vmag keeps_planet_get_pvo4 : keeps.

Lemma keeps_planet_get_info (cat : catalog) (fuel : nat) (planet : nat)
      (obs : observer_t) (obsf : observer_frame_t) (info : info_t) :
  keeps_constants (planet_get_info cat fuel planet obs obsf info).
Proof. destruct info; simpl; repeat keeps_step. Qed.

Lemma keeps_could_cast_shadow (fuel : nat) (a : option nat) (b : nat)
      (obs : observer_t) :
  keeps_constants (could_cast_shadow fuel a b obs).
Proof. intros w c w' H. exact (could_cast_shadow_static _ _ _ _ _ _ _ H). Qed.

Lemma keeps_planet_compute_orbit_elements (cat : catalog) (fuel : nat)
      (planet : nat) (obs : observer_t) :
  keeps_constants (planet_compute_orbit_elements cat fuel planet obs).
Proof. unfold planet_compute_orbit_elements. repeat keeps_step. Qed.

End Frame.
(** ** The caches and the constant fields *)

(** X5.  A run of [planet_get_pvh] that returns has written
    nothing but heliocentric caches: the constant fields of every planet,
    the cached observer fingerprints and the cached observer-relative
    states are what they were, and no planet was added or removed. *)
Theorem planet_get_pvh_writes (Eph : Ephemeris) (fuel : nat) (planet : nat)
        (obs : observer_t) (w w' : world) (r : pv_t) :
  planet_get_pvh fuel planet obs w = Some (r, w') ->
  map static_part w' = map static_part w /\
  map pvo_part w' = map pvo_part w /\
  length w' = length w.
Proof.
  intros Hrun. apply planet_get_pvh_frame in Hrun as [Hst Hpvo].
  repeat split; auto. exact (map_length_eq static_part w w' Hst).
Qed.

Lemma planet_get_pvh_writes_witness :
  map static_part [set_pvh_cache eraZpv 58000 jupiter_fresh]
  = map static_part [jupiter_fresh] /\
  map pvo_part [set_pvh_cache eraZpv 58000 jupiter_fresh]
  = map pvo_part [jupiter_fresh] /\
  length [set_pvh_cache eraZpv 58000 jupiter_fresh]
  = length [jupiter_fresh].
Proof.
  exact (planet_get_pvh_writes still_ephemeris 1 0 (observer_at 58000 1)
           [jupiter_fresh] _ _ jupiter_fresh_run).
Defined.

(** X6.  An observer-relative query with the light-time
    adjustment is idempotent: once [planet_get_pvo] has returned, the same
    query returns the same state again and writes nothing, whether the
    first call was served from the cache or computed and stored. *)
Theorem planet_get_pvo_again (Eph : Ephemeris) (fuel : nat) (planet : nat)
        (obs : observer_t) (w w' : world) (r : pv_t) :
  planet_get_pvo fuel planet obs true w = Some (r, w') ->
  planet_get_pvo fuel planet obs true w' = Some (r, w').
Proof. apply planet_get_pvo_requery. Qed.

Lemma planet_get_pvo_again_witness :
  exists (r : pv_t) (w' : world),
    planet_get_pvo (Eph := still_ephemeris) 1 0 (observer_at 58000 1) true
                   [jupiter_fresh] = Some (r, w') /\
    planet_get_pvo (Eph := still_ephemeris) 1 0 (observer_at 58000 1) true
                   w' = Some (r, w').
Proof.
  destruct (planet_get_pvo_total (Eph := still_ephemeris) 1 0
              (observer_at 58000 1) true [jupiter_fresh] eq_refl)
    as (r & w' & Hrun).
  exists r, w'. split; [exact Hrun|].
  exact (planet_get_pvo_again still_ephemeris 1 0 (observer_at 58000 1)
           [jupiter_fresh] w' r Hrun).
Defined.

(** X7.  Whatever the selector, a run of
    [planet_get_info] that returns leaves the constant fields of every
    planet (parent, radius, identifier, refresh interval, orbit elements)
    as they were and keeps the number of planets: positions, magnitudes,
    phases and radii are computed by writing caches only. *)
Theorem planet_get_info_constants (Eph : Ephemeris) (Lib : SweLib)
        (cat : catalog) (fuel : nat) (planet : nat) (obs : observer_t)
        (obsf : observer_frame_t) (info : info_t) (w w' : world)
        (r : Z * option info_value) :
  planet_get_info cat fuel planet obs obsf info w = Some (r, w') ->
  map static_part w' = map static_part w /\ length w' = length w.
Proof.
  intros Hrun. apply keeps_planet_get_info in Hrun.
  split; [exact Hrun|]. exact (map_length_eq static_part w w' Hrun).
Qed.

Lemma jupiter_fresh_info :
  exists (r : Z * option info_value) (w' : world),
    planet_get_info (Eph := still_ephemeris) (Lib := flat_rings)
                    [dark_phys] 1 0 (observer_at 58000 1) plain_frame
                    INFO_PVO [jupiter_fresh] = Some (r, w').
Proof.
  destruct (planet_get_pvo_total (Eph := still_ephemeris) 1 0
              (observer_at 58000 1) true [jupiter_fresh] eq_refl)
    as (r & w' & Hrun).
  eexists; exists w'. simpl. unfold planet_get_pvo4, bind.
  rewrite Hrun. reflexivity.
Qed.

Lemma planet_get_info_constants_witness :
  exists (r : Z * option info_value) (w' : world),
    planet_get_info (Eph := still_ephemeris) (Lib := flat_rings)
                    [dark_phys] 1 0 (observer_at 58000 1) plain_frame
                    INFO_PVO [jupiter_fresh] = Some (r, w') /\
    map static_part w' = map static_part [jupiter_fresh] /\
    length w' = length [jupiter_fresh].
Proof.
  destruct jupiter_fresh_info as (r & w' & Hrun).
  exists r, w'. split; [exact Hrun|].
  exact (planet_get_info_constants still_ephemeris flat_rings [dark_phys]
           1 0 (observer_at 58000 1) plain_frame INFO_PVO
           [jupiter_fresh] w' r Hrun).
Defined.

(** ** The distance of the Moon *)

Lemma eraS2p_norm2 (theta phi r : R) :
  vec3_norm2 (eraS2p theta phi r) = r * r.
Proof.
  unfold eraS2p, vec3_norm2, vec3_dot, vec3_mul, vx, vy, vz; simpl.
  pose proof (sin2_cos2 theta) as Ht. pose proof (sin2_cos2 phi) as Hp.
  unfold Rsqr in Ht, Hp.
  replace (r * (cos theta * cos phi) * (r * (cos theta * cos phi))
           + r * (sin theta * cos phi) * (r * (sin theta * cos phi))
           + r * sin phi * (r * sin phi))
    with (r * r * ((sin theta * sin theta + cos theta * cos theta)
                   * (cos phi * cos phi) + sin phi * sin phi)) by ring.
  rewrite Ht, Rmult_1_l, Rplus_comm, Hp. ring.
Qed.

Lemma eraRx_norm2 (phi : R) (p : vec3) :
  vec3_norm2 (eraRxp (eraRx phi eraIr) p) = vec3_norm2 p.
Proof.
  destruct p as [[x y] z].
  unfold eraRxp, eraRx, eraIr, vec3_norm2, vec3_dot, vec3_add, vec3_mul,
    vx, vy, vz; simpl.
  pose proof (sin2_cos2 phi) as Hp. unfold Rsqr in Hp.
  set (s := sin phi) in *. set (c := cos phi) in *.
  replace (x * x + y * y + z * z)
    with (x * x + (s * s + c * c) * (y * y + z * z))
    by (rewrite Hp; ring).
  ring.
Qed.

Lemma eraTrxp_norm2 (r : mat3) (p : vec3) :
  orthonormal r -> vec3_norm2 (eraTrxp r p) = vec3_norm2 p.
Proof.
  destruct r as [[[[a0 a1] a2] [[b0 b1] b2]] [[c0 c1] c2]].
  destruct p as [[x y] z].
  unfold orthonormal, eraTrxp, vec3_norm2, vec3_dot, vec3_add, vec3_mul,
    vx, vy, vz; simpl.
  intros (Haa & Hbb & Hcc & Hab & Hac & Hbc).
  transitivity
    (x * x * (a0 * a0 + a1 * a1 + a2 * a2)
     + y * y * (b0 * b0 + b1 * b1 + b2 * b2)
     + z * z * (c0 * c0 + c1 * c1 + c2 * c2)
     + 2 * x * y * (a0 * b0 + a1 * b1 + a2 * b2)
     + 2 * x * z * (a0 * c0 + a1 * c1 + a2 * c2)
     + 2 * y * z * (b0 * c0 + b1 * c1 + b2 * c2)); [ring|].
  rewrite Haa, Hbb, Hcc, Hab, Hac, Hbc. ring.
Qed.

Lemma orthonormal_eraIr : orthonormal eraIr.
Proof.
  unfold orthonormal, eraIr, vec3_dot, vx, vy, vz; simpl.
  repeat split; ring.
Qed.

(** X8.  The rotations of [moon_icrf_geocentric_pos]
    keep the distance: whatever the longitude, the latitude and the
    obliquity, and for any precession matrix with orthonormal rows, the
    norm of the returned position is the distance of the lunar theory
    converted from kilometres to astronomical units. *)
Theorem moon_icrf_geocentric_pos_distance (Eph : Ephemeris) (t : R) :
  orthonormal (eraPmat76 DJM0 t) ->
  vec3_norm (moon_icrf_geocentric_pos t)
  = Rabs (snd (moon_pos (DJM0 + t))) * 1000 / DAU.
Proof.
  intros Hortho. unfold moon_icrf_geocentric_pos, vec3_norm.
  destruct (moon_pos (DJM0 + t)) as [[lambda beta] dist].
  cbv beta iota zeta. cbn [snd].
  rewrite eraTrxp_norm2 by exact Hortho.
  rewrite eraRx_norm2, eraS2p_norm2.
  change (dist * (1000 / DAU) * (dist * (1000 / DAU)))
    with (Rsqr (dist * (1000 / DAU))).
  rewrite sqrt_Rsqr_abs, Rabs_mult.
  rewrite (Rabs_pos_eq (1000 / DAU)).
  - unfold Rdiv. ring.
  - unfold DAU. lra.
Qed.

Lemma moon_icrf_geocentric_pos_distance_witness :
  vec3_norm (moon_icrf_geocentric_pos (Eph := lunar_ephemeris) 58000)
  = Rabs 384400 * 1000 / DAU.
Proof.
  exact (moon_icrf_geocentric_pos_distance lunar_ephemeris 58000
           orthonormal_eraIr).
Defined.
(** ** Magnitudes *)

Lemma vec3_norm_at_x (x : R) : vec3_norm (fst (at_x x)) = Rabs x.
Proof.
  unfold vec3_norm, vec3_norm2, vec3_dot, at_x, vx, vy, vz; simpl.
  replace (x * x + 0 * 0 + 0 * 0) with (Rsqr x) by (unfold Rsqr; ring).
  apply sqrt_Rsqr_abs.
Qed.

Lemma max_le_one (f : R) : f <= 1 -> max f 0.000128 <= 1.
Proof. intros Hf. unfold max. destruct (Rgt_dec f 0.000128); lra. Qed.

Lemma max_floor_pos (f : R) : 0 < max f 0.000128.
Proof. unfold max. destruct (Rgt_dec f 0.000128); lra. Qed.

Section EclipseFacts.

Context `{Eph : Ephemeris}.

(** The loop over bodies none of which is the Moon. *)
Lemma eclipse_scan_no_moon (fuel : nat) (sun_r : R) (obs : observer_t)
      (w : world) (ps : list nat) :
  Forall (fun pl => id pl <> MOON) w ->
  Forall (fun p => (p < length w)%nat) ps ->
  eclipse_scan fuel sun_r obs ps w = Some (1, w).
Proof.
  intros Hw. induction ps as [|p ps IH]; intros Hps; [reflexivity|].
  apply Forall_cons_1 in Hps as [Hp Hps].
  destruct (lookup_lt_is_Some_2 w p Hp) as [pl Hpl].
  simpl. unfold_monad. rewrite Hpl.
  pose proof (Forall_lookup_1 _ _ _ _ Hw Hpl) as Hid. simpl in Hid.
  destruct (id pl =? MOON)%Z eqn:He; [apply Z.eqb_eq in He; contradiction|].
  simpl. apply IH. exact Hps.
Qed.

(** The factor is within [0, 1] as soon as the Moon that decides has a
    positive radius and a place away from the observer. *)
Lemma eclipse_factor_range (fuel : nat) (sun : nat) (obs : observer_t)
      (w w' : world) (s : planet_t) (f : R) :
  w !! sun = Some s ->
  0 < radius_m s -> 0 < vec3_norm (fst (sun_pvo obs)) ->
  (forall (moon : nat) (pl : planet_t) (pvo : pv_t),
      w !! moon = Some pl -> id pl = MOON ->
      planet_get_pvo fuel moon obs true w = Some (pvo, w') ->
      0 < radius_m pl /\ 0 < vec3_norm (fst pvo)) ->
  compute_sun_eclipse_factor fuel sun obs w = Some (f, w') ->
  0 <= f <= 1.
Proof.
  intros Hs Hrs Hds Hmoon Hrun.
  unfold compute_sun_eclipse_factor in Hrun; unfold_monad.
  rewrite Hs in Hrun.
  assert (HDAU : 0 < DAU) by (unfold DAU; lra).
  destruct (eclipse_scan_run _ _ _ _ _ _ _ Hrun)
    as [[-> _] | (moon & pl & pvo & Hpl & Hid & Hv & ->)]; [lra|].
  destruct (Hmoon moon pl pvo Hpl Hid Hv) as [Hrm Hdm].
  apply shadow_factor_range.
  - repeat apply Rdiv_lt_0_compat; lra.
  - repeat apply Rdiv_lt_0_compat; lra.
  - apply eraSepp_nonneg.
Qed.

End EclipseFacts.

(** X9.  With no body carrying the identifier of the Moon
    among the planets, [compute_sun_eclipse_factor] returns 1 for every
    observer and every recursion budget (0 included), and writes
    nothing: no position is ever computed. *)
Theorem compute_sun_eclipse_factor_no_moon (Eph : Ephemeris) (fuel : nat)
        (sun : nat) (obs : observer_t) (w : world) :
  (sun < length w)%nat ->
  Forall (fun pl => id pl <> MOON) w ->
  compute_sun_eclipse_factor fuel sun obs w = Some (1, w).
Proof.
  intros Hsun Hw.
  destruct (lookup_lt_is_Some_2 w sun Hsun) as [s Hs].
  unfold compute_sun_eclipse_factor; unfold_monad. rewrite Hs.
  apply eclipse_scan_no_moon; [exact Hw|].
  apply Forall_seq. intros i Hi. lia.
Qed.

Lemma compute_sun_eclipse_factor_no_moon_witness :
  compute_sun_eclipse_factor (Eph := still_ephemeris) 0 0
                             (observer_at 58000 1)
                             [sun_fresh; jupiter_fresh; mars_cached]
  = Some (1, [sun_fresh; jupiter_fresh; mars_cached]).
Proof.
  apply (compute_sun_eclipse_factor_no_moon still_ephemeris 0 0
           (observer_at 58000 1) [sun_fresh; jupiter_fresh; mars_cached]).
  - simpl. lia.
  - repeat constructor; discriminate.
Defined.

(** X10.  An eclipse never makes the Sun brighter: when the
    Sun has a positive radius and is away from the observer, and so is
    the Moon that decides the eclipse factor, the magnitude
    [sun_get_vmag] returns is at least the unobstructed magnitude for the
    distance of the observer. *)
Theorem sun_get_vmag_never_brighter (Eph : Ephemeris) (fuel : nat)
        (sun : nat) (obs : observer_t) (w w' : world) (s : planet_t)
        (m : R) :
  w !! sun = Some s ->
  0 < radius_m s ->
  0 < vec3_norm (fst (sun_pvo obs)) ->
  (forall (moon : nat) (pl : planet_t) (pvo : pv_t),
      w !! moon = Some pl -> id pl = MOON ->
      planet_get_pvo fuel moon obs true w = Some (pvo, w') ->
      0 < radius_m pl /\ 0 < vec3_norm (fst pvo)) ->
  sun_get_vmag fuel sun obs w = Some (m, w') ->
  sun_vmag_unobstructed (vec3_norm (fst (earth_pvh obs)) * au_in_parsec)
  <= m.
Proof.
  intros Hs Hrs Hds Hmoon Hrun.
  unfold sun_get_vmag in Hrun.
  apply bind_inv in Hrun as (f & w1 & Hf & Hret).
  injection Hret as <- ->.
  pose proof (eclipse_factor_range _ _ _ _ _ _ _ Hs Hrs Hds Hmoon Hf)
    as [_ Hle].
  assert (Hlog : log10 (max f 0.000128) <= 0).
  { rewrite <- log10_1. apply log10_le;
      [apply max_floor_pos | apply max_le_one; exact Hle]. }
  unfold sun_vmag_unobstructed, au_in_parsec. lra.
Qed.

Lemma sun_moon_vmag :
  exists m : R,
    sun_get_vmag (Eph := still_ephemeris) 1 0 (observer_at 58000 1)
                 sun_moon_world = Some (m, sun_moon_world).
Proof.
  eexists. unfold sun_get_vmag, compute_sun_eclipse_factor.
  unfold_monad. simpl. unfold_monad. simpl.
  unfold planet_get_pvo. unfold_monad. simpl. reflexivity.
Qed.

Lemma sun_get_vmag_never_brighter_witness :
  exists m : R,
    sun_get_vmag (Eph := still_ephemeris) 1 0 (observer_at 58000 1)
                 sun_moon_world = Some (m, sun_moon_world) /\
    sun_vmag_unobstructed
      (vec3_norm (fst (earth_pvh (observer_at 58000 1))) * au_in_parsec)
    <= m.
Proof.
  destruct sun_moon_vmag as [m Hrun].
  exists m. split; [exact Hrun|].
  apply (sun_get_vmag_never_brighter still_ephemeris 1 0
           (observer_at 58000 1) sun_moon_world sun_moon_world sun_fresh m).
  - reflexivity.
  - simpl. lra.
  - change (sun_pvo (observer_at 58000 1)) with (at_x (-1)).
    rewrite vec3_norm_at_x. unfold Rabs. destruct (Rcase_abs (-1)); lra.
  - intros moon pl pvo Hpl Hid Hpvo.
    destruct moon as [|[|moon]]; simpl in Hpl; try discriminate;
      injection Hpl as <-; [discriminate Hid|].
    rewrite (planet_get_pvo_hit 1 1 (observer_at 58000 1) sun_moon_world
               moon_full eq_refl eq_refl) in Hpvo.
    injection Hpvo as <-. split; [simpl; lra|].
    change (pvo moon_full) with (at_x 0.0025).
    rewrite vec3_norm_at_x. unfold Rabs. destruct (Rcase_abs 0.0025); lra.
  - exact Hrun.
Defined.
(** ** The magnitudes of the planets *)

Lemma vmag_switch_planet (i : Z) :
  vmag_switch i = VmagPlanet ->
  i = MERCURY \/ i = VENUS \/ i = MARS \/ i = JUPITER \/ i = SATURN
  \/ i = URANUS \/ i = NEPTUNE.
Proof.
  unfold vmag_switch.
  destruct (Z.eqb_spec i SUN); [discriminate|].
  destruct (Z.eqb_spec i MOON); [discriminate|].
  destruct (Z.eqb_spec i MERCURY); [tauto|].
  destruct (Z.eqb_spec i VENUS); [tauto|].
  destruct (Z.eqb_spec i MARS); [tauto|].
  destruct (Z.eqb_spec i JUPITER); [tauto|].
  destruct (Z.eqb_spec i SATURN); [tauto|].
  destruct (Z.eqb_spec i URANUS); [tauto|].
  destruct (Z.eqb_spec i NEPTUNE); [tauto|].
  discriminate.
Qed.

(** The row the index arithmetic of [planet_get_vmag] selects is the row
    of the planet: its second entry is the magnitude listed under the
    name of the planet. *)
Lemma VIS_ELEMENTS_row (i : Z) :
  vmag_switch i = VmagPlanet ->
  exists v0 A B C : R,
    VIS_ELEMENTS !! Z.to_nat ((i - MERCURY) ÷ 100 + 1)
    = Some (v0, base_magnitude i, A, B, C).
Proof.
  intros H. apply vmag_switch_planet in H.
  destruct H as [-> | [-> | [-> | [-> | [-> | [-> | ->]]]]]];
    do 4 eexists; reflexivity.
Qed.

Section VmagFacts.

Context `{Eph : Ephemeris} `{Lib : SweLib}.

(** [rings_vmag] for a body that is not Saturn. *)
Lemma rings_vmag_none (fuel : nat) (planet : nat) (obs : observer_t)
      (obsf : observer_frame_t) (w : world) (pl : planet_t) :
  w !! planet = Some pl -> id pl <> SATURN ->
  rings_vmag fuel planet obs obsf w = Some (0, w).
Proof.
  intros Hpl Hid. unfold rings_vmag. unfold_monad. rewrite Hpl.
  destruct (Z.eqb_spec (id pl) SATURN); [contradiction|]. reflexivity.
Qed.

(** A planet keeps its identifier through a heliocentric and an
    observer-relative query. *)
Lemma lookup_after_queries (fuel : nat) (planet : nat) (obs : observer_t)
      (w w1 w2 : world) (pvh pvo : pv_t) (i : nat) (pl : planet_t) :
  planet_get_pvh fuel planet obs w = Some (pvh, w1) ->
  planet_get_pvo fuel planet obs true w1 = Some (pvo, w2) ->
  w !! i = Some pl ->
  exists pl2, w2 !! i = Some pl2 /\ static_part pl2 = static_part pl.
Proof.
  intros H1 H2 Hpl.
  apply keeps_planet_get_pvh in H1. apply keeps_planet_get_pvo in H2.
  apply (static_lookup w w2 i pl); [congruence|exact Hpl].
Qed.

End VmagFacts.

(** X11.  For the seven major planets the index arithmetic of
    [planet_get_vmag] selects the row of the planet in [VIS_ELEMENTS],
    and the formula is normalised as the table says: at one astronomical
    unit from the Sun and from the observer and at phase angle 0, the
    magnitude returned is the tabulated magnitude of the planet plus the
    ring term; the ring term is 0, and [rings_vmag] writes nothing, for
    every planet but Saturn. *)
Theorem planet_get_vmag_base (Eph : Ephemeris) (Lib : SweLib)
        (cat : catalog) (fuel : nat) (planet : nat) (obs : observer_t)
        (obsf : observer_frame_t) (w w1 w2 w3 : world) (pl : planet_t)
        (pvh pvo : pv_t) (rings : R) :
  w !! planet = Some pl ->
  vmag_switch (id pl) = VmagPlanet ->
  planet_get_pvh fuel planet obs w = Some (pvh, w1) ->
  planet_get_pvo fuel planet obs true w1 = Some (pvo, w2) ->
  rings_vmag fuel planet obs obsf w2 = Some (rings, w3) ->
  vec3_norm (fst pvh) = 1 ->
  vec3_norm (fst pvo) = 1 ->
  eraSepp (fst pvh) (fst pvo) = 0 ->
  planet_get_vmag cat fuel planet obs obsf w
  = Some (base_magnitude (id pl) + rings, w3) /\
  (id pl <> SATURN -> rings = 0 /\ w3 = w2).
Proof.
  intros Hpl Hsw Hpvh Hpvo Hrings Hn1 Hn2 Hsep. split.
  - unfold planet_get_vmag. unfold_monad. rewrite Hpl, Hsw, Hpvh, Hpvo.
    destruct (VIS_ELEMENTS_row _ Hsw) as (v0 & A & B & C & ->).
    rewrite Hrings. do 2 f_equal.
    rewrite Hn1, Hn2, Hsep, Rmult_1_l, log10_1. ring.
  - intros Hid.
    destruct (lookup_after_queries _ _ _ _ _ _ _ _ _ _ Hpvh Hpvo Hpl)
      as (pl2 & Hpl2 & Hst).
    rewrite (rings_vmag_none fuel planet obs obsf w2 pl2 Hpl2) in Hrings.
    + injection Hrings as <- <-. auto.
    + rewrite (static_part_id _ _ Hst). exact Hid.
Qed.

Lemma observer_cache_hit_unit (pl : planet_t) :
  last_full_update pl = 58000 -> update_delta_s pl = 1.5 ->
  pvh_cache_hit pl (observer_at 58000 1) = true.
Proof.
  intros Hu Hd. apply pvh_cache_hit_now; simpl; rewrite ?Hu, ?Hd; lra.
Qed.

Lemma planet_get_vmag_base_witness :
  planet_get_vmag (Eph := still_ephemeris) (Lib := flat_rings) [dark_phys]
                  1 0 (observer_at 58000 1) plain_frame [mars_unit]
  = Some (base_magnitude MARS + 0, [mars_unit]).
Proof.
  apply (planet_get_vmag_base still_ephemeris flat_rings [dark_phys] 1 0
           (observer_at 58000 1) plain_frame [mars_unit] [mars_unit]
           [mars_unit] [mars_unit] mars_unit (at_x 1) (at_x 1) 0).
  - reflexivity.
  - reflexivity.
  - rewrite (planet_get_pvh_hit 0 0 (observer_at 58000 1) [mars_unit]
               mars_unit eq_refl
               (observer_cache_hit_unit mars_unit eq_refl eq_refl)).
    change (last_full_pvh mars_unit) with (at_x 1).
    rewrite eraPvu_at_x. reflexivity.
  - exact (planet_get_pvo_hit 1 0 (observer_at 58000 1) [mars_unit]
             mars_unit eq_refl eq_refl).
  - reflexivity.
  - rewrite vec3_norm_at_x. apply Rabs_R1.
  - rewrite vec3_norm_at_x. apply Rabs_R1.
  - apply eraSepp_aligned; lra.
Defined.

(** X12.  For a body outside the list of the switch, of
    positive albedo and radius, the absolute term of [planet_get_vmag]
    is the absolute magnitude [H] of the size-magnitude relation of
    asteroids: the diameter in kilometres is
    [1329 / sqrt albedo * 10 ^ (- H / 5)]; the magnitude returned is [H]
    plus the distance term [5 * log10 (rho * rp)]. *)
Theorem planet_get_vmag_minor (Eph : Ephemeris) (Lib : SweLib)
        (cat : catalog) (fuel : nat) (planet : nat) (obs : observer_t)
        (obsf : observer_frame_t) (w w1 w2 : world) (pl : planet_t)
        (ph : planet_phys_t) (pvh pvo : pv_t) :
  w !! planet = Some pl ->
  cat !! planet = Some ph ->
  vmag_switch (id pl) = VmagDefault ->
  0 < albedo ph ->
  0 < radius_m pl ->
  planet_get_pvh fuel planet obs w = Some (pvh, w1) ->
  planet_get_pvo fuel planet obs true w1 = Some (pvo, w2) ->
  exists H : R,
    planet_get_vmag cat fuel planet obs obsf w
    = Some (H + 5 * log10 (vec3_norm (fst pvh) * vec3_norm (fst pvo)), w2) /\
    H = absolute_magnitude (2 * radius_m pl / 1000) (albedo ph) /\
    2 * radius_m pl / 1000 = 1329 / sqrt (albedo ph) * Rpower 10 (- H / 5).
Proof.
  intros Hpl Hph Hsw Ha Hr Hpvh Hpvo.
  assert (Hs : 0 < sqrt (albedo ph)) by (apply sqrt_lt_R0; exact Ha).
  set (K := 1329 / (2 * radius_m pl / 1000 * sqrt (albedo ph))).
  assert (HK : 0 < K).
  { unfold K. apply Rdiv_lt_0_compat; [lra|].
    apply Rmult_lt_0_compat; [lra|exact Hs]. }
  exists (5 * log10 K). split; [|split].
  - unfold planet_get_vmag, get_phys. unfold_monad.
    rewrite Hpl, Hsw, Hph, Hpvh, Hpvo. do 2 f_equal. f_equal.
    replace (sqrt (albedo ph) * 2.0 * radius_m pl / 1000.0 / 1329.0)
      with (1 / K).
    + rewrite log10_inv by exact HK. lra.
    + unfold K. replace 2.0 with 2 by lra.
      replace 1000.0 with 1000 by lra. replace 1329.0 with 1329 by lra.
      field. split; lra.
  - reflexivity.
  - unfold Rpower, log10.
    replace (- (5 * (ln K / ln 10)) / 5 * ln 10) with (- ln K)
      by (field; pose proof ln_10_pos; lra).
    rewrite exp_Ropp, exp_ln by exact HK.
    unfold K. field. split; lra.
Qed.

Lemma planet_get_vmag_minor_witness :
  exists H : R,
    planet_get_vmag (Eph := still_ephemeris) (Lib := flat_rings)
                    [dark_phys] 1 0 (observer_at 58000 1) plain_frame
                    [ceres_unit]
    = Some (H + 5 * log10 (vec3_norm (fst (at_x 1))
                           * vec3_norm (fst (at_x 1))), [ceres_unit]) /\
    H = absolute_magnitude (2 * radius_m ceres_unit / 1000)
                           (albedo dark_phys) /\
    2 * radius_m ceres_unit / 1000
    = 1329 / sqrt (albedo dark_phys) * Rpower 10 (- H / 5).
Proof.
  apply (planet_get_vmag_minor still_ephemeris flat_rings [dark_phys] 1 0
           (observer_at 58000 1) plain_frame [ceres_unit] [ceres_unit]
           [ceres_unit] ceres_unit dark_phys (at_x 1) (at_x 1)).
  - reflexivity.
  - reflexivity.
  - reflexivity.
  - simpl. lra.
  - simpl. lra.
  - rewrite (planet_get_pvh_hit 0 0 (observer_at 58000 1) [ceres_unit]
               ceres_unit eq_refl
               (observer_cache_hit_unit ceres_unit eq_refl eq_refl)).
    change (last_full_pvh ceres_unit) with (at_x 1).
    rewrite eraPvu_at_x. reflexivity.
  - exact (planet_get_pvo_hit 1 0 (observer_at 58000 1) [ceres_unit]
             ceres_unit eq_refl eq_refl).
Defined.

(** ** The magnitude of the Moon *)

Lemma log10_mult (x y : R) :
  0 < x -> 0 < y -> log10 (x * y) = log10 x + log10 y.
Proof.
  intros Hx Hy. unfold log10. rewrite ln_mult by assumption.
  field. pose proof ln_10_pos. lra.
Qed.

Lemma log10_two_million : log10 2000000 < 6.31.
Proof.
  assert (H : INR 100 * log10 2000000 + INR 0 < INR 631).
  { apply log10_pow_upper; [lra|].
    change 2000000 with (IZR 2000000). change 10 with (IZR 10).
    rewrite !pow_IZR, <- mult_IZR. apply IZR_lt. vm_compute. reflexivity. }
  inr_literals H. lra.
Qed.

Lemma log10_just_above_one : log10 (2000001 / 2000000) < 0.001.
Proof.
  assert (H : INR 1000 * log10 (2000001 / 2000000) + INR 0 < INR 1).
  { apply log10_pow_upper; [lra|].
    apply (ratio_pow_lt 2000001 2000000 1000 0 1); [lia|].
    vm_compute. reflexivity. }
  inr_literals H. lra.
Qed.

(** The term of [moon_get_vmag] that depends on the elongation. *)
Lemma moon_elongation_term (c : R) :
  -1 <= c <= 1 ->
  -0.0025
  < 2.5 * (log10 PI - log10 (PI / 2.0 * (1.0 + 1e-6 - c)))
  < 15.775.
Proof.
  intros Hc. pose proof PI_RGT_0 as Hpi.
  set (u := (1.0 + 1e-6 - c) / 2).
  assert (Hu : 1 / 2000000 <= u <= 2000001 / 2000000) by (unfold u; lra).
  replace (PI / 2.0 * (1.0 + 1e-6 - c)) with (PI * u) by (unfold u; lra).
  rewrite log10_mult by lra.
  assert (Hup : log10 u < 0.001).
  { apply Rle_lt_trans with (log10 (2000001 / 2000000));
      [apply log10_le; lra | apply log10_just_above_one]. }
  assert (Hlo : -6.31 < log10 u).
  { apply Rlt_le_trans with (log10 (1 / 2000000)).
    - rewrite log10_inv by lra. pose proof log10_two_million. lra.
    - apply log10_le; lra. }
  lra.
Qed.

(** X13.  The small term added inside the logarithm of
    [moon_get_vmag] keeps its argument away from zero, so the magnitude
    is bounded whatever the elongation: it lies within 0.01 below and
    15.78 above [-12.7 + 5 * log10 (dist / 0.0025)], where [dist] is the
    distance of the Moon returned by [planet_get_pvo]. *)
Theorem moon_get_vmag_bounds (Eph : Ephemeris) (fuel : nat) (moon : nat)
        (obs : observer_t) (w w' : world) (m : R) :
  moon_get_vmag fuel moon obs w = Some (m, w') ->
  exists (pvh pvo : pv_t) (w1 : world),
    planet_get_pvh fuel moon obs w = Some (pvh, w1) /\
    planet_get_pvo fuel moon obs true w1 = Some (pvo, w') /\
    -12.71 + 5 * log10 (vec3_norm (fst pvo) / 0.0025) < m
    < 3.08 + 5 * log10 (vec3_norm (fst pvo) / 0.0025).
Proof.
  intros Hrun. unfold moon_get_vmag in Hrun.
  apply bind_inv in Hrun as (pvh & w1 & Hpvh & Hrun).
  apply bind_inv in Hrun as (pvo & w2 & Hpvo & Hret).
  injection Hret as <- <-.
  exists pvh, pvo, w1. split; [exact Hpvh|]. split; [exact Hpvo|].
  pose proof (moon_elongation_term
                (cos (eraSepp (fst pvo) (fst (sun_pvo obs))))
                (COS_bound _)) as Hterm.
  lra.
Qed.

Lemma moon_full_vmag :
  exists m : R,
    moon_get_vmag (Eph := still_ephemeris) 1 1 (observer_at 58000 1)
                  sun_moon_world = Some (m, sun_moon_world).
Proof.
  eexists. unfold moon_get_vmag. unfold_monad.
  rewrite (planet_get_pvh_hit 0 1 (observer_at 58000 1) sun_moon_world
             moon_full eq_refl
             (observer_cache_hit_unit moon_full eq_refl eq_refl)).
  rewrite (planet_get_pvo_hit 1 1 (observer_at 58000 1) sun_moon_world
             moon_full eq_refl eq_refl).
  reflexivity.
Qed.

Lemma moon_get_vmag_bounds_witness :
  exists (m : R) (pvh pvo : pv_t) (w1 : world),
    moon_get_vmag (Eph := still_ephemeris) 1 1 (observer_at 58000 1)
                  sun_moon_world = Some (m, sun_moon_world) /\
    planet_get_pvh (Eph := still_ephemeris) 1 1 (observer_at 58000 1)
                   sun_moon_world = Some (pvh, w1) /\
    planet_get_pvo (Eph := still_ephemeris) 1 1 (observer_at 58000 1) true
                   w1 = Some (pvo, sun_moon_world) /\
    -12.71 + 5 * log10 (vec3_norm (fst pvo) / 0.0025) < m
    < 3.08 + 5 * log10 (vec3_norm (fst pvo) / 0.0025).
Proof.
  destruct moon_full_vmag as [m Hrun].
  destruct (moon_get_vmag_bounds still_ephemeris 1 1 (observer_at 58000 1)
              sun_moon_world sun_moon_world m Hrun)
    as (pvh & pvo & w1 & H).
  exists m, pvh, pvo, w1. split; [exact Hrun | exact H].
Defined.

(** ** The rings *)

Lemma ring_term_range (s : R) :
  -1 <= s <= 1 -> -1.35 <= (-2.60 + 1.25 * s) * s <= 3.85.
Proof. intros Hs. split; nra. Qed.

Lemma ring_term_nonpos (s : R) :
  0 <= s <= 1 -> (-2.60 + 1.25 * s) * s <= 0.
Proof. intros Hs. nra. Qed.

(** X14.  [rings_vmag] is 0, and writes nothing, for every body
    but Saturn; for Saturn the adjustment lies between -1.35 and 3.85
    whatever the ring theory answers, and it never dims the planet (it is
    at most 0) when the tilts the ring theory answers are within a half
    turn. *)
Theorem rings_vmag_range (Eph : Ephemeris) (Lib : SweLib)
        (fuel : nat) (planet : nat) (obs : observer_t)
        (obsf : observer_frame_t) (w w' : world) (pl : planet_t) (r : R) :
  w !! planet = Some pl ->
  rings_vmag fuel planet obs obsf w = Some (r, w') ->
  (id pl <> SATURN -> r = 0 /\ w' = w) /\
  -1.35 <= r <= 3.85 /\
  ((forall a b c d e f : R, Rabs (fst (satrings a b c d e f)) <= PI) ->
   r <= 0).
Proof.
  intros Hpl Hrun. split.
  { intros Hid. rewrite (rings_vmag_none fuel planet obs obsf w pl Hpl Hid)
      in Hrun. injection Hrun as <- <-. auto. }
  unfold rings_vmag in Hrun. unfold_monad. rewrite Hpl in Hrun.
  destruct (negb (id pl =? SATURN)%Z).
  { injection Hrun as <- _. split; [lra|]. intros _. lra. }
  destruct (planet_get_pvh fuel planet obs w) as [[pvh w1]|];
    [|discriminate].
  destruct (eraC2s (mat3_mul_vec3 (ri2e obsf) (fst pvh))) as [hlon hlat].
  destruct (eraC2s (mat3_mul_vec3 (ri2e obsf) (fst (earth_pvh obs))))
    as [earth_hlon earth_hlat].
  pose proof (fun H : forall a b c d e f : R,
                  Rabs (fst (satrings a b c d e f)) <= PI =>
                H hlat hlon (vec3_norm (fst pvh)) earth_hlon
                  (vec3_norm (fst (earth_pvh obs))) (ut1 obsf + DJM0))
    as Htilt.
  destruct (satrings hlat hlon (vec3_norm (fst pvh)) earth_hlon
                     (vec3_norm (fst (earth_pvh obs))) (ut1 obsf + DJM0))
    as [et st].
  injection Hrun as <- _. split.
  - apply ring_term_range. apply SIN_bound.
  - intros H. apply ring_term_nonpos. split.
    + apply sin_ge_0; [apply Rabs_pos | exact (Htilt H)].
    + apply SIN_bound.
Qed.

Lemma saturn_rings_run :
  exists r : R,
    rings_vmag (Eph := still_ephemeris) (Lib := tilted_rings) 1 0
               (observer_at 58000 1) plain_frame [saturn_unit]
    = Some (r, [saturn_unit]).
Proof.
  eexists. unfold rings_vmag. unfold_monad.
  change ([saturn_unit] !! 0%nat) with (Some saturn_unit). cbv beta iota.
  change (negb (id saturn_unit =? SATURN)%Z) with false. cbv beta iota.
  rewrite (planet_get_pvh_hit 0 0 (observer_at 58000 1) [saturn_unit]
             saturn_unit eq_refl
             (observer_cache_hit_unit saturn_unit eq_refl eq_refl)).
  reflexivity.
Qed.

Lemma rings_vmag_range_witness :
  exists r : R,
    rings_vmag (Eph := still_ephemeris) (Lib := tilted_rings) 1 0
               (observer_at 58000 1) plain_frame [saturn_unit]
    = Some (r, [saturn_unit]) /\
    -1.35 <= r <= 0.
Proof.
  destruct saturn_rings_run as [r Hrun].
  exists r. split; [exact Hrun|].
  destruct (rings_vmag_range still_ephemeris tilted_rings 1 0
              (observer_at 58000 1) plain_frame [saturn_unit] [saturn_unit]
              saturn_unit r eq_refl Hrun) as (_ & Hrange & Hdim).
  split; [apply Hrange|]. apply Hdim.
  intros a b c d e f. simpl. pose proof PI_lower.
  rewrite Rabs_pos_eq; lra.
Defined.
(** ** The parent chain *)

Section Chain.

Context `{Eph : Ephemeris}.

Lemma planet_get_pvh_unfold (fuel : nat) (planet : nat) (obs : observer_t) :
  planet_get_pvh (S fuel) planet obs
  = (do pl <- get_planet planet;
     if pvh_cache_hit pl obs then
       ret (eraPvu (tt obs - last_full_update pl) (last_full_pvh pl))
     else
       let parent_pvh : M pv_t :=
         match parent pl with
         | Some q => planet_get_pvh fuel q obs
         | None => fail
         end in
       let cache (pvh : pv_t) : M pv_t :=
         run modify_planet planet (set_pvh_cache (eraCpv pvh) (tt obs));
         ret pvh in
       match pvh_switch (id pl) with
       | CaseEarth => ret (eraCpv (earth_pvh obs))
       | CaseSun => ret eraZpv
       | CaseMoon =>
           let p0 := moon_icrf_geocentric_pos (tt obs) in
           let p1 := moon_icrf_geocentric_pos (tt obs + 1) in
           let p1 := vec3_sub p1 p0 in
           ret (eraPvppv (p0, p1) (earth_pvh obs))
       | CasePlan94 =>
           let n := ((id pl - MERCURY) ÷ 100 + 1)%Z in
           cache (eraPlan94 DJM0 (tt obs) n)
       | CaseL12 =>
           do ppvh <- parent_pvh;
           let pvh := l12 DJM0 (tt obs) (id pl - IO + 1)%Z in
           cache (vec3_add (fst pvh) (fst ppvh),
                  vec3_add (snd pvh) (snd ppvh))
       | CaseDefault =>
           do ppvh <- parent_pvh;
           let pvh := orbit_compute_pv 0 (tt obs) (orbit pl) 0 0 in
           cache (vec3_add (fst pvh) (fst ppvh),
                  vec3_add (snd pvh) (snd ppvh))
       end)%monad.
Proof. reflexivity. Qed.

(** A larger recursion budget does not change an answer. *)
Lemma planet_get_pvh_fuel (fuel : nat) :
  forall (planet : nat) (obs : observer_t) (w : world) (r : pv_t * world),
    planet_get_pvh fuel planet obs w = Some r ->
    planet_get_pvh (S fuel) planet obs w = Some r.
Proof.
  induction fuel as [|fuel IH]; intros planet obs w r Hrun;
    [discriminate|].
  rewrite planet_get_pvh_unfold in Hrun |- *. unfold_monad.
  destruct (w !! planet) as [pl|]; [|discriminate].
  destruct (pvh_cache_hit pl obs); [exact Hrun|].
  destruct (pvh_switch (id pl)); try exact Hrun.
  - destruct (parent pl) as [q|]; [|discriminate].
    destruct (planet_get_pvh fuel q obs w) as [[ppvh w1]|] eqn:Hq;
      [|discriminate].
    rewrite (IH _ _ _ _ Hq). exact Hrun.
  - destruct (parent pl) as [q|]; [|discriminate].
    destruct (planet_get_pvh fuel q obs w) as [[ppvh w1]|] eqn:Hq;
      [|discriminate].
    rewrite (IH _ _ _ _ Hq). exact Hrun.
Qed.

(** A heliocentric query leaves the bodies off the parent chain as they
    are. *)
Lemma planet_get_pvh_off_chain (fuel : nat) :
  forall (planet : nat) (obs : observer_t) (w w' : world) (r : pv_t)
         (i : nat),
    planet_get_pvh fuel planet obs w = Some (r, w') ->
    ~ In i (pvh_chain w fuel planet) ->
    w' !! i = w !! i.
Proof.
  induction fuel as [|fuel IH]; intros planet obs w w' r i Hrun Hi;
    [discriminate|].
  rewrite planet_get_pvh_unfold in Hrun. unfold_monad.
  simpl in Hi.
  destruct (w !! planet) as [pl|]; [|discriminate].
  destruct (pvh_cache_hit pl obs); [now injection Hrun as _ <-|].
  assert (Hne : planet <> i) by tauto.
  destruct (pvh_switch (id pl));
    try (now injection Hrun as _ <-).
  - injection Hrun as _ <-. now rewrite list_lookup_alter_ne.
  - destruct (parent pl) as [q|]; [|discriminate].
    destruct (planet_get_pvh fuel q obs w) as [[ppvh w1]|] eqn:Hq;
      [|discriminate].
    injection Hrun as _ <-. rewrite list_lookup_alter_ne by exact Hne.
    apply (IH _ _ _ _ _ _ Hq). tauto.
  - destruct (parent pl) as [q|]; [|discriminate].
    destruct (planet_get_pvh fuel q obs w) as [[ppvh w1]|] eqn:Hq;
      [|discriminate].
    injection Hrun as _ <-. rewrite list_lookup_alter_ne by exact Hne.
    apply (IH _ _ _ _ _ _ Hq). tauto.
Qed.

End Chain.

(** X15.  A heliocentric query is local to the parent chain:
    a run of [planet_get_pvh] that returns leaves every planet that is
    neither the queried body nor one of the ancestors its position is
    computed from exactly as it was, caches included. *)
Theorem planet_get_pvh_local (Eph : Ephemeris) (fuel : nat) (planet : nat)
        (obs : observer_t) (w w' : world) (r : pv_t) (i : nat) :
  planet_get_pvh fuel planet obs w = Some (r, w') ->
  ~ In i (pvh_chain w fuel planet) ->
  w' !! i = w !! i.
Proof. apply planet_get_pvh_off_chain. Qed.

Lemma himalia_pvh :
  exists (r : pv_t) (w' : world),
    planet_get_pvh (Eph := still_ephemeris) 2 1 (observer_at 58000 1)
                   (himalia_world ++ [mars_cached]) = Some (r, w').
Proof. apply planet_get_pvh_total. reflexivity. Qed.

Lemma planet_get_pvh_local_witness :
  exists (r : pv_t) (w' : world),
    planet_get_pvh (Eph := still_ephemeris) 2 1 (observer_at 58000 1)
                   (himalia_world ++ [mars_cached]) = Some (r, w') /\
    w' !! 2%nat = (himalia_world ++ [mars_cached]) !! 2%nat.
Proof.
  destruct himalia_pvh as (r & w' & Hrun).
  exists r, w'. split; [exact Hrun|].
  apply (planet_get_pvh_local still_ephemeris 2 1 (observer_at 58000 1)
           (himalia_world ++ [mars_cached]) w' r 2 Hrun).
  simpl. intros [H | [H | H]]; [discriminate H | discriminate H | exact H].
Defined.

(** ** The relative state of a satellite *)

Lemma vec3_add_sub (a b : vec3) : vec3_sub (vec3_add a b) b = a.
Proof.
  destruct a as [[a0 a1] a2], b as [[b0 b1] b2].
  unfold vec3_sub, vec3_add, vx, vy, vz; simpl.
  repeat f_equal; ring.
Qed.

(** X16.  For a body on the two-body path whose
    heliocentric cache is stale, the state of the parent cancels out of
    [planet_compute_orbit_elements]: the parent is queried twice (once
    directly, once inside the query on the body) with the same answer,
    and the relative position and velocity handed to
    [orbit_elements_from_pv] are exactly those [orbit_compute_pv] gave
    for the stored elements, with the gravitational parameter of the
    parent's mass. *)
Theorem planet_compute_orbit_elements_relative
        (Eph : Ephemeris) (Lib : SweLib) (cat : catalog)
        (fuel : nat) (planet : nat) (obs : observer_t) (w : world)
        (pl pq : planet_t) (q : nat) (qh : planet_phys_t) :
  w !! planet = Some pl ->
  parent pl = Some q ->
  w !! q = Some pq ->
  cat !! q = Some qh ->
  pvh_switch (id pl) = CaseDefault ->
  pvh_cache_hit pl obs = false ->
  tt obs <> 0 ->
  0 < update_delta_s pq ->
  ~ In planet (pvh_chain w fuel q) ->
  pvh_resolves w fuel q = true ->
  exists w' : world,
    planet_compute_orbit_elements cat (S fuel) planet obs w
    = Some (orbit_elements_from_pv
              (fst (orbit_compute_pv 0 (tt obs) (orbit pl) 0 0))
              (snd (orbit_compute_pv 0 (tt obs) (orbit pl) 0 0))
              (gravitational_parameter (mass qh)), w').
Proof.
  intros Hpl Hpar Hpq Hqh Hsw Hmiss Hnz Hd Hoff Hres.
  destruct (planet_get_pvh_total fuel q obs w Hres) as (ppvh & w1 & Hq).
  pose proof (planet_get_pvh_fuel _ _ _ _ _ Hq) as Hq1.
  pose proof (planet_get_pvh_off_chain _ _ _ _ _ _ _ Hq Hoff) as Hsame.
  pose proof (planet_get_pvh_requery _ _ _ _ _ _ _ Hpq Hnz Hd Hq) as Hq2.
  eexists.
  unfold planet_compute_orbit_elements, get_phys.
  unfold bind at 1. unfold get_planet at 1. rewrite Hpl, Hpar.
  unfold bind at 1. rewrite Hqh.
  unfold bind at 1. rewrite Hq1.
  unfold bind at 1. rewrite planet_get_pvh_unfold.
  unfold_monad. rewrite Hsame, Hpl, Hmiss, Hsw, Hpar, Hq2.
  cbn [fst snd]. rewrite !vec3_add_sub. reflexivity.
Qed.

Lemma planet_compute_orbit_elements_relative_witness :
  exists w' : world,
    planet_compute_orbit_elements (Eph := still_ephemeris)
      (Lib := flat_rings) [jupiter_phys; dark_phys] 2 1
      (observer_at 58000 1) himalia_world
    = Some (orbit_elements_from_pv (SweLib := flat_rings)
              (fst (orbit_compute_pv (Ephemeris := still_ephemeris)
                      0 58000 (orbit himalia_fresh) 0 0))
              (snd (orbit_compute_pv (Ephemeris := still_ephemeris)
                      0 58000 (orbit himalia_fresh) 0 0))
              (gravitational_parameter (mass jupiter_phys)), w').
Proof.
  apply (planet_compute_orbit_elements_relative still_ephemeris flat_rings
           [jupiter_phys; dark_phys] 1 1 (observer_at 58000 1)
           himalia_world himalia_fresh jupiter_fresh 0 jupiter_phys).
  - reflexivity.
  - reflexivity.
  - reflexivity.
  - reflexivity.
  - reflexivity.
  - apply pvh_cache_hit_fresh. reflexivity.
  - simpl. lra.
  - simpl. lra.
  - simpl. intros [H | H]; [discriminate H | exact H].
  - reflexivity.
Defined.
(** ** Object information *)

(** X17.  The return code of [planet_get_info]: a selector
    other than the four the switch lists is answered with 1, without
    writing a value or touching the world, whatever the planet pointer
    and the recursion budget; every run on one of the four selectors
    that returns answers 0 and writes a value; and the code is 0 as well
    when the value written is the not-a-number sentinel, as for the
    phase of the Earth and of the Sun. *)
Theorem planet_get_info_codes (Eph : Ephemeris) (Lib : SweLib)
        (cat : catalog) (fuel : nat) (planet : nat) (obs : observer_t)
        (obsf : observer_frame_t) (w : world) :
  (forall n : Z,
      planet_get_info cat fuel planet obs obsf (INFO_OTHER n) w
      = Some ((1%Z, None), w)) /\
  (forall (info : info_t) (w' : world) (code : Z)
          (out : option info_value),
      planet_get_info cat fuel planet obs obsf info w
      = Some ((code, out), w') ->
      (code = 0%Z /\ out <> None /\ forall n, info <> INFO_OTHER n) \/
      (code = 1%Z /\ out = None /\ w' = w /\ exists n, info = INFO_OTHER n))
  /\
  (forall pl : planet_t,
      w !! planet = Some pl -> id pl = EARTH \/ id pl = SUN ->
      planet_get_info cat fuel planet obs obsf INFO_PHASE w
      = Some ((0%Z, Some (OutDouble NAN)), w)).
Proof.
  split; [reflexivity|]. split.
  - intros info w' code out Hrun.
    destruct info; simpl in Hrun;
      try (apply bind_inv in Hrun as (v & w1 & _ & Hret);
           try (apply bind_inv in Hret as (v' & w2 & _ & Hret));
           injection Hret as <- <- _; left;
           repeat split; [discriminate | intros n; discriminate]).
    injection Hrun as <- <- <-. right. eauto.
  - intros pl Hpl Hid. simpl. unfold bind.
    rewrite (planet_get_phase_nan fuel planet obs w pl Hpl Hid).
    reflexivity.
Qed.

(** X18.  The answers of [planet_get_info] are consistent:
    after the position has been asked for ([INFO_PVO]), both homogeneous
    coordinates are 1, and asking for the angular radius
    ([INFO_RADIUS]) with the same observer gives the radius of the planet
    in astronomical units divided by the norm of that very position,
    without writing anything. *)
Theorem planet_get_info_radius_of_pvo
        (Eph : Ephemeris) (Lib : SweLib) (cat : catalog)
        (fuel : nat) (planet : nat) (obs : observer_t)
        (obsf : observer_frame_t) (w w1 : world) (pl : planet_t)
        (p4 v4 : vec4) :
  w !! planet = Some pl ->
  planet_get_info cat fuel planet obs obsf INFO_PVO w
  = Some ((0%Z, Some (OutPvo4 (p4, v4))), w1) ->
  snd p4 = 1 /\ snd v4 = 1 /\
  planet_get_info cat fuel planet obs obsf INFO_RADIUS w1
  = Some ((0%Z, Some (OutDouble (Num (radius_m pl / DAU
                                      / vec3_norm (fst p4))))), w1).
Proof.
  intros Hpl Hrun. simpl in Hrun.
  apply bind_inv in Hrun as (pvo4 & w2 & Hrun & Hret).
  injection Hret as -> ->.
  unfold planet_get_pvo4 in Hrun.
  apply bind_inv in Hrun as (pvo & w2 & Hpvo & Hret).
  injection Hret as <- <- <-.
  split; [reflexivity|]. split; [reflexivity|].
  pose proof (planet_get_pvo_requery _ _ _ _ _ _ Hpvo) as Hagain.
  destruct (static_lookup w w2 planet pl
              (keeps_planet_get_pvo _ _ _ _ _ _ _ Hpvo) Hpl)
    as (pl2 & Hpl2 & Hst).
  simpl. unfold_monad. rewrite Hpl2, Hagain.
  rewrite (static_part_radius _ _ Hst). reflexivity.
Qed.

Lemma planet_get_info_radius_of_pvo_witness :
  snd (fst (at_x 0.5), 1) = 1 /\ snd (snd (at_x 0.5), 1) = 1 /\
  planet_get_info (Eph := still_ephemeris) (Lib := flat_rings)
                  [dark_phys] 1 0 (observer_at 58000 1) plain_frame
                  INFO_RADIUS [mars_opposition]
  = Some ((0%Z, Some (OutDouble
                        (Num (radius_m mars_opposition / DAU
                              / vec3_norm (fst (fst (at_x 0.5), 1)))))),
          [mars_opposition]).
Proof.
  apply (planet_get_info_radius_of_pvo still_ephemeris flat_rings
           [dark_phys] 1 0 (observer_at 58000 1) plain_frame
           [mars_opposition] [mars_opposition] mars_opposition
           (fst (at_x 0.5), 1) (snd (at_x 0.5), 1)).
  - reflexivity.
  - simpl. unfold planet_get_pvo4, bind.
    rewrite mars_opposition_pvo. reflexivity.
Defined.

(** ** The rotation about the axis *)

(** X19.  [planet_get_rotation] turns the planet once per
    rotation period: a period later the angle is larger by a full turn,
    and at the epoch J2000.0 it is the offset; with no period (0) the
    angle is 0 whatever the offset and the date. *)
Theorem planet_get_rotation_turn (planet : planet_phys_t) (t : R) :
  (rot_period (rot planet) = 0 -> planet_get_rotation planet t = 0) /\
  (rot_period (rot planet) <> 0 ->
   planet_get_rotation planet (t + rot_period (rot planet))
   = planet_get_rotation planet t + 2 * PI /\
   planet_get_rotation planet DJM00 = rot_offset (rot planet)).
Proof.
  unfold planet_get_rotation.
  destruct (Req_dec_T (rot_period (rot planet)) 0) as [Hz|Hnz].
  - split; [reflexivity|]. intros H. contradiction.
  - split; [intros H; contradiction|]. intros _. split; field; exact Hnz.
Qed.

Lemma planet_get_rotation_turn_witness :
  planet_get_rotation spinning_phys (58000 + 1.03)
  = planet_get_rotation spinning_phys 58000 + 2 * PI /\
  planet_get_rotation spinning_phys DJM00 = 3.
Proof.
  apply (planet_get_rotation_turn spinning_phys 58000).
  simpl. lra.
Defined.

(** ** Shadows *)

(** X20.  [could_cast_shadow] answers true for a pair of
    bodies only if the two bodies have different identifiers, a target
    of the system of Jupiter (identifier from [IO] to [JUPITER]) has a
    caster of the same system, a target that is the Moon has the Earth
    as caster, and the caster is not farther from the Sun than the
    target, for the two heliocentric positions the run computed. *)
Theorem could_cast_shadow_only_if (Eph : Ephemeris) (fuel : nat)
        (a b : nat) (obs : observer_t) (w w' : world) :
  could_cast_shadow fuel (Some a) b obs w = Some (true, w') ->
  exists (pa pb : planet_t) (apvh bpvh : pv_t) (w1 : world),
    w !! a = Some pa /\ w !! b = Some pb /\
    id pa <> id pb /\
    ((IO <= id pb <= JUPITER)%Z -> (IO <= id pa <= JUPITER)%Z) /\
    (id pb = MOON -> id pa = EARTH) /\
    planet_get_pvh fuel a obs w = Some (apvh, w1) /\
    planet_get_pvh fuel b obs w1 = Some (bpvh, w') /\
    vec3_norm (fst apvh) <= vec3_norm (fst bpvh).
Proof.
  intros H. unfold could_cast_shadow in H. unfold_monad.
  destruct (w !! b) as [pb|] eqn:Hb; [|discriminate].
  destruct (w !! a) as [pa|] eqn:Ha; [|discriminate].
  destruct (Z.eqb_spec (id pb) (id pa)) as [|Hne]; [discriminate|].
  destruct (((IO <=? id pb) && (id pb <=? JUPITER))
            && ((id pa <? IO) || (JUPITER <? id pa)))%Z eqn:Hj;
    [discriminate|].
  destruct ((id pb =? MOON) && negb (id pa =? EARTH))%Z eqn:Hm;
    [discriminate|].
  destruct (planet_get_pvh fuel a obs w) as [[apvh w1]|] eqn:Hpa;
    [|discriminate].
  destruct (planet_get_pvh fuel b obs w1) as [[bpvh w2]|] eqn:Hpb;
    [|discriminate].
  destruct (Rgt_dec (vec3_norm2 (fst apvh)) (vec3_norm2 (fst bpvh)))
    as [|Hle]; [discriminate|].
  destruct (Rlt_dec _ _); [|discriminate]. injection H as <-.
  exists pa, pb, apvh, bpvh, w1.
  split; [reflexivity|]. split; [reflexivity|].
  split; [intros He; apply Hne; symmetry; exact He|].
  split.
  { intros Hrange.
    destruct (Z.leb_spec IO (id pb)); [|lia].
    destruct (Z.leb_spec (id pb) JUPITER); [|lia].
    destruct (Z.ltb_spec (id pa) IO); [discriminate|].
    destruct (Z.ltb_spec JUPITER (id pa)); [discriminate|]. lia. }
  split.
  { intros Hmoon. rewrite Hmoon in Hm. simpl in Hm.
    destruct (Z.eqb_spec (id pa) EARTH); [assumption|discriminate]. }
  split; [reflexivity|]. split; [exact Hpb|].
  unfold vec3_norm. apply sqrt_le_1_alt. lra.
Qed.

Lemma could_cast_shadow_only_if_witness :
  exists (pa pb : planet_t) (apvh bpvh : pv_t) (w1 : world),
    jovian_world !! 1%nat = Some pa /\ jovian_world !! 0%nat = Some pb /\
    id pa <> id pb /\
    ((IO <= id pb <= JUPITER)%Z -> (IO <= id pa <= JUPITER)%Z) /\
    (id pb = MOON -> id pa = EARTH) /\
    planet_get_pvh (Eph := still_ephemeris) 1 1 (observer_at 58000 1)
                   jovian_world = Some (apvh, w1) /\
    planet_get_pvh (Eph := still_ephemeris) 1 0 (observer_at 58000 1)
                   w1 = Some (bpvh, jovian_world) /\
    vec3_norm (fst apvh) <= vec3_norm (fst bpvh).
Proof.
  exact (could_cast_shadow_only_if still_ephemeris 1 1 0
           (observer_at 58000 1) jovian_world jovian_world
           jovian_io_casts).
Defined.

Lemma cmp_opp (x y : R) : cmp x y = (- cmp y x)%Z.
Proof.
  unfold cmp.
  destruct (Rgt_dec x y), (Rlt_dec x y), (Rgt_dec y x), (Rlt_dec y x);
    try reflexivity; lra.
Qed.

(** X21.  [sort_shadow_cmp] is a consistent comparison
    function, as sorting requires: swapping the arguments negates the
    result, the result is 0 exactly for equal radii and negative exactly
    when the first radius is the bigger one, and the order it induces is
    transitive. *)
Theorem sort_shadow_cmp_order (a b c : sphere) :
  sort_shadow_cmp a b = (- sort_shadow_cmp b a)%Z /\
  (sort_shadow_cmp a b = 0%Z <-> snd a = snd b) /\
  ((sort_shadow_cmp a b < 0)%Z <-> snd a > snd b) /\
  ((sort_shadow_cmp a b <= 0)%Z -> (sort_shadow_cmp b c <= 0)%Z ->
   (sort_shadow_cmp a c <= 0)%Z).
Proof.
  unfold sort_shadow_cmp. split; [|split; [|split]].
  - rewrite (cmp_opp (snd a) (snd b)). reflexivity.
  - unfold cmp.
    destruct (Rgt_dec (snd a) (snd b)), (Rlt_dec (snd a) (snd b));
      split; intros H; try lia; try lra.
  - unfold cmp.
    destruct (Rgt_dec (snd a) (snd b)), (Rlt_dec (snd a) (snd b));
      split; intros H; try lia; try lra.
  - unfold cmp.
    destruct (Rgt_dec (snd a) (snd b)), (Rlt_dec (snd a) (snd b)),
      (Rgt_dec (snd b) (snd c)), (Rlt_dec (snd b) (snd c)),
      (Rgt_dec (snd a) (snd c)), (Rlt_dec (snd a) (snd c));
      intros H1 H2; try lia; try lra.
Qed.
(** ** Children of a module *)

Lemma module_get_child_scan_found (id : string) (children : list nat) :
  forall (h h' : heap) (c : nat),
    module_get_child_scan id children h = Some (Some c, h') ->
    exists (pre post : list nat) (o : obj_t),
      children = pre ++ c :: post /\ none_named h id pre /\
      h !! c = Some o /\ obj_id o = Some id /\
      h' = alter take_ref c h.
Proof.
  induction children as [|p rest IH]; intros h h' c Hrun; simpl in Hrun;
    [discriminate|].
  destruct (h !! p) as [o|] eqn:Hp; [|discriminate].
  destruct (negb (0 <? obj_ref o)%Z); [discriminate|].
  assert (Hrest : module_get_child_scan id rest h = Some (Some c, h') ->
                  obj_id o <> Some id ->
                  exists (pre post : list nat) (o' : obj_t),
                    p :: rest = pre ++ c :: post /\ none_named h id pre /\
                    h !! c = Some o' /\ obj_id o' = Some id /\
                    h' = alter take_ref c h).
  { intros Hr Hne.
    destruct (IH _ _ _ Hr) as (pre & post & o' & -> & Hpre & Hc & Hid & ->).
    exists (p :: pre), post, o'. repeat split; auto.
    constructor; [eauto|exact Hpre]. }
  destruct (obj_id o) as [i|] eqn:Hi;
    [|apply Hrest; [exact Hrun|discriminate]].
  destruct (String.eqb_spec i id) as [->|Hne].
  - destruct (obj_ref o =? INT_MAX)%Z; [discriminate|].
    injection Hrun as <- <-.
    exists [], rest, o. repeat split; auto. constructor.
  - apply Hrest; [exact Hrun|]. intros He. injection He as He. contradiction.
Qed.

Lemma module_get_child_scan_none (id : string) (children : list nat) :
  forall (h h' : heap),
    module_get_child_scan id children h = Some (None, h') ->
    h' = h /\ none_named h id children.
Proof.
  induction children as [|p rest IH]; intros h h' Hrun; simpl in Hrun.
  { injection Hrun as <-. split; [reflexivity|constructor]. }
  destruct (h !! p) as [o|] eqn:Hp; [|discriminate].
  destruct (negb (0 <? obj_ref o)%Z); [discriminate|].
  destruct (obj_id o) as [i|] eqn:Hi.
  - destruct (String.eqb_spec i id) as [->|Hne].
    + destruct (obj_ref o =? INT_MAX)%Z; discriminate.
    + destruct (IH _ _ Hrun) as [-> Hrest]. split; [reflexivity|].
      constructor; [|exact Hrest].
      exists o. split; [exact Hp|]. rewrite Hi. intros He.
      injection He as He. contradiction.
  - destruct (IH _ _ Hrun) as [-> Hrest]. split; [reflexivity|].
    constructor; [|exact Hrest].
    exists o. split; [exact Hp|]. rewrite Hi. discriminate.
Qed.

Lemma module_get_child_scan_total (id : string) (children : list nat)
      (h : heap) :
  Forall (fun p => exists o, h !! p = Some o
                             /\ (0 < obj_ref o < INT_MAX)%Z) children ->
  exists (r : option nat) (h' : heap),
    module_get_child_scan id children h = Some (r, h').
Proof.
  induction children as [|p rest IH]; intros Hall; simpl; [eauto|].
  apply Forall_cons_1 in Hall as [(o & Hp & Hlo & Hhi) Hall].
  rewrite Hp.
  destruct (Z.ltb_spec 0 (obj_ref o)); [|lia]. simpl.
  destruct (obj_id o) as [i|]; [|exact (IH Hall)].
  destruct (String.eqb i id); [|exact (IH Hall)].
  destruct (Z.eqb_spec (obj_ref o) INT_MAX); [lia|eauto].
Qed.

(** X22.  [module_get_child] returns whenever every child
    of the module is a live object with a positive reference count
    below [INT_MAX]; the child it returns is the first one, in the order
    of the list, that carries the id (children without id are passed
    over), the only write is one more reference on that child, and the
    children after it are not looked at; when it returns the null
    pointer no child carries the id and nothing was written. *)
Theorem module_get_child_first (module : nat) (id : string) (h : heap)
        (m : obj_t) :
  h !! module = Some m ->
  (Forall (fun p => exists o, h !! p = Some o
                              /\ (0 < obj_ref o < INT_MAX)%Z)
          (obj_children m) ->
   exists (r : option nat) (h' : heap),
     module_get_child module id h = Some (r, h')) /\
  (forall (c : nat) (h' : heap),
      module_get_child module id h = Some (Some c, h') ->
      exists (pre post : list nat) (o : obj_t),
        obj_children m = pre ++ c :: post /\ none_named h id pre /\
        h !! c = Some o /\ obj_id o = Some id /\
        h' = alter take_ref c h) /\
  (forall h' : heap,
      module_get_child module id h = Some (None, h') ->
      h' = h /\ none_named h id (obj_children m)).
Proof.
  intros Hm. unfold module_get_child. rewrite Hm.
  split; [apply module_get_child_scan_total|].
  split; [intros c h'; apply module_get_child_scan_found|].
  intros h'. apply module_get_child_scan_none.
Qed.

Lemma module_get_child_first_witness :
  (exists (r : option nat) (h' : heap),
      module_get_child 0 "planets" tree_heap = Some (r, h')) /\
  (forall (c : nat) (h' : heap),
      module_get_child 0 "planets" tree_heap = Some (Some c, h') ->
      exists (pre post : list nat) (o : obj_t),
        [3%nat; 1%nat] = pre ++ c :: post /\
        none_named tree_heap "planets" pre /\
        tree_heap !! c = Some o /\ obj_id o = Some "planets" /\
        h' = alter take_ref c tree_heap) /\
  (forall h' : heap,
      module_get_child 0 "planets" tree_heap = Some (None, h') ->
      h' = tree_heap /\ none_named tree_heap "planets" [3%nat; 1%nat]).
Proof.
  destruct (module_get_child_first 0 "planets" tree_heap
              (mk_obj (Some "core") 1 None [3%nat; 1%nat]) eq_refl)
    as (Htotal & Hfound & Hnone).
  split; [|split; [exact Hfound | exact Hnone]].
  apply Htotal. simpl.
  repeat constructor; eexists; (split; [reflexivity|]); simpl;
    unfold INT_MAX; lia.
Defined.

(** ** Planets by id *)

Lemma planets_get_scan_found (id : string) (children : list nat) :
  forall (h h' : heap) (c : nat),
    planets_get_scan id children h = Some (Some c, h') ->
    exists o : obj_t,
      In c children /\ h !! c = Some o /\ obj_id o = Some id /\
      h' = alter take_ref c h.
Proof.
  induction children as [|p rest IH]; intros h h' c Hrun; simpl in Hrun;
    [discriminate|].
  destruct (h !! p) as [o|] eqn:Hp; [|discriminate].
  destruct (obj_id o) as [i|] eqn:Hi; [|discriminate].
  destruct (String.eqb_spec i id) as [->|Hne].
  - destruct (obj_ref o =? INT_MAX)%Z; [discriminate|].
    injection Hrun as <- <-. exists o. simpl. auto.
  - destruct (IH _ _ _ Hrun) as (o' & Hin & H'). exists o'. simpl. auto.
Qed.

Lemma planets_get_scan_none (id : string) (children : list nat)
      (h : heap) :
  Forall (fun p => exists (o : obj_t) (i : string),
              h !! p = Some o /\ obj_id o = Some i /\ i <> id) children ->
  planets_get_scan id children h = Some (None, h).
Proof.
  induction children as [|p rest IH]; intros Hall; simpl; [reflexivity|].
  apply Forall_cons_1 in Hall as [(o & i & Hp & Hi & Hne) Hall].
  rewrite Hp, Hi.
  destruct (String.eqb_spec i id); [contradiction|]. exact (IH Hall).
Qed.

(** X23.  [planets_get] finds an object only under a query
    that starts with PLANET and is the id of the object, and then takes
    one reference on it and writes nothing else; so, in a module whose
    children all have an id and none of these ids starts with PLANET,
    every query returns the null pointer and leaves the heap
    untouched. *)
Theorem planets_get_prefix (obj : nat) (id : string) (h : heap) :
  (forall (c : nat) (h' : heap),
      planets_get obj id h = Some (Some c, h') ->
      str_startswith id "PLANET" = true /\
      exists o : obj_t,
        h !! c = Some o /\ obj_id o = Some id /\
        h' = alter take_ref c h) /\
  (forall m : obj_t,
      h !! obj = Some m ->
      Forall (fun p => exists (o : obj_t) (i : string),
                  h !! p = Some o /\ obj_id o = Some i /\
                  str_startswith i "PLANET" = false) (obj_children m) ->
      planets_get obj id h = Some (None, h)).
Proof.
  unfold planets_get. split.
  - intros c h' Hrun.
    destruct (str_startswith id "PLANET"); [|discriminate].
    split; [reflexivity|]. simpl in Hrun.
    destruct (h !! obj) as [m|]; [|discriminate].
    destruct (planets_get_scan_found _ _ _ _ _ Hrun) as (o & _ & H).
    exists o. exact H.
  - intros m Hm Hall.
    destruct (str_startswith id "PLANET") eqn:Hid; [|reflexivity].
    simpl. rewrite Hm. apply planets_get_scan_none.
    eapply Forall_impl; [exact Hall|].
    intros p (o & i & Hp & Hi & Hpre). exists o, i.
    repeat split; auto. intros ->. congruence.
Qed.

Lemma planets_get_prefix_witness :
  planets_get 1 "PLANET MOON" tree_heap = Some (None, tree_heap).
Proof.
  destruct (planets_get_prefix 1 "PLANET MOON" tree_heap) as [_ Hnone].
  apply (Hnone (mk_obj (Some "planets") 1 (Some 0%nat) [2%nat; 4%nat])
               eq_refl).
  repeat constructor.
  - exists (mk_obj (Some "SUN") 1 (Some 1%nat) []), "SUN".
    repeat split; reflexivity.
  - exists (mk_obj (Some "MOON") 2 (Some 1%nat) []), "MOON".
    repeat split; reflexivity.
Defined.

(** ** Listing the objects of a module *)

Section ListFacts.

Context {obj state : Type}.

Lemma list_children_no_test (g g' : obj -> state -> (Z * double) * state)
      (max_mag : double) (f : option (obj -> state -> Z * state))
      (children : list obj) :
  forall s : state,
    list_children g false max_mag f children s
    = list_children g' false max_mag f children s.
Proof.
  induction children as [|c rest IH]; intros s; simpl; [reflexivity|].
  destruct f as [f'|]; [|apply IH].
  destruct (f' c s) as [r s2]. destruct (r =? 0)%Z; [apply IH|reflexivity].
Qed.

Lemma list_children_idle (g : obj -> state -> (Z * double) * state)
      (max_mag : double) (children : list obj) (s : state) :
  list_children g false max_mag None children s = s.
Proof. induction children as [|c rest IH]; simpl; auto. Qed.

End ListFacts.

(** X24.  The return value of [module_list_objs] for a
    class without [list] method: -1, with nothing called, when the class
    is not listable, and 0 otherwise, also when the callback stopped the
    iteration with a non-zero code; with a magnitude limit that is not a
    number no magnitude is asked for (the result does not depend on
    [obj_get_info]), and without callback nothing happens at all. *)
Theorem module_list_objs_codes {obj state : Type}
        (g g' : obj -> state -> (Z * double) * state)
        (children : list obj) (max_mag : double)
        (f : option (obj -> state -> Z * state)) (s : state) :
  module_list_objs g None false children max_mag f s = ((-1)%Z, s) /\
  fst (module_list_objs g None true children max_mag f s) = 0%Z /\
  module_list_objs g None true children NAN f s
  = module_list_objs g' None true children NAN f s /\
  module_list_objs g None true children NAN None s = (0%Z, s).
Proof.
  unfold module_list_objs; simpl. repeat split.
  - f_equal. apply list_children_no_test.
  - f_equal. apply list_children_idle.
Qed.

Lemma upto_stop_cons {A : Type} (stop : A -> bool) (x : A) (l : list A) :
  upto_stop stop (x :: l) = if stop x then [x] else x :: upto_stop stop l.
Proof. reflexivity. Qed.

(** X25.  The default loop of [module_list_objs] is a
    filter followed by a cut: when asking for a magnitude writes
    nothing, the children handed to the callback are, in the order of
    the list, those that are not brighter-limited out (their magnitude
    is unknown, not a number, or at most the limit), up to and including
    the first one on which the callback returns a non-zero code; and the
    call returns 0. *)
Theorem module_list_objs_collects {A : Type} (vmag : A -> Z * double)
        (code : A -> Z) (children log : list A) (max_mag : double) :
  module_list_objs (fun c s => (vmag c, s)) None true children max_mag
                   (Some (collector code)) log
  = (0%Z,
     log ++ upto_stop (fun c => negb (code c =? 0)%Z)
                      (List.filter (fun c => listed max_mag (vmag c))
                                   children)).
Proof.
  unfold module_list_objs. cbn [negb]. f_equal.
  destruct max_mag as [|lim]; cbn [isnan negb];
    revert log; induction children as [|c rest IH]; intros log;
    cbn [list_children List.filter upto_stop];
    try (now rewrite app_nil_r).
  - assert (Hl : listed NAN (vmag c) = true).
    { unfold listed, double_gt. destruct (snd (vmag c));
        now rewrite andb_false_r. }
    rewrite Hl, upto_stop_cons. unfold collector at 1.
    destruct (code c =? 0)%Z; cbn [negb].
    + rewrite IH, <- app_assoc. reflexivity.
    + reflexivity.
  - destruct (vmag c) as [r v] eqn:Hv. unfold listed at 1. cbn [fst snd].
    destruct ((r =? 0)%Z && double_gt v (Num lim)); cbn [negb].
    + apply IH.
    + rewrite upto_stop_cons. unfold collector at 1.
      destruct (code c =? 0)%Z; cbn [negb].
      * rewrite IH, <- app_assoc. reflexivity.
      * reflexivity.
Qed.

(** ** The path of an object *)

Lemma string_app_assoc (a b c : string) :
  (a +:+ b) +:+ c = a +:+ (b +:+ c).
Proof.
  induction a as [|x a IH]; [reflexivity|].
  change (String x ((a +:+ b) +:+ c) = String x (a +:+ (b +:+ c))).
  now rewrite IH.
Qed.

Lemma concat_snoc (sep : string) (ids : list string) (i : string) :
  ids <> [] ->
  String.concat sep (ids ++ [i]) = String.concat sep ids +:+ sep +:+ i.
Proof.
  induction ids as [|x ids IH]; intros Hne; [contradiction|].
  destruct ids as [|y ids]; [reflexivity|].
  change (String.concat sep ((x :: y :: ids) ++ [i]))
    with (x +:+ sep +:+ String.concat sep ((y :: ids) ++ [i])).
  rewrite IH by discriminate.
  change (String.concat sep (x :: y :: ids))
    with (x +:+ sep +:+ String.concat sep (y :: ids)).
  now rewrite !string_app_assoc.
Qed.

Lemma below_nonempty (h : heap) (root obj : nat) (ids : list string) :
  below h root obj ids -> ids <> [].
Proof.
  intros H. destruct H; [discriminate|].
  intros He. apply app_eq_nil in He as [_ He]. discriminate.
Qed.

Lemma module_get_path_of_below (h : heap) (root obj : nat)
      (ids : list string) :
  below h root obj ids ->
  module_get_path (length ids) obj root h
  = Some (PathStr (String.concat "." ids)).
Proof.
  intros H.
  induction H as [obj o i Ho Hp Hi | obj p o i ids Ho Hp Hne Hi Hb IH].
  - simpl. rewrite Ho, Hp, Hi, Nat.eqb_refl. reflexivity.
  - rewrite length_app, Nat.add_1_r. simpl. rewrite Ho, Hp, Hi.
    destruct (Nat.eqb_spec p root); [contradiction|].
    rewrite IH. rewrite concat_snoc by exact (below_nonempty _ _ _ _ Hb).
    reflexivity.
Qed.

Lemma below_of_module_get_path (h : heap) (root : nat) (fuel : nat) :
  forall (obj : nat) (s : string),
    module_get_path fuel obj root h = Some (PathStr s) ->
    exists ids : list string,
      below h root obj ids /\ s = String.concat "." ids.
Proof.
  induction fuel as [|fuel IH]; intros obj s Hrun; simpl in Hrun;
    [discriminate|].
  destruct (h !! obj) as [o|] eqn:Ho; [|discriminate].
  destruct (obj_parent o) as [p|] eqn:Hp; [|discriminate].
  destruct (obj_id o) as [i|] eqn:Hi; [|discriminate].
  destruct (Nat.eqb_spec p root) as [->|Hne].
  - injection Hrun as <-. exists [i]. split; [|reflexivity].
    eapply below_child; eauto.
  - destruct (module_get_path fuel p root h) as [[|base|]|] eqn:Hrec;
      try discriminate.
    injection Hrun as <-.
    destruct (IH _ _ Hrec) as (ids & Hb & ->).
    exists (ids ++ [i]). split.
    + eapply below_step; eauto.
    + rewrite concat_snoc by exact (below_nonempty _ _ _ _ Hb).
      reflexivity.
Qed.

(** X26.  [module_get_path] returns a string exactly for
    the objects below the root: when [root] is an ancestor of the object
    and every object on the way has an id, the call returns (with a
    recursion depth equal to the number of levels) the ids from the
    child of the root down to the object, joined by dots; and whenever a
    string is returned, the object is below the root and the string is
    that path. *)
Theorem module_get_path_joined (h : heap) (root obj : nat) :
  (forall ids : list string,
      below h root obj ids ->
      module_get_path (length ids) obj root h
      = Some (PathStr (String.concat "." ids))) /\
  (forall (fuel : nat) (s : string),
      module_get_path fuel obj root h = Some (PathStr s) ->
      exists ids : list string,
        below h root obj ids /\ s = String.concat "." ids).
Proof.
  split.
  - apply module_get_path_of_below.
  - intros fuel s. apply below_of_module_get_path.
Qed.

Lemma moon_below_core : below tree_heap 0 4 ["planets"; "MOON"].
Proof.
  apply (below_step tree_heap 0 4 1 (mk_obj (Some "MOON") 2 (Some 1%nat) [])
                    "MOON" ["planets"]); try reflexivity; [discriminate|].
  apply (below_child tree_heap 0 1
                     (mk_obj (Some "planets") 1 (Some 0%nat)
                             [2%nat; 4%nat]) "planets"); reflexivity.
Qed.

Lemma module_get_path_joined_witness :
  module_get_path 2 4 0 tree_heap = Some (PathStr "planets.MOON").
Proof.
  destruct (module_get_path_joined tree_heap 0 4) as [Hpath _].
  exact (Hpath ["planets"; "MOON"] moon_below_core).
Defined.

(** X27.  [module_get_path] returns the null pointer only for
    an object that has no parent or no id itself.  For an object that
    has both and is not below the root, the null pointer met higher up
    is not returned: it is formatted as a string, and the result is
    undefined. *)
Theorem module_get_path_null (fuel : nat) (obj root : nat) (h : heap) :
  (module_get_path fuel obj root h = Some PathNull <->
   (0 < fuel)%nat /\
   exists o : obj_t,
     h !! obj = Some o /\ (obj_parent o = None \/ obj_id o = None)) /\
  (forall (o : obj_t) (p : nat) (i : string) (r : path_t),
      h !! obj = Some o -> obj_parent o = Some p -> obj_id o = Some i ->
      (forall ids : list string, ~ below h root obj ids) ->
      module_get_path fuel obj root h = Some r ->
      r = PathUndefined).
Proof.
  assert (Hnull : module_get_path fuel obj root h = Some PathNull <->
                  (0 < fuel)%nat /\
                  exists o : obj_t,
                    h !! obj = Some o
                    /\ (obj_parent o = None \/ obj_id o = None)).
  { destruct fuel as [|fuel]; simpl.
    { split; [discriminate|]. intros [H _]. lia. }
    destruct (h !! obj) as [o|] eqn:Ho.
    2: { split; [discriminate|]. intros (_ & o & Hn & _). discriminate. }
    destruct (obj_parent o) as [p|] eqn:Hp.
    2: { split; [|reflexivity]. intros _. split; [lia|]. eauto. }
    destruct (obj_id o) as [i|] eqn:Hi.
    2: { split; [|reflexivity]. intros _. split; [lia|]. eauto. }
    split.
    - destruct (p =? root)%nat; [discriminate|].
      destruct (module_get_path fuel p root h) as [[|base|]|];
        discriminate.
    - intros (_ & o' & Ho' & [Hn | Hn]); injection Ho' as <-; congruence. }
  split; [exact Hnull|].
  intros o p i r Ho Hp Hi Hnot Hrun.
  destruct r as [|s|]; [| |reflexivity].
  - apply Hnull in Hrun as (_ & o' & Ho' & [Hn | Hn]);
      rewrite Ho in Ho'; injection Ho' as <-; congruence.
  - destruct (below_of_module_get_path _ _ _ _ _ Hrun) as (ids & Hb & _).
    exfalso. exact (Hnot ids Hb).
Qed.

Lemma sun_not_above_moon (ids : list string) : ~ below tree_heap 2 4 ids.
Proof.
  intros H.
  inversion H as [obj o i Ho Hp Hi | obj p o i ids' Ho Hp Hne Hi Hb];
    subst.
  - simpl in Ho. injection Ho as <-. discriminate.
  - simpl in Ho. injection Ho as <-. simpl in Hp. injection Hp as <-.
    inversion Hb
      as [obj o i' Ho Hp Hi' | obj p o i' ids'' Ho Hp Hne' Hi' Hb'];
      subst.
    + simpl in Ho. injection Ho as <-. discriminate.
    + simpl in Ho. injection Ho as <-. simpl in Hp. injection Hp as <-.
      inversion Hb'
        as [obj o i'' Ho Hp Hi'' | obj p o i'' ids3 Ho Hp Hne'' Hi'' Hb''];
        subst; simpl in Ho; injection Ho as <-; discriminate.
Qed.

Lemma module_get_path_null_witness :
  module_get_path 3 4 2 tree_heap = Some PathUndefined.
Proof.
  destruct (module_get_path_null 3 4 2 tree_heap) as [_ Hundef].
  assert (Hrun : exists r, module_get_path 3 4 2 tree_heap = Some r)
    by (eexists; reflexivity).
  destruct Hrun as [r Hrun]. rewrite Hrun. f_equal.
  exact (Hundef (mk_obj (Some "MOON") 2 (Some 1%nat) []) 1%nat "MOON" r
                eq_refl eq_refl eq_refl sun_not_above_moon Hrun).
Defined.

(** ** Attributes of a json object *)

Section JsonFacts.

Context {json_value : Type}.

Lemma json_extract_attr_names (attr : string)
      (values : list (string * option json_value)) :
  map fst (snd (json_extract_attr attr values)) = map fst values.
Proof.
  induction values as [|[name value] rest IH]; simpl; [reflexivity|].
  destruct (String.eqb attr name); simpl; [reflexivity|].
  destruct (json_extract_attr attr rest) as [ret rest']; simpl in *.
  now rewrite IH.
Qed.

Lemma json_extract_attr_again (attr : string)
      (values : list (string * option json_value)) :
  json_extract_attr attr (snd (json_extract_attr attr values))
  = (None, snd (json_extract_attr attr values)).
Proof.
  induction values as [|[name value] rest IH]; simpl; [reflexivity|].
  destruct (String.eqb attr name) eqn:He; simpl.
  - rewrite He. reflexivity.
  - destruct (json_extract_attr attr rest) as [ret rest']; simpl in *.
    rewrite He; simpl. rewrite IH. reflexivity.
Qed.

Lemma json_extract_attr_others (attr : string)
      (values : list (string * option json_value)) (i : nat)
      (e : string * option json_value) :
  values !! i = Some e -> fst e <> attr ->
  snd (json_extract_attr attr values) !! i = Some e.
Proof.
  revert i. induction values as [|[name value] rest IH]; intros i Hi Hne;
    [discriminate|].
  simpl. destruct (String.eqb_spec attr name) as [->|Hn]; simpl.
  - destruct i as [|i]; simpl in *; [|exact Hi].
    injection Hi as <-. contradiction.
  - destruct (json_extract_attr attr rest) as [ret rest'] eqn:Hr;
      simpl in *.
    destruct i as [|i]; simpl in *; [exact Hi|]. apply IH; assumption.
Qed.

Lemma json_extract_attr_value (attr : string)
      (values : list (string * option json_value)) (v : json_value) :
  fst (json_extract_attr attr values) = Some v ->
  exists i : nat,
    values !! i = Some (attr, Some v) /\
    forall (j : nat) (e : string * option json_value),
      (j < i)%nat -> values !! j = Some e -> fst e <> attr.
Proof.
  induction values as [|[name value] rest IH]; simpl; [discriminate|].
  destruct (String.eqb_spec attr name) as [->|Hn]; simpl.
  - intros ->. exists 0%nat. split; [reflexivity|]. intros j e Hj. lia.
  - destruct (json_extract_attr attr rest) as [ret rest']; simpl in *.
    intros Hv. destruct (IH Hv) as (i & Hi & Hbefore).
    exists (S i). split; [exact Hi|].
    intros [|j] e Hj He; simpl in He.
    + injection He as <-. simpl. congruence.
    + apply (Hbefore j e); [lia|exact He].
Qed.

End JsonFacts.

(** X28.  [json_extract_attr] takes a value out once: the
    value it returns is that of the first attribute with the name, the
    names and the attributes with another name stay as they are, and a
    second extraction of the same name returns the null pointer and
    changes nothing, even when a later attribute carries the same
    name. *)
Theorem json_extract_attr_once {json_value : Type} (attr : string)
        (values : list (string * option json_value)) :
  map fst (snd (json_extract_attr attr values)) = map fst values /\
  json_extract_attr attr (snd (json_extract_attr attr values))
  = (None, snd (json_extract_attr attr values)) /\
  (forall (i : nat) (e : string * option json_value),
      values !! i = Some e -> fst e <> attr ->
      snd (json_extract_attr attr values) !! i = Some e) /\
  (forall v : json_value,
      fst (json_extract_attr attr values) = Some v ->
      exists i : nat,
        values !! i = Some (attr, Some v) /\
        forall (j : nat) (e : string * option json_value),
          (j < i)%nat -> values !! j = Some e -> fst e <> attr).
Proof.
  split; [apply json_extract_attr_names|].
  split; [apply json_extract_attr_again|].
  split; [apply json_extract_attr_others|apply json_extract_attr_value].
Qed.

(** ** The eclipse factor the program returns *)

(** The classification depends on the ratios of its arguments only. *)
Lemma shadow_factor_scale (k sun_r sph_r sep : R) :
  0 < k -> 0 < sun_r -> 0 < sph_r ->
  shadow_factor (k * sun_r) (k * sph_r) (k * sep)
  = shadow_factor sun_r sph_r sep.
Proof.
  intros Hk Hs Hp. unfold shadow_factor.
  destruct (Rge_dec sep (sun_r + sph_r)) as [H1|H1];
    destruct (Rge_dec (k * sep) (k * sun_r + k * sph_r)) as [H1'|H1'];
    try reflexivity; try (exfalso; nra).
  destruct (Rle_dec sep (sph_r - sun_r)) as [H2|H2];
    destruct (Rle_dec (k * sep) (k * sph_r - k * sun_r)) as [H2'|H2'];
    try reflexivity; try (exfalso; nra).
  destruct (Rle_dec sep (sun_r - sph_r)) as [H3|H3];
    destruct (Rle_dec (k * sep) (k * sun_r - k * sph_r)) as [H3'|H3'];
    try (exfalso; nra).
  { field. lra. }
  assert (Hsep : 0 < sep) by lra.
  cbv zeta.
  replace ((k * sun_r * (k * sun_r) + k * sep * (k * sep)
            - k * sph_r * (k * sph_r)) / (2 * (k * sep)))
    with (k * ((sun_r * sun_r + sep * sep - sph_r * sph_r) / (2 * sep)))
    by (field; lra).
  set (x := (sun_r * sun_r + sep * sep - sph_r * sph_r) / (2 * sep)).
  replace (k * x / (k * sun_r)) with (x / sun_r) by (field; lra).
  replace ((k * sep - k * x) / (k * sph_r)) with ((sep - x) / sph_r)
    by (field; lra).
  set (A := acos (x / sun_r) - 0.5 * sin (2 * acos (x / sun_r))).
  set (B := acos ((sep - x) / sph_r)
            - 0.5 * sin (2 * acos ((sep - x) / sph_r))).
  assert (Hc : 1.57079633 <> 0) by lra.
  set (c := 1.57079633) in *.
  field. lra.
Qed.

Lemma shadow_factor_lt_1 (sun_r sph_r sep : R) :
  0 < sun_r -> 0 < sph_r -> 0 <= sep -> sep < sun_r + sph_r ->
  shadow_factor sun_r sph_r sep < 1.
Proof.
  intros Hs Hp Hsep Hlt.
  destruct (Rle_dec sep (sph_r - sun_r)) as [Hum|Hum].
  { rewrite shadow_factor_umbra by assumption. lra. }
  destruct (Rle_dec sep (sun_r - sph_r)) as [Hin|Hin].
  { rewrite shadow_factor_inside by assumption.
    assert (0 < sph_r / sun_r) by (apply Rdiv_lt_0_compat; assumption).
    nra. }
  assert (Hc : crossing sun_r sph_r sep) by (unfold crossing; lra).
  destruct (shadow_factor_crossing_bounds _ _ _ Hs Hp Hc) as [[_ H] _].
  exact H.
Qed.

Lemma shadow_factor_pos (sun_r sph_r sep : R) :
  0 < sun_r -> 0 < sph_r -> 0 <= sep -> sph_r - sun_r < sep ->
  0 < shadow_factor sun_r sph_r sep.
Proof.
  intros Hs Hp Hsep Hlt.
  destruct (Rge_dec sep (sun_r + sph_r)) as [Hout|Hout].
  { rewrite shadow_factor_outside by assumption. lra. }
  destruct (Rle_dec sep (sun_r - sph_r)) as [Hin|Hin].
  { rewrite shadow_factor_inside by assumption.
    assert (Hq : 0 < sph_r / sun_r < 1).
    { split; [apply Rdiv_lt_0_compat; assumption|].
      apply (Rmult_lt_reg_r sun_r); [assumption|].
      replace (sph_r / sun_r * sun_r) with sph_r by (field; lra). lra. }
    nra. }
  assert (Hc : crossing sun_r sph_r sep) by (unfold crossing; lra).
  destruct (shadow_factor_crossing_bounds _ _ _ Hs Hp Hc) as [[H _] _].
  pose proof step_pos. lra.
Qed.

Section EclipseProgram.

Context `{Eph : Ephemeris}.

Lemma is_moon_lookup (w : world) (i : nat) :
  is_moon w i = true -> exists pl, w !! i = Some pl /\ id pl = MOON.
Proof.
  unfold is_moon. destruct (w !! i) as [pl|]; [|discriminate].
  intros H. exists pl. split; [reflexivity|]. now apply Z.eqb_eq.
Qed.

(** The loop stops at the first Moon. *)
Lemma eclipse_scan_first (fuel : nat) (sun_r : R) (obs : observer_t)
      (w : world) (moon : nat) :
  forall ps : list nat,
    Forall (fun p => (p < length w)%nat) ps ->
    find (is_moon w) ps = Some moon ->
    exists pl : planet_t,
      w !! moon = Some pl /\ id pl = MOON /\
      eclipse_scan fuel sun_r obs ps w
      = match planet_get_pvo fuel moon obs true w with
        | Some (pvo, w') =>
          Some (shadow_factor sun_r
                              (2 * radius_m pl / DAU / vec3_norm (fst pvo))
                              (eraSepp (fst (sun_pvo obs)) (fst pvo)), w')
        | None => None
        end.
Proof.
  induction ps as [|p ps IH]; intros Hall Hfind; [discriminate|].
  apply Forall_cons in Hall as [Hp Hall].
  simpl in Hfind. simpl. unfold_monad.
  destruct (is_moon w p) eqn:Hm.
  - injection Hfind as <-.
    destruct (is_moon_lookup _ _ Hm) as (pl & Hpl & Hid).
    exists pl. rewrite Hpl. split; [reflexivity|]. split; [exact Hid|].
    rewrite Hid. cbn [negb Z.eqb MOON Pos.eqb].
    destruct (planet_get_pvo fuel p obs true w) as [[pvo w']|];
      reflexivity.
  - destruct (IH Hall Hfind) as (pl & Hpl & Hid & Heq).
    exists pl. split; [exact Hpl|]. split; [exact Hid|].
    apply lookup_lt_is_Some_2 in Hp as [q Hq]. rewrite Hq.
    unfold is_moon in Hm. rewrite Hq in Hm. rewrite Hm.
    cbn [negb]. exact Heq.
Qed.


Lemma indices_in_range (w : world) :
  Forall (fun p => (p < length w)%nat) (seq 0 (length w)).
Proof. apply Forall_seq. intros j Hj. lia. Qed.

(** With a Moon among the children, the value returned is the
    classification of the loop body for the first of them. *)
Lemma compute_sun_eclipse_factor_moon (fuel : nat) (sun moon : nat)
      (obs : observer_t) (w : world) (s pl : planet_t) :
  w !! sun = Some s -> first_moon w = Some moon -> w !! moon = Some pl ->
  id pl = MOON /\
  compute_sun_eclipse_factor fuel sun obs w
  = match planet_get_pvo fuel moon obs true w with
    | Some (pvo, w') =>
      Some (shadow_factor
              (2 * radius_m s / DAU / vec3_norm (fst (sun_pvo obs)))
              (2 * radius_m pl / DAU / vec3_norm (fst pvo))
              (eraSepp (fst (sun_pvo obs)) (fst pvo)), w')
    | None => None
    end.
Proof.
  intros Hs Hm Hpl.
  destruct (eclipse_scan_first
              fuel (2 * radius_m s / DAU / vec3_norm (fst (sun_pvo obs)))
              obs w moon _ (indices_in_range w) Hm)
    as (pl' & Hpl' & Hid & Heq).
  rewrite Hpl in Hpl'. injection Hpl' as <-.
  split; [exact Hid|].
  unfold compute_sun_eclipse_factor. unfold_monad. rewrite Hs.
  exact Heq.
Qed.

(** The position of the Moon needs no recursion through a parent. *)
Lemma moon_pvo_total (fuel : nat) (moon : nat) (obs : observer_t)
      (w : world) (pl : planet_t) :
  w !! moon = Some pl -> id pl = MOON ->
  exists (pvo : pv_t) (w' : world),
    planet_get_pvo (S fuel) moon obs true w = Some (pvo, w').
Proof.
  intros Hpl Hid. apply planet_get_pvo_total.
  simpl. rewrite Hpl, Hid. reflexivity.
Qed.


End EclipseProgram.

(** *** The worked eclipse geometry *)

Lemma vec3_norm_from_sun (d theta : R) :
  0 <= d -> vec3_norm (from_sun d theta) = d.
Proof.
  intros Hd.
  unfold vec3_norm, vec3_norm2, vec3_dot, from_sun, vx, vy, vz.
  cbn [fst snd].
  pose proof (sin2_cos2 theta) as H. unfold Rsqr in H.
  replace (- (d * cos theta) * - (d * cos theta)
           + d * sin theta * (d * sin theta) + 0 * 0)
    with (d * d * (sin theta * sin theta + cos theta * cos theta)) by ring.
  rewrite H, Rmult_1_r. now apply sqrt_square.
Qed.

Lemma eraSepp_from_sun (d theta : R) :
  0 < d -> 0 <= theta < PI / 2 ->
  eraSepp (-1, 0, 0) (from_sun d theta) = theta.
Proof.
  intros Hd [H0 H1].
  assert (Hcos : 0 < cos theta) by (apply cos_gt_0; lra).
  assert (Hsin : 0 <= sin theta).
  { apply sin_ge_0; [lra|]. pose proof PI_RGT_0. lra. }
  unfold eraSepp.
  assert (Hss : vec3_norm (vec3_cross (-1, 0, 0) (from_sun d theta))
                = d * sin theta).
  { unfold vec3_norm, vec3_norm2, vec3_dot, vec3_cross, from_sun,
      vx, vy, vz.
    cbn [fst snd].
    replace ((0 * 0 - 0 * (d * sin theta))
             * (0 * 0 - 0 * (d * sin theta))
             + (0 * - (d * cos theta) - -1 * 0)
               * (0 * - (d * cos theta) - -1 * 0)
             + (-1 * (d * sin theta) - 0 * - (d * cos theta))
               * (-1 * (d * sin theta) - 0 * - (d * cos theta)))
      with (d * sin theta * (d * sin theta)) by ring.
    apply sqrt_square. apply Rmult_le_pos; lra. }
  assert (Hcs : vec3_dot (-1, 0, 0) (from_sun d theta) = d * cos theta).
  { unfold vec3_dot, from_sun, vx, vy, vz. cbn [fst snd]. ring. }
  rewrite Hss, Hcs.
  assert (Hdc : 0 < d * cos theta) by (apply Rmult_lt_0_compat; lra).
  assert (Hat : atan2 (d * sin theta) (d * cos theta) = theta).
  { unfold atan2.
    destruct (Rlt_dec 0 (d * cos theta)) as [_|Hn]; [|contradiction].
    replace (d * sin theta / (d * cos theta)) with (tan theta)
      by (unfold tan; field; lra).
    apply atan_tan. lra. }
  destruct (Req_dec_T (d * sin theta) 0);
    [destruct (Req_dec_T (d * cos theta) 0); [lra|]|]; exact Hat.
Qed.

Lemma DAU_pos : 0 < DAU.
Proof. unfold DAU. lra. Qed.

Lemma angular_radius_pos (radius_m dist : R) :
  0 < radius_m -> 0 < dist -> 0 < angular_radius radius_m dist.
Proof.
  intros Hr Hd. unfold angular_radius. pose proof DAU_pos.
  repeat apply Rdiv_lt_0_compat; assumption.
Qed.

Lemma code_radius_double (radius_m dist : R) :
  2 * radius_m / DAU / dist = 2 * angular_radius radius_m dist.
Proof. unfold angular_radius, Rdiv. ring. Qed.

(** The run of [compute_sun_eclipse_factor] on the worked worlds, for
    an observer that sees the Sun one astronomical unit away in the
    direction [-x] and whose fingerprint is the one of the cache of the
    Moon. *)
Lemma eclipse_world_factor `{Eph : Ephemeris} (fuel : nat)
      (obs : observer_t) (d theta : R) :
  sun_pvo obs = at_x (-1) -> hash obs = 1%Z ->
  0 < d -> 0 <= theta < PI / 2 ->
  compute_sun_eclipse_factor fuel 0 obs (eclipse_world d theta)
  = Some (shadow_factor (2 * angular_radius 695508000 1)
                        (2 * angular_radius 1737400 d) theta,
          eclipse_world d theta).
Proof.
  intros Hsun Hhash Hd Hth.
  destruct (compute_sun_eclipse_factor_moon
              fuel 0 1 obs (eclipse_world d theta) sun_fresh
              (moon_seen (from_sun d theta)) eq_refl eq_refl eq_refl)
    as [_ Heq].
  rewrite Heq.
  rewrite (planet_get_pvo_hit fuel 1 obs (eclipse_world d theta)
             (moon_seen (from_sun d theta)) eq_refl)
    by (rewrite Hhash; reflexivity).
  rewrite Hsun. cbn [pvo moon_seen fst radius_m sun_fresh at_x].
  rewrite vec3_norm_from_sun by lra.
  rewrite eraSepp_from_sun by assumption.
  rewrite !code_radius_double.
  change (-1, 0, 0) with (fst (at_x (-1))).
  rewrite vec3_norm_at_x, Rabs_left by lra.
  replace (- -1) with 1 by ring. reflexivity.
Qed.

Lemma sun_angular_radius_bounds :
  0.00464 < sun_angular_radius < 0.00465.
Proof.
  unfold sun_angular_radius, angular_radius, DAU.
  split.
  - apply (Rmult_lt_reg_r 149597870700); [lra|].
    replace (695508000 / 149597870700 / 1 * 149597870700) with 695508000
      by (field; lra).
    lra.
  - apply (Rmult_lt_reg_r 149597870700); [lra|].
    replace (695508000 / 149597870700 / 1 * 149597870700) with 695508000
      by (field; lra).
    lra.
Qed.

Lemma matching_radius :
  angular_radius 1737400 matching_distance = sun_angular_radius.
Proof.
  unfold angular_radius, matching_distance, sun_angular_radius,
    angular_radius, DAU.
  field.
Qed.

Lemma half_pi_gt_1 : 1 < PI / 2.
Proof. pose proof PI_lower. lra. Qed.

(** The factor when two equal disks touch at half the separation the
    test of the code is made with: two thirds of a disk minus a
    triangle are taken away. *)
Lemma shadow_factor_unit :
  shadow_factor 1 1 1
  = 1 - (2 * (PI / 3) - sqrt 3 / 2) / (2 * 1.57079633).
Proof.
  rewrite (shadow_factor_crossing 1 1 1 crossing_unit).
  unfold lens_area. cbv zeta.
  replace ((1 * 1 + 1 * 1 - 1 * 1) / (2 * 1) / 1) with (1 / 2)
    by (field; lra).
  replace ((1 - (1 * 1 + 1 * 1 - 1 * 1) / (2 * 1)) / 1) with (1 / 2)
    by (field; lra).
  rewrite <- cos_PI3.
  rewrite acos_cos by (pose proof PI_RGT_0; lra).
  rewrite sin_2PI3.
  assert (Hc : 1.57079633 <> 0) by lra.
  set (c := 1.57079633) in *. set (r := sqrt 3).
  field. exact Hc.
Qed.

Lemma sqrt_3_upper : sqrt 3 < 1.7320509.
Proof.
  rewrite <- (sqrt_square 1.7320509) by lra.
  apply sqrt_lt_1_alt. lra.
Qed.

Lemma shadow_factor_unit_upper : shadow_factor 1 1 1 < 0.61.
Proof.
  rewrite shadow_factor_unit.
  pose proof PI_lower as Hpi. pose proof sqrt_3_upper as Hsq.
  assert (H : 0.39 * (2 * 1.57079633) < 2 * (PI / 3) - sqrt 3 / 2) by lra.
  assert (0.39 < (2 * (PI / 3) - sqrt 3 / 2) / (2 * 1.57079633)).
  { apply (Rmult_lt_reg_r (2 * 1.57079633)); [lra|].
    replace ((2 * (PI / 3) - sqrt 3 / 2) / (2 * 1.57079633)
             * (2 * 1.57079633))
      with (2 * (PI / 3) - sqrt 3 / 2) by (field; lra).
    exact H. }
  lra.
Qed.

(** *** The four cases *)

(** C1, on the code.  With a Moon among the children,
    [compute_sun_eclipse_factor] returns, and what it returns is not the
    value the claim gives for the angular radii of the Sun and of the
    Moon ([radius_m / DAU / distance], as [planet_get_info] computes
    them): [sun_r] and [sph_r] are computed as [2 * radius_m / DAU /
    distance], twice the angular radius, so the value is the
    classification for disks twice as large, which is the classification
    for the angular radii at half the separation.  The factor is 1 only
    from twice the sum of the radii on, 0 up to twice the difference,
    [1 - (sph_r / sun_r) ^ 2] up to twice the other difference, and
    otherwise 1 minus the lens area at half the separation over
    [sun_r * sun_r * 2 * 1.57079633], which is more than 1 minus that
    lens area over the area of the disk of the Sun. *)
Theorem compute_sun_eclipse_factor_cases (Eph : Ephemeris) (fuel : nat)
        (sun moon : nat) (obs : observer_t) (w : world) (s pl : planet_t) :
  w !! sun = Some s -> first_moon w = Some moon -> w !! moon = Some pl ->
  0 < radius_m s -> 0 < radius_m pl ->
  0 < vec3_norm (fst (sun_pvo obs)) ->
  exists (pvo : pv_t) (f : R) (w' : world),
    planet_get_pvo (S fuel) moon obs true w = Some (pvo, w') /\
    compute_sun_eclipse_factor (S fuel) sun obs w = Some (f, w') /\
    (0 < vec3_norm (fst pvo) ->
     let sun_r :=
       angular_radius (radius_m s) (vec3_norm (fst (sun_pvo obs))) in
     let sph_r := angular_radius (radius_m pl) (vec3_norm (fst pvo)) in
     let sep := eraSepp (fst (sun_pvo obs)) (fst pvo) in
     f = shadow_factor (2 * sun_r) (2 * sph_r) sep /\
     f = shadow_factor sun_r sph_r (sep / 2) /\
     (f = 1 <-> sep >= 2 * (sun_r + sph_r)) /\
     (f = 0 <-> sep <= 2 * (sph_r - sun_r)) /\
     (sep <= 2 * (sun_r - sph_r) -> f = 1 - (sph_r / sun_r) ^ 2) /\
     (crossing sun_r sph_r (sep / 2) ->
      f = 1 - lens_area sun_r sph_r (sep / 2)
              / (sun_r * sun_r * 2 * 1.57079633) /\
      1 - lens_area sun_r sph_r (sep / 2) / disk_area sun_r < f)).
Proof.
  intros Hs Hm Hpl Hrs Hrm Hds.
  destruct (compute_sun_eclipse_factor_moon (S fuel) sun moon obs w s pl
              Hs Hm Hpl) as [Hid Heq].
  destruct (moon_pvo_total fuel moon obs w pl Hpl Hid)
    as (pvo & w' & Hrun).
  rewrite Hrun in Heq.
  eexists pvo, _, w'. split; [exact Hrun|]. split; [exact Heq|].
  intros Hdm. cbv zeta.
  set (sun_r := angular_radius (radius_m s)
                               (vec3_norm (fst (sun_pvo obs)))).
  set (sph_r := angular_radius (radius_m pl) (vec3_norm (fst pvo))).
  set (sep := eraSepp (fst (sun_pvo obs)) (fst pvo)).
  assert (Hsr : 0 < sun_r) by (apply angular_radius_pos; assumption).
  assert (Hpr : 0 < sph_r) by (apply angular_radius_pos; assumption).
  assert (Hsep : 0 <= sep) by apply eraSepp_nonneg.
  rewrite !code_radius_double. fold sun_r sph_r.
  assert (Hhalf : shadow_factor (2 * sun_r) (2 * sph_r) sep
                  = shadow_factor sun_r sph_r (sep / 2)).
  { replace sep with (2 * (sep / 2)) at 1 by lra.
    apply shadow_factor_scale; lra. }
  split; [reflexivity|]. rewrite Hhalf.
  split; [reflexivity|].
  split.
  { split.
    - intros H1. destruct (Rge_dec sep (2 * (sun_r + sph_r))) as [H|H];
        [exact H|].
      pose proof (shadow_factor_lt_1 sun_r sph_r (sep / 2)) as Hlt. lra.
    - intros H. apply shadow_factor_outside. lra. }
  split.
  { split.
    - intros H0. destruct (Rle_dec sep (2 * (sph_r - sun_r))) as [H|H];
        [exact H|].
      pose proof (shadow_factor_pos sun_r sph_r (sep / 2)) as Hlt. lra.
    - intros H. apply shadow_factor_umbra; lra. }
  split.
  { intros H. apply shadow_factor_inside; lra. }
  intros Hc. split.
  - apply shadow_factor_crossing. exact Hc.
  - apply shadow_factor_crossing_above; assumption.
Qed.

Lemma observer_at_sun_distance (t : R) (h : Z) :
  vec3_norm (fst (sun_pvo (observer_at t h))) = 1.
Proof.
  cbn [sun_pvo observer_at]. rewrite vec3_norm_at_x, Rabs_left by lra.
  ring.
Qed.

Lemma compute_sun_eclipse_factor_cases_witness :
  compute_sun_eclipse_factor (Eph := still_ephemeris) 1 0
                             (observer_at 58000 1) (eclipse_world 0.0024 0)
  = Some (0, eclipse_world 0.0024 0).
Proof.
  destruct (compute_sun_eclipse_factor_cases
              still_ephemeris 0 0 1 (observer_at 58000 1)
              (eclipse_world 0.0024 0) sun_fresh
              (moon_seen (from_sun 0.0024 0)) eq_refl eq_refl eq_refl)
    as (pvo & f & w' & Hpvo & Hrun & Hc).
  { simpl. lra. }
  { simpl. lra. }
  { rewrite observer_at_sun_distance. lra. }
  rewrite (planet_get_pvo_hit 1 1 (observer_at 58000 1)
             (eclipse_world 0.0024 0) (moon_seen (from_sun 0.0024 0))
             eq_refl eq_refl) in Hpvo.
  injection Hpvo as <- <-.
  rewrite Hrun. do 2 f_equal.
  cbn [pvo moon_seen fst] in Hc.
  rewrite vec3_norm_from_sun in Hc by lra.
  destruct (Hc ltac:(lra)) as (_ & _ & _ & [_ H0] & _).
  apply H0. rewrite observer_at_sun_distance.
  cbn [sun_pvo observer_at at_x fst radius_m moon_seen sun_fresh].
  pose proof half_pi_gt_1.
  rewrite eraSepp_from_sun by lra.
  unfold angular_radius, DAU. lra.
Defined.

(** C1, as stated, fails where the two disks touch from outside.  The
    Moon is placed where its angular radius equals the one of the Sun,
    its centre at the sum of the two angular radii from the centre of
    the Sun: no part of the Sun is covered and the claim gives exactly
    1.  The code, which takes twice each radius, finds the disks
    crossing and returns less than 0.61. *)
Lemma compute_sun_eclipse_factor_counterexample :
  exists f : R,
    compute_sun_eclipse_factor (Eph := still_ephemeris) 1 0
                               (observer_at 58000 1) touching_world
    = Some (f, touching_world) /\
    eraSepp (fst (sun_pvo (observer_at 58000 1)))
            (from_sun matching_distance (2 * sun_angular_radius))
    >= angular_radius 695508000
                      (vec3_norm (fst (sun_pvo (observer_at 58000 1))))
       + angular_radius 1737400
                        (vec3_norm (from_sun matching_distance
                                             (2 * sun_angular_radius))) /\
    f < 0.61.
Proof.
  pose proof sun_angular_radius_bounds as Ha.
  pose proof half_pi_gt_1 as Hpi.
  assert (Hd : 0 < matching_distance) by (unfold matching_distance; lra).
  eexists. split.
  { unfold touching_world.
    apply eclipse_world_factor; [reflexivity|reflexivity|exact Hd|lra]. }
  split.
  { rewrite observer_at_sun_distance.
    rewrite vec3_norm_from_sun by lra.
    cbn [sun_pvo observer_at at_x fst].
    rewrite eraSepp_from_sun by lra.
    rewrite matching_radius. fold sun_angular_radius. lra. }
  rewrite matching_radius. fold sun_angular_radius.
  replace (2 * sun_angular_radius) with (2 * sun_angular_radius * 1)
    by ring.
  rewrite shadow_factor_scale by lra.
  exact shadow_factor_unit_upper.
Qed.

(** *** The step in exact arithmetic *)

Lemma inner_step_upper (sun_r sph_r : R) :
  0 < sun_r -> 0 < sph_r -> inner_step sun_r sph_r < 3.2e-9.
Proof.
  intros Hs Hp. unfold inner_step.
  pose proof step_pos as H0. pose proof PI_lower as Hpi.
  assert (H1 : 1 - PI / (2 * 1.57079633) < 3.2e-9).
  { assert (1 - 3.2e-9 < PI / (2 * 1.57079633)); [|lra].
    apply (Rmult_lt_reg_r (2 * 1.57079633)); [lra|].
    replace (PI / (2 * 1.57079633) * (2 * 1.57079633)) with PI
      by (field; lra).
    lra. }
  assert (H2 : 0 < Rmin 1 (sph_r * sph_r / (sun_r * sun_r)) <= 1).
  { split; [|apply Rmin_l].
    apply Rmin_glb_lt; [lra|]. apply Rdiv_lt_0_compat; nra. }
  nra.
Qed.

(** C2, in exact arithmetic.  For the Sun at 1 AU and the Moon at
    0.0026 AU, every separation below a right angle is the separation of
    a world the program accepts, and the value the program returns for
    it is [shadow_factor] at twice the two angular radii.  As a function
    of the separation this value is not continuous where the disk of the
    Moon touches the limb of the Sun from inside: it steps up by at
    least [inner_step], a quantity below 3.2e-9. *)
Lemma compute_sun_eclipse_factor_step :
  (forall sep : R,
      0 <= sep < PI / 2 ->
      compute_sun_eclipse_factor (Eph := still_ephemeris) 1 0
                                 (observer_at 58000 1)
                                 (eclipse_world 0.0026 sep)
      = Some (shadow_factor (2 * sun_angular_radius)
                            (2 * angular_radius 1737400 0.0026) sep,
              eclipse_world 0.0026 sep)) /\
  0 < 2 * sun_angular_radius - 2 * angular_radius 1737400 0.0026
    < PI / 2 /\
  ~ continuity_pt (shadow_factor (2 * sun_angular_radius)
                                 (2 * angular_radius 1737400 0.0026))
                  (2 * sun_angular_radius
                   - 2 * angular_radius 1737400 0.0026) /\
  0 < inner_step (2 * sun_angular_radius)
                 (2 * angular_radius 1737400 0.0026) < 3.2e-9.
Proof.
  pose proof sun_angular_radius_bounds as Ha.
  pose proof half_pi_gt_1 as Hpi.
  assert (Hb : 0.0044 < angular_radius 1737400 0.0026 < 0.0045).
  { unfold angular_radius, DAU. lra. }
  split.
  { intros sep Hsep. apply eclipse_world_factor; try reflexivity; lra. }
  split; [lra|].
  split.
  { pose proof (shadow_factor_not_continuous
                  (2 * sun_angular_radius)
                  (2 * angular_radius 1737400 0.0026)
                  ltac:(lra) ltac:(lra)) as H.
    rewrite Rabs_pos_eq in H by lra. exact H. }
  split.
  - apply inner_step_pos; lra.
  - apply inner_step_upper; lra.
Qed.

(** *** The magnitude of the Sun *)








(** ** The selection of the shadow candidates *)

Lemma qsort_insert_perm {A : Type} (c : A -> A -> Z) (x : A) (l : list A) :
  Permutation (qsort_insert c x l) (x :: l).
Proof.
  induction l as [|y l IH]; simpl; [reflexivity|].
  destruct (c x y <=? 0)%Z; [reflexivity|].
  rewrite IH. apply perm_swap.
Qed.

Lemma qsort_perm {A : Type} (c : A -> A -> Z) (l : list A) :
  Permutation (qsort c l) l.
Proof.
  induction l as [|x l IH]; simpl; [reflexivity|].
  rewrite qsort_insert_perm. now constructor.
Qed.

Lemma map_lookup_none {A B : Type} (f : A -> B) (l l' : list A) (i : nat) :
  map f l' = map f l -> l !! i = None -> l' !! i = None.
Proof.
  intros Hm Hl. apply lookup_ge_None. apply lookup_ge_None in Hl.
  rewrite (map_length_eq f l l' Hm). exact Hl.
Qed.

(** The sphere of a body depends on its radius and on its
    observer-relative cache only. *)
Lemma sphere_of_frame (w w' : world) (i : nat) :
  map static_part w' = map static_part w ->
  map pvo_part w' = map pvo_part w ->
  sphere_of w' i = sphere_of w i.
Proof.
  intros Hst Hpvo. unfold sphere_of.
  destruct (w !! i) as [p|] eqn:Hp.
  - destruct (map_lookup_eq static_part w w' i p Hst Hp)
      as (p' & Hp' & Hs).
    destruct (map_lookup_eq pvo_part w w' i p Hpvo Hp)
      as (p'' & Hp'' & Ho).
    rewrite Hp' in Hp''. injection Hp'' as <-. rewrite Hp'.
    unfold static_part in Hs. injection Hs as _ Hr _ _ _.
    unfold pvo_part in Ho. injection Ho as _ Hv.
    now rewrite Hr, Hv.
  - now rewrite (map_lookup_none static_part w w' i Hst Hp).
Qed.

Lemma pvo_cached_frame (w w' : world) (obs : observer_t) (i : nat) :
  map pvo_part w' = map pvo_part w ->
  pvo_cached w obs i -> pvo_cached w' obs i.
Proof.
  intros Hpvo (p & Hp & Hh).
  destruct (map_lookup_eq pvo_part w w' i p Hpvo Hp) as (p' & Hp' & Ho).
  exists p'. split; [exact Hp'|].
  unfold pvo_part in Ho. injection Ho as Hh' _. congruence.
Qed.

Lemma sphere_of_radius (w : world) (i : nat) :
  snd (sphere_of w i) = candidate_radius w i.
Proof.
  unfold sphere_of, candidate_radius. destruct (w !! i); reflexivity.
Qed.

Lemma candidate_radius_frame (w w' : world) (i : nat) :
  map static_part w' = map static_part w ->
  candidate_radius w' i = candidate_radius w i.
Proof.
  intros Hst. unfold candidate_radius.
  destruct (w !! i) as [p|] eqn:Hp.
  - destruct (map_lookup_eq static_part w w' i p Hst Hp)
      as (p' & -> & Hs).
    unfold static_part in Hs. injection Hs as _ Hr _ _ _. now rewrite Hr.
  - now rewrite (map_lookup_none static_part w w' i Hst Hp).
Qed.

Section Selection.

Context `{Eph : Ephemeris}.

(** A run of [could_cast_shadow] leaves the observer-relative caches
    alone. *)
Lemma could_cast_shadow_pvo (fuel : nat) (a : option nat) (b : nat)
      (obs : observer_t) (w w' : world) (c : bool) :
  could_cast_shadow fuel a b obs w = Some (c, w') ->
  map pvo_part w' = map pvo_part w.
Proof.
  unfold could_cast_shadow; unfold_monad. intros Hrun.
  destruct (w !! b) as [pb|]; [|discriminate].
  destruct a as [a|]; [|now injection Hrun as _ <-].
  destruct (w !! a) as [pa|]; [|discriminate].
  destruct (id pb =? id pa)%Z; [now injection Hrun as _ <-|].
  destruct (_ && _); [now injection Hrun as _ <-|].
  destruct (_ && _); [now injection Hrun as _ <-|].
  destruct (planet_get_pvh fuel a obs w) as [[apvh w1]|] eqn:Ha;
    [|discriminate].
  destruct (planet_get_pvh fuel b obs w1) as [[bpvh w2]|] eqn:Hb;
    [|discriminate].
  apply planet_get_pvh_frame in Ha as [_ Ha].
  apply planet_get_pvh_frame in Hb as [_ Hb].
  destruct (Rgt_dec _ _); injection Hrun as _ <-; congruence.
Qed.

(** What a run of [planet_get_pvo] with the light-time adjustment
    leaves: the position returned is in the cache of the body, under
    the fingerprint of the observer, and the spheres of the other bodies
    are as before. *)
Lemma planet_get_pvo_sphere (fuel : nat) (o : nat) (obs : observer_t)
      (w w' : world) (v : pv_t) (po : planet_t) :
  w !! o = Some po ->
  planet_get_pvo fuel o obs true w = Some (v, w') ->
  sphere_of w' o = (fst v, radius_m po / DAU) /\
  pvo_cached w' obs o /\
  forall i : nat,
    i <> o ->
    sphere_of w' i = sphere_of w i /\
    (pvo_cached w obs i -> pvo_cached w' obs i).
Proof.
  intros Hpo Hrun. unfold planet_get_pvo in Hrun. unfold_monad.
  rewrite Hpo in Hrun. cbn [andb] in Hrun.
  destruct (Z.eqb_spec (hash obs) (pvo_obs_hash po)) as [Hh|Hh].
  { injection Hrun as <- <-. unfold sphere_of, pvo_cached.
    rewrite Hpo. unfold eraCpv. split; [reflexivity|].
    split; [eauto|]. auto. }
  destruct (planet_get_pvh fuel o obs w) as [[pvh1 w1]|] eqn:H1;
    [|discriminate].
  cbn [negb] in Hrun.
  destruct (planet_get_pvh fuel o _ w1) as [[pvh2 w2]|] eqn:H2;
    [|discriminate].
  injection Hrun as <- <-.
  apply planet_get_pvh_frame in H1 as [Hs1 Ho1].
  apply planet_get_pvh_frame in H2 as [Hs2 Ho2].
  assert (Hs : map static_part w2 = map static_part w) by congruence.
  assert (Ho : map pvo_part w2 = map pvo_part w) by congruence.
  destruct (map_lookup_eq static_part w w2 o po Hs Hpo)
    as (p2 & Hp2 & Hst).
  unfold static_part in Hst. injection Hst as _ Hr _ _ _.
  split.
  { unfold sphere_of. rewrite list_lookup_alter_eq, Hp2. simpl.
    now rewrite Hr. }
  split.
  { exists (set_pvo_cache (hash obs)
                          (eraCpv (to_observer obs pvh2)) p2).
    split; [now rewrite list_lookup_alter_eq, Hp2|reflexivity]. }
  intros i Hi. split.
  - rewrite <- (sphere_of_frame w w2 i Hs Ho).
    unfold sphere_of. now rewrite list_lookup_alter_ne by congruence.
  - intros Hc. apply (pvo_cached_frame w w2 obs i Ho) in Hc.
    destruct Hc as (p & Hp & Hh'). exists p.
    split; [|exact Hh']. now rewrite list_lookup_alter_ne by congruence.
Qed.

(** The instrumented loop returns the spheres of the loop. *)
Lemma shadow_scan_erase (fuel : nat) (planet : nat) (obs : observer_t)
      (nb_max : nat) (others : list nat) :
  forall (spheres : list sphere) (log : list visit_t) (w : world),
    shadow_scan fuel planet obs nb_max others spheres w
    = match shadow_scan_log fuel planet obs nb_max others spheres log w
      with
      | Some ((res, _), w') => Some (res, w')
      | None => None
      end.
Proof.
  induction others as [|other rest IH]; intros spheres log w; simpl;
    unfold_monad; [reflexivity|].
  destruct (could_cast_shadow fuel (Some other) planet obs w)
    as [[[] w1]|]; [| |reflexivity].
  - destruct (w1 !! other) as [po|]; [|reflexivity].
    destruct (nb_max <=? length spheres)%nat.
    + destruct (spheres !! (nb_max - 1)%nat) as [m|]; [|reflexivity].
      destruct (Rlt_dec _ _); [apply IH|].
      destruct (planet_get_pvo fuel other obs true w1) as [[v w2]|];
        [apply IH|reflexivity].
    + destruct (planet_get_pvo fuel other obs true w1) as [[v w2]|];
        [apply IH|reflexivity].
  - apply IH.
Qed.

(** The invariant of the loop on the radii: the list holds the [nb_max]
    biggest radii among the bodies accepted so far. *)
Lemma shadow_scan_log_top (fuel : nat) (planet : nat) (obs : observer_t)
      (nb_max : nat) (w0 : world) (others : list nat) :
  (1 <= nb_max)%nat ->
  forall (spheres res : list sphere) (log log' : list visit_t)
         (w w' : world),
    map static_part w = map static_part w0 ->
    radii spheres
    = top_radii nb_max (map (candidate_radius w0) (accepted log)) ->
    shadow_scan_log fuel planet obs nb_max others spheres log w
    = Some ((res, log'), w') ->
    radii res
    = top_radii nb_max (map (candidate_radius w0) (accepted log')) /\
    map static_part w' = map static_part w0.
Proof.
  intros Hn.
  induction others as [|other rest IH];
    intros spheres res log log' w w' Hst Hinv Hrun; simpl in Hrun;
    unfold_monad.
  { injection Hrun as <- <- <-. auto. }
  destruct (could_cast_shadow fuel (Some other) planet obs w)
    as [[c w1]|] eqn:Hc; [|discriminate].
  apply could_cast_shadow_static in Hc.
  assert (Hst1 : map static_part w1 = map static_part w0) by congruence.
  destruct c;
    [|exact (IH _ _ (mk_visit other w false :: log) _ _ _ Hst1 Hinv Hrun)].
  destruct (w1 !! other) as [po|] eqn:Hpo; [|discriminate].
  pose proof (candidate_radius_static _ _ _ _ Hst1 Hpo) as Hr.
  assert (HL : Sorted Rge (sort_desc (map (candidate_radius w0)
                                          (accepted log))))
    by apply sort_desc_sorted.
  unfold top_radii in Hinv.
  set (log1 := mk_visit other w true :: log) in *.
  assert (Hacc : accepted log1 = other :: accepted log) by reflexivity.
  assert (Hadd : forall (kept : list sphere),
             (forall v : vec3,
                 radii (qsort sort_shadow_cmp
                              (kept ++ [(v, radius_m po / DAU)]))
                 = top_radii nb_max
                             (map (candidate_radius w0) (accepted log1))) ->
             match planet_get_pvo fuel other obs true w1 with
             | Some (a, w2) =>
               shadow_scan_log fuel planet obs nb_max rest
                 (qsort sort_shadow_cmp (kept ++ [(fst a, radius_m po / DAU)]))
                 log1 w2
             | None => None
             end = Some (res, log', w') ->
             radii res
             = top_radii nb_max (map (candidate_radius w0) (accepted log'))
             /\ map static_part w' = map static_part w0).
  { intros kept Hkept Hrun'.
    destruct (planet_get_pvo fuel other obs true w1) as [[v w2]|] eqn:Hv;
      [|discriminate].
    apply planet_get_pvo_static in Hv.
    apply (IH _ _ _ _ _ _ (eq_trans Hv Hst1) (Hkept (fst v)) Hrun'). }
  destruct (nb_max <=? length spheres)%nat eqn:Hfull.
  - apply Nat.leb_le in Hfull.
    destruct (spheres !! (nb_max - 1)%nat) as [m|] eqn:Hm; [|discriminate].
    destruct (Rlt_dec (radius_m po / DAU) (snd m)) as [Hlt|Hge].
    + refine (IH _ _ _ _ _ _ Hst1 _ Hrun).
      destruct (bounded_insert_full nb_max spheres _
                  (Vec.zero, radius_m po / DAU) HL Hinv Hn Hfull)
        as (m' & Hm' & Hsmall & _).
      rewrite Hm in Hm'. injection Hm' as <-.
      rewrite Hacc. unfold top_radii. simpl. rewrite <- Hr.
      rewrite Hinv. symmetry. apply Hsmall. exact Hlt.
    + apply (Hadd (take (length spheres - 1) spheres)); [|exact Hrun].
      intros v.
      destruct (bounded_insert_full nb_max spheres _
                  (v, radius_m po / DAU) HL Hinv Hn Hfull)
        as (m' & Hm' & _ & Hbig).
      rewrite Hm in Hm'. injection Hm' as <-.
      rewrite Hacc. unfold top_radii. simpl. rewrite <- Hr.
      apply Hbig. exact Hge.
  - apply Nat.leb_gt in Hfull.
    apply (Hadd spheres); [|exact Hrun].
    intros v. rewrite Hacc. unfold top_radii. simpl. rewrite <- Hr.
    apply (bounded_insert_room nb_max spheres _ (v, radius_m po / DAU));
      assumption.
Qed.

(** In a list sorted from the biggest, nothing is smaller than the last
    element. *)
Lemma sorted_snoc_least (l : list R) (x : R) :
  Sorted Rge (l ++ [x]) -> forall y : R, y ∈ l -> y >= x.
Proof.
  intros Hs.
  apply Sorted_StronglySorted in Hs; [|intros a b c; apply Rge_trans].
  induction l as [|a l IH]; intros y Hy; [now apply elem_of_nil in Hy|].
  simpl in Hs. apply StronglySorted_inv in Hs as [Hs Hall].
  apply elem_of_cons in Hy as [->|Hy]; [|now apply IH].
  apply Forall_app in Hall as [_ Hx].
  inversion Hx as [|? ? Hax _]. exact Hax.
Qed.

Lemma map_sphere_of_frame (w w' : world) (l : list nat) :
  map static_part w' = map static_part w ->
  map pvo_part w' = map pvo_part w ->
  map (sphere_of w') l = map (sphere_of w) l.
Proof.
  intros Hst Hpvo. apply map_ext. intros i. now apply sphere_of_frame.
Qed.

(** The invariant of the loop on the bodies: the spheres are those of a
    selection among the bodies accepted so far. *)
Lemma shadow_scan_log_selection (fuel : nat) (planet : nat)
      (obs : observer_t) (nb_max : nat) (w0 : world) :
  (1 <= nb_max)%nat ->
  forall (others : list nat) (spheres res : list sphere)
         (log log' : list visit_t) (w w' : world) (sel : list nat),
    map static_part w = map static_part w0 ->
    NoDup others ->
    (forall o : nat, o ∈ others -> o ∉ accepted log) ->
    spheres = map (sphere_of w) sel ->
    Sorted Rge (radii spheres) ->
    (length spheres <= nb_max)%nat ->
    (forall i : nat, i ∈ sel -> pvo_cached w obs i) ->
    selection w0 nb_max (accepted log) sel ->
    latest_kept w0 (accepted log) sel ->
    shadow_scan_log fuel planet obs nb_max others spheres log w
    = Some ((res, log'), w') ->
    exists sel' : list nat,
      res = map (sphere_of w') sel' /\
      (forall i : nat, i ∈ sel' -> pvo_cached w' obs i) /\
      selection w0 nb_max (accepted log') sel' /\
      latest_kept w0 (accepted log') sel'.
Proof.
  intros Hn.
  induction others as [|other rest IH];
    intros spheres res log log' w w' sel Hst Hnd Hfresh Hsph Hsorted Hlen
           Hcached Hsel Hlk Hrun; simpl in Hrun; unfold_monad.
  { injection Hrun as <- <- <-. eauto. }
  apply NoDup_cons in Hnd as [Hother Hnd].
  assert (Hfresh_o : other ∉ accepted log)
    by (apply Hfresh; left).
  destruct (could_cast_shadow fuel (Some other) planet obs w)
    as [[c w1]|] eqn:Hc; [|discriminate].
  pose proof (could_cast_shadow_static _ _ _ _ _ _ _ Hc) as Hs1.
  pose proof (could_cast_shadow_pvo _ _ _ _ _ _ _ Hc) as Ho1.
  assert (Hst1 : map static_part w1 = map static_part w0) by congruence.
  rewrite <- (map_sphere_of_frame w w1 sel Hs1 Ho1) in Hsph.
  assert (Hcached1 : forall i : nat, i ∈ sel -> pvo_cached w1 obs i).
  { intros i Hi. apply (pvo_cached_frame w w1 obs i Ho1), Hcached, Hi. }
  clear Hcached Hc Hs1 Ho1.
  destruct c.
  2:{ apply (IH spheres res (mk_visit other w false :: log) log' w1 w'
                sel); try assumption.
      intros o Ho. apply Hfresh. now right. }
  destruct (w1 !! other) as [po|] eqn:Hpo; [|discriminate].
  pose proof (candidate_radius_static _ _ _ _ Hst1 Hpo) as Hr.
  set (log1 := mk_visit other w true :: log) in *.
  assert (Hacc : accepted log1 = other :: accepted log) by reflexivity.
  assert (Hfresh1 : forall o : nat, o ∈ rest -> o ∉ accepted log1).
  { intros o Ho. rewrite Hacc. apply not_elem_of_cons. split.
    - intros ->. contradiction.
    - apply Hfresh. now right. }
  destruct Hsel as (Hsnd & Hsub & Hout).
  assert (Hnotin : other ∉ sel).
  { intros Hin. apply Hfresh_o, Hsub, Hin. }
  assert (Hadd : forall front : list nat,
             (forall i : nat, i ∈ front -> i ∈ sel) ->
             (length front < nb_max)%nat ->
             (forall sel' : list nat,
                 Permutation (front ++ [other]) sel' ->
                 selection w0 nb_max (accepted log1) sel') ->
             match planet_get_pvo fuel other obs true w1 with
             | Some (a, w2) =>
               shadow_scan_log fuel planet obs nb_max rest
                 (qsort sort_shadow_cmp
                        (map (sphere_of w1) front
                         ++ [(fst a, radius_m po / DAU)]))
                 log1 w2
             | None => None
             end = Some (res, log', w') ->
             exists sel' : list nat,
               res = map (sphere_of w') sel' /\
               (forall i : nat, i ∈ sel' -> pvo_cached w' obs i) /\
               selection w0 nb_max (accepted log') sel' /\
               latest_kept w0 (accepted log') sel').
  { intros front Hfront Hflen Hnew Hrun'.
    destruct (planet_get_pvo fuel other obs true w1) as [[v w2]|] eqn:Hv;
      [|discriminate].
    destruct (planet_get_pvo_sphere _ _ _ _ _ _ _ Hpo Hv)
      as (Hnewsph & Hnewc & Hkeep).
    apply planet_get_pvo_static in Hv.
    assert (Hlist : map (sphere_of w1) front
                    ++ [(fst v, radius_m po / DAU)]
                    = map (sphere_of w2) (front ++ [other])).
    { rewrite map_app. simpl. rewrite Hnewsph. f_equal.
      apply map_ext_in. intros i Hi. symmetry. apply Hkeep.
      intros ->. apply Hnotin, Hfront, list_elem_of_In, Hi. }
    rewrite Hlist in Hrun'.
    pose proof (qsort_perm sort_shadow_cmp
                           (map (sphere_of w2) (front ++ [other])))
      as Hperm.
    apply Permutation_map_inv in Hperm as (sel' & Heq & Hperm).
    rewrite Heq in Hrun'.
    apply (IH (map (sphere_of w2) sel') res log1 log' w2 w' sel');
      try assumption.
    - congruence.
    - reflexivity.
    - rewrite <- Heq, qsort_radii. apply sort_desc_sorted.
    - rewrite length_map, <- (Permutation_length Hperm), length_app.
      simpl. lia.
    - intros i Hi. rewrite <- Hperm in Hi.
      apply elem_of_app in Hi as [Hi|Hi].
      + apply Hkeep; [intros ->; apply Hnotin, Hfront, Hi|].
        apply Hcached1, Hfront, Hi.
      + apply list_elem_of_singleton in Hi as ->. exact Hnewc.
    - apply Hnew. exact Hperm.
    - intros o rest' Hhd Hni. exfalso. apply Hni.
      rewrite Hacc in Hhd. injection Hhd as <- _.
      rewrite <- Hperm. apply elem_of_app. right. now left. }
  destruct (nb_max <=? length spheres)%nat eqn:Hfull.
  - apply Nat.leb_le in Hfull.
    assert (Hlsel : length sel = nb_max).
    { rewrite Hsph, length_map in Hlen, Hfull. lia. }
    assert (Hne : sel <> []) by (intros ->; simpl in Hlsel; lia).
    destruct (exists_last Hne) as (front & e & ->).
    rewrite length_app in Hlsel. simpl in Hlsel.
    rewrite map_app in Hsph. simpl in Hsph.
    assert (Hlast : spheres !! (nb_max - 1)%nat = Some (sphere_of w1 e)).
    { rewrite Hsph. replace (nb_max - 1)%nat with (length front + 0)%nat
        by lia.
      rewrite <- (length_map (sphere_of w1) front).
      apply list_lookup_middle. lia. }
    rewrite Hlast in Hrun.
    assert (Hre : snd (sphere_of w1 e) = candidate_radius w0 e).
    { rewrite sphere_of_radius. now apply candidate_radius_frame. }
    assert (Hbig : forall j : nat,
               j ∈ front -> candidate_radius w0 j >= candidate_radius w0 e).
    { intros j Hj. rewrite <- Hre.
      apply (sorted_snoc_least (radii (map (sphere_of w1) front))).
      - rewrite Hsph in Hsorted. unfold radii in *.
        rewrite map_app in Hsorted. exact Hsorted.
      - unfold radii. apply list_elem_of_In, in_map_iff.
        exists (sphere_of w1 j). split.
        + rewrite sphere_of_radius. now apply candidate_radius_frame.
        + apply in_map, list_elem_of_In, Hj. }
    apply NoDup_app in Hsnd as (Hndf & Hdisj & _).
    destruct (Rlt_dec (radius_m po / DAU) (snd (sphere_of w1 e)))
      as [Hlt|Hge].
    + (* The newcomer is smaller than the smallest: it is left out. *)
      apply (IH spheres res log1 log' w1 w' (front ++ [e]));
        try assumption.
      * rewrite Hsph, map_app. reflexivity.
      * rewrite Hacc. split; [|split].
        -- apply NoDup_app. split; [exact Hndf|]. split; [exact Hdisj|].
           apply NoDup_singleton.
        -- intros i Hi. right. apply Hsub, Hi.
        -- intros i Hi Hni. rewrite length_app. simpl.
           split; [lia|]. intros j Hj.
           apply elem_of_cons in Hi as [->|Hi].
           ++ rewrite <- Hr.
              apply elem_of_app in Hj as [Hj|Hj].
              ** specialize (Hbig j Hj). lra.
              ** apply list_elem_of_singleton in Hj as ->. lra.
           ++ destruct (Hout i Hi Hni) as [_ Hle]. apply Hle, Hj.
      * intros o rest' Heq Hni j Hj.
        rewrite Hacc in Heq. injection Heq as <- _. rewrite <- Hr.
        apply elem_of_app in Hj as [Hj|Hj].
        -- specialize (Hbig j Hj). lra.
        -- apply list_elem_of_singleton in Hj as ->. lra.
    + (* The newcomer replaces the smallest. *)
      replace (take (length spheres - 1) spheres)
        with (map (sphere_of w1) front) in Hrun.
      2:{ rewrite Hsph. symmetry. apply take_app_length'.
          rewrite length_app, !length_map. simpl. lia. }
      apply (Hadd front); [| lia | | exact Hrun].
      { intros i Hi. apply elem_of_app. now left. }
      intros sel' Hperm. rewrite Hacc. split; [|split].
      * rewrite <- Hperm. apply NoDup_app. split; [exact Hndf|].
        split; [|apply NoDup_singleton].
        intros i Hi Hio. apply list_elem_of_singleton in Hio as ->.
        apply Hnotin, elem_of_app. now left.
      * intros i Hi. rewrite <- Hperm in Hi.
        apply elem_of_app in Hi as [Hi|Hi].
        -- right. apply Hsub, elem_of_app. now left.
        -- apply list_elem_of_singleton in Hi as ->. now left.
      * intros i Hi Hni.
        rewrite <- (Permutation_length Hperm), length_app. simpl.
        split; [lia|]. intros j Hj. rewrite <- Hperm in Hj, Hni.
        assert (Hio : i <> other).
        { intros ->. apply Hni, elem_of_app. right. now left. }
        apply elem_of_cons in Hi as [->|Hi]; [contradiction|].
        assert (Hie : candidate_radius w0 i <= candidate_radius w0 e).
        { destruct (decide (i = e)) as [->|Hne']; [lra|].
          destruct (Hout i Hi) as [_ Hle].
          - intros Hin. apply elem_of_app in Hin as [Hin|Hin].
            + apply Hni, elem_of_app. now left.
            + apply list_elem_of_singleton in Hin. contradiction.
          - apply Hle, elem_of_app. right. now left. }
        apply elem_of_app in Hj as [Hj|Hj].
        -- specialize (Hbig j Hj). lra.
        -- apply list_elem_of_singleton in Hj as ->.
           rewrite <- Hr. rewrite Hre in Hge. lra.
  - apply Nat.leb_gt in Hfull.
    assert (Hlsel : (length sel < nb_max)%nat).
    { rewrite Hsph, length_map in Hfull. exact Hfull. }
    rewrite Hsph in Hrun.
    apply (Hadd sel); [auto | exact Hlsel | | exact Hrun].
    intros sel' Hperm. rewrite Hacc. split; [|split].
    + rewrite <- Hperm. apply NoDup_app. split; [exact Hsnd|].
      split; [|apply NoDup_singleton].
      intros i Hi Hio. apply list_elem_of_singleton in Hio as ->.
      contradiction.
    + intros i Hi. rewrite <- Hperm in Hi.
      apply elem_of_app in Hi as [Hi|Hi].
      * right. apply Hsub, Hi.
      * apply list_elem_of_singleton in Hi as ->. now left.
    + intros i Hi Hni. rewrite <- Hperm in Hni.
      assert (Hio : i <> other).
      { intros ->. apply Hni, elem_of_app. right. now left. }
      apply elem_of_cons in Hi as [->|Hi]; [contradiction|].
      destruct (Hout i Hi) as [Hl _]; [|lia].
      intros Hin. apply Hni, elem_of_app. now left.
Qed.

End Selection.

(** *** The turns of the loop *)

Section Visits.

Context `{Eph : Ephemeris}.

Lemma shadow_scan_log_visits (fuel : nat) (planet : nat) (obs : observer_t)
      (nb_max : nat) (w0 : world) (others : list nat) :
  forall (spheres res : list sphere) (log log' : list visit_t)
         (w w' : world),
    map static_part w = map static_part w0 ->
    shadow_scan_log fuel planet obs nb_max others spheres log w
    = Some ((res, log'), w') ->
    map visit_body log' = rev others ++ map visit_body log /\
    (Forall (fun v => visit_holds fuel planet obs v /\
                      map static_part (visit_world v) = map static_part w0)
            log ->
     Forall (fun v => visit_holds fuel planet obs v /\
                      map static_part (visit_world v) = map static_part w0)
            log') /\
    (forall v : visit_t, v ∈ log -> v ∈ log') /\
    (forall (o : nat) (rest : list nat),
        others = o :: rest -> exists c : bool, mk_visit o w c ∈ log').
Proof.
  induction others as [|other rest IH];
    intros spheres res log log' w w' Hst Hrun; simpl in Hrun;
    unfold_monad.
  { injection Hrun as <- <- <-. repeat split; auto. discriminate. }
  destruct (could_cast_shadow fuel (Some other) planet obs w)
    as [[c w1]|] eqn:Hc; [|discriminate].
  pose proof (could_cast_shadow_static _ _ _ _ _ _ _ Hc) as Hs1.
  assert (Hst1 : map static_part w1 = map static_part w0) by congruence.
  set (log1 := mk_visit other w c :: log) in *.
  assert (Hnext : forall (s : list sphere) (w2 : world),
             map static_part w2 = map static_part w0 ->
             shadow_scan_log fuel planet obs nb_max rest s log1 w2
             = Some (res, log', w') ->
             map visit_body log'
             = rev (other :: rest) ++ map visit_body log /\
             (Forall (fun v => visit_holds fuel planet obs v /\
                               map static_part (visit_world v)
                               = map static_part w0) log ->
              Forall (fun v => visit_holds fuel planet obs v /\
                               map static_part (visit_world v)
                               = map static_part w0) log') /\
             (forall v : visit_t, v ∈ log -> v ∈ log') /\
             (forall (o : nat) (rest' : list nat),
                 other :: rest = o :: rest' ->
                 exists c' : bool, mk_visit o w c' ∈ log')).
  { intros s w2 Hst2 Hrun'.
    destruct (IH _ _ _ _ _ _ Hst2 Hrun') as (Hb & Hf & Hin & _).
    split.
    { rewrite Hb. simpl. rewrite <- app_assoc. reflexivity. }
    split.
    { intros Hlog. apply Hf. constructor; [|exact Hlog].
      split; [|exact Hst]. exists w1. exact Hc. }
    split.
    { intros v Hv. apply Hin. now right. }
    intros o rest' [= <- <-]. exists c. apply Hin. now left. }
  destruct c; [|exact (Hnext spheres w1 Hst1 Hrun)].
  destruct (w1 !! other) as [po|]; [|discriminate].
  assert (Hadd : forall kept : list sphere,
             match planet_get_pvo fuel other obs true w1 with
             | Some (a, w2) =>
               shadow_scan_log fuel planet obs nb_max rest
                 (qsort sort_shadow_cmp
                        (kept ++ [(fst a, radius_m po / DAU)]))
                 log1 w2
             | None => None
             end = Some (res, log', w') ->
             map visit_body log'
             = rev (other :: rest) ++ map visit_body log /\
             (Forall (fun v => visit_holds fuel planet obs v /\
                               map static_part (visit_world v)
                               = map static_part w0) log ->
              Forall (fun v => visit_holds fuel planet obs v /\
                               map static_part (visit_world v)
                               = map static_part w0) log') /\
             (forall v : visit_t, v ∈ log -> v ∈ log') /\
             (forall (o : nat) (rest' : list nat),
                 other :: rest = o :: rest' ->
                 exists c' : bool, mk_visit o w c' ∈ log')).
  { intros kept Hrun'.
    destruct (planet_get_pvo fuel other obs true w1) as [[v w2]|] eqn:Hv;
      [|discriminate].
    apply planet_get_pvo_static in Hv.
    refine (Hnext _ w2 _ Hrun'). congruence. }
  destruct (nb_max <=? length spheres)%nat; [|exact (Hadd spheres Hrun)].
  destruct (spheres !! (nb_max - 1)%nat) as [m|]; [|discriminate].
  destruct (Rlt_dec _ _); [exact (Hnext spheres w1 Hst1 Hrun)|].
  exact (Hadd (take (length spheres - 1) spheres) Hrun).
Qed.

End Visits.

(** *** Answers that do not depend on the order of the calls *)

Section Ahead.

Context `{Eph : Ephemeris}.

Lemma planet_get_pvh_fuel_le (n m : nat) (planet : nat) (obs : observer_t)
      (w : world) (r : pv_t * world) :
  (n <= m)%nat ->
  planet_get_pvh n planet obs w = Some r ->
  planet_get_pvh m planet obs w = Some r.
Proof.
  intros Hle Hrun. induction Hle as [|m Hle IH]; [exact Hrun|].
  apply planet_get_pvh_fuel. exact IH.
Qed.

(** The state returned does not depend on the recursion budget. *)
Lemma planet_get_pvh_fuel_agree (n m : nat) (planet : nat)
      (obs : observer_t) (w : world) (r r' : pv_t * world) :
  planet_get_pvh n planet obs w = Some r ->
  planet_get_pvh m planet obs w = Some r' ->
  r = r'.
Proof.
  intros Hn Hm.
  apply (planet_get_pvh_fuel_le n (Nat.max n m)) in Hn; [|lia].
  apply (planet_get_pvh_fuel_le m (Nat.max n m)) in Hm; [|lia].
  congruence.
Qed.

Lemma ahead_refl (w0 : world) (obs : observer_t) : ahead w0 obs w0.
Proof.
  split; [reflexivity|]. split; [reflexivity|].
  intros i p0 p H0 H. left. congruence.
Qed.

Lemma ahead_store (w0 w w1 : world) (obs : observer_t) (x : nat)
      (r : pv_t) (fuel : nat) :
  ahead w0 obs w ->
  planet_get_pvh fuel x obs w0 = Some (r, w1) ->
  ahead w0 obs (alter (set_pvh_cache (eraCpv r) (tt obs)) x w).
Proof.
  intros (Hst & Hpvo & Hpvh) Hrun.
  split; [|split].
  - rewrite map_alter_same by (intros []; reflexivity). exact Hst.
  - rewrite map_alter_same by (intros []; reflexivity). exact Hpvo.
  - intros i p0 p H0 H.
    destruct (decide (i = x)) as [->|Hne].
    + rewrite list_lookup_alter_eq in H.
      destruct (w !! x) as [px|]; [|discriminate].
      injection H as <-. right. split; [reflexivity|].
      exists fuel, w1. exact Hrun.
    + rewrite list_lookup_alter_ne in H by congruence.
      exact (Hpvh i p0 p H0 H).
Qed.

Variable w0 : world.
Variable obs : observer_t.
Hypothesis Hdate : tt obs <> 0.
Hypothesis Hdelta : Forall (fun pl => 0 < update_delta_s pl) w0.

(** A query made in a world that is ahead of [w0] returns what the same
    query returns in [w0], and leaves a world that is ahead of [w0]. *)
Lemma planet_get_pvh_ahead (fuel : nat) :
  forall (x : nat) (w w' : world) (r : pv_t),
    ahead w0 obs w ->
    pvh_resolves w0 fuel x = true ->
    planet_get_pvh fuel x obs w = Some (r, w') ->
    (exists w0' : world, planet_get_pvh fuel x obs w0 = Some (r, w0')) /\
    ahead w0 obs w'.
Proof.
  induction fuel as [|fuel IH]; intros x w w' r Hah Hres Hrun;
    [discriminate|].
  pose proof Hah as (Hst & Hpvo & Hpvh).
  destruct (planet_get_pvh_total (S fuel) x obs w0 Hres)
    as (r0 & w0' & Hrun0).
  pose proof Hrun0 as Hfold.
  simpl in Hrun, Hres, Hrun0. unfold_monad.
  destruct (w !! x) as [p|] eqn:Hp; [|discriminate].
  destruct (map_lookup_eq static_part w w0 x p (eq_sym Hst) Hp)
    as (p0 & Hp0 & Hs0).
  destruct (map_lookup_eq pvo_part w w0 x p (eq_sym Hpvo) Hp)
    as (p0' & Hp0' & Ho0).
  rewrite Hp0 in Hp0'. injection Hp0' as <-.
  rewrite Hp0 in Hres, Hrun0.
  assert (Hdp : 0 < update_delta_s p).
  { unfold static_part in Hs0. injection Hs0 as _ _ _ Hdel _.
    rewrite <- Hdel. rewrite Forall_forall in Hdelta.
    apply Hdelta. eapply list_elem_of_lookup_2. exact Hp0. }
  destruct (Hpvh x p0 p Hp0 Hp) as [Hsame | (Hupd & f0 & w1 & Hstored)].
  - (* The cache of the body is the one of [w0]. *)
    assert (Heq : p0 = p) by (apply planet_eq; congruence).
    subst p0.
    destruct (pvh_cache_hit p obs).
    { injection Hrun as <- <-. injection Hrun0 as <- <-. eauto. }
    destruct (pvh_switch (id p)).
    + injection Hrun as <- <-. injection Hrun0 as <- <-. eauto.
    + injection Hrun as <- <-. injection Hrun0 as <- <-. eauto.
    + injection Hrun as <- <-. injection Hrun0 as <- <-. eauto.
    + injection Hrun as <- <-. injection Hrun0 as <- <-.
      split; [eauto|]. eapply ahead_store; [exact Hah|exact Hfold].
    + destruct (parent p) as [q|]; [|discriminate].
      destruct (planet_get_pvh fuel q obs w) as [[ppvh wq]|] eqn:Hq;
        [|discriminate].
      destruct (IH q w wq ppvh Hah Hres Hq) as ((w0q & Hq0) & Hahq).
      rewrite Hq0 in Hrun0.
      injection Hrun as <- <-. injection Hrun0 as <- <-.
      split; [eauto|]. eapply ahead_store; [exact Hahq|exact Hfold].
    + destruct (parent p) as [q|]; [|discriminate].
      destruct (planet_get_pvh fuel q obs w) as [[ppvh wq]|] eqn:Hq;
        [|discriminate].
      destruct (IH q w wq ppvh Hah Hres Hq) as ((w0q & Hq0) & Hahq).
      rewrite Hq0 in Hrun0.
      injection Hrun as <- <-. injection Hrun0 as <- <-.
      split; [eauto|]. eapply ahead_store; [exact Hahq|exact Hfold].
  - (* The cache holds the state a query in [w0] returned. *)
    assert (Hhit : pvh_cache_hit p obs = true).
    { unfold pvh_cache_hit. rewrite Hupd.
      destruct (Req_dec_T (tt obs) 0) as [Hz|_]; [contradiction|].
      replace (tt obs - tt obs) with 0 by ring. rewrite Rabs_R0.
      destruct (Rlt_dec 0 (update_delta_s p / ERFA_DAYSEC)) as [_|Hn];
        [reflexivity|].
      exfalso. apply Hn. unfold ERFA_DAYSEC.
      apply Rdiv_lt_0_compat; lra. }
    rewrite Hhit in Hrun. injection Hrun as <- <-.
    split; [|exact Hah].
    rewrite Hupd. replace (tt obs - tt obs) with 0 by ring.
    rewrite eraPvu_zero.
    pose proof (planet_get_pvh_fuel_agree _ _ _ _ _ _ _ Hstored Hfold)
      as Heq.
    injection Heq as Hv _. exists w0'. rewrite Hv. exact Hfold.
Qed.

Lemma ahead_lookup (w : world) (i : nat) (p : planet_t) :
  ahead w0 obs w -> w !! i = Some p ->
  exists p0 : planet_t,
    w0 !! i = Some p0 /\ static_part p0 = static_part p /\
    pvo_part p0 = pvo_part p.
Proof.
  intros (Hst & Hpvo & _) Hp.
  destruct (map_lookup_eq static_part w w0 i p (eq_sym Hst) Hp)
    as (p0 & Hp0 & Hs0).
  destruct (map_lookup_eq pvo_part w w0 i p (eq_sym Hpvo) Hp)
    as (p0' & Hp0' & Ho0).
  rewrite Hp0 in Hp0'. injection Hp0' as <-. eauto.
Qed.

(** The answer of [could_cast_shadow] in a world ahead of [w0] is its
    answer in [w0]. *)
Lemma could_cast_shadow_ahead (fuel : nat) (a b : nat) (w w' : world)
      (c : bool) :
  all_resolve w0 fuel -> ahead w0 obs w ->
  could_cast_shadow fuel (Some a) b obs w = Some (c, w') ->
  (exists w0' : world,
      could_cast_shadow fuel (Some a) b obs w0 = Some (c, w0')) /\
  ahead w0 obs w'.
Proof.
  intros Hall Hah Hrun. unfold could_cast_shadow in *. unfold_monad.
  destruct (w !! b) as [pb|] eqn:Hb; [|discriminate].
  destruct (w !! a) as [pa|] eqn:Ha; [|discriminate].
  destruct (ahead_lookup w b pb Hah Hb) as (pb0 & Hb0 & Hsb & _).
  destruct (ahead_lookup w a pa Hah Ha) as (pa0 & Ha0 & Hsa & _).
  rewrite Hb0, Ha0.
  unfold static_part in Hsa, Hsb.
  injection Hsa as _ Hra Hia _ _. injection Hsb as _ Hrb Hib _ _.
  rewrite Hia, Hib, Hra, Hrb.
  destruct (id pb =? id pa)%Z; [injection Hrun as <- <-; eauto|].
  destruct (_ && _); [injection Hrun as <- <-; eauto|].
  destruct (_ && _); [injection Hrun as <- <-; eauto|].
  destruct (planet_get_pvh fuel a obs w) as [[apvh w1]|] eqn:H1;
    [|discriminate].
  destruct (planet_get_pvh fuel b obs w1) as [[bpvh w2]|] eqn:H2;
    [|discriminate].
  assert (Hra' : pvh_resolves w0 fuel a = true).
  { apply Hall. eapply lookup_lt_Some. exact Ha0. }
  assert (Hrb' : pvh_resolves w0 fuel b = true).
  { apply Hall. eapply lookup_lt_Some. exact Hb0. }
  destruct (planet_get_pvh_ahead fuel a w w1 apvh Hah Hra' H1)
    as ((w0a & H1a) & Hah1).
  destruct (planet_get_pvh_ahead fuel b w1 w2 bpvh Hah1 Hrb' H2)
    as ((w0b & H2b) & Hah2).
  rewrite H1a.
  (* In [w0] the second query runs after the first one. *)
  destruct (planet_get_pvh_ahead fuel a w0 w0a apvh (ahead_refl w0 obs)
              Hra' H1a) as (_ & Hah0a).
  assert (Hrb0a : pvh_resolves w0a fuel b = true).
  { apply (pvh_resolves_static fuel w0 w0a b); [|exact Hrb'].
    apply Hah0a. }
  destruct (planet_get_pvh_total fuel b obs w0a Hrb0a)
    as (bpvh' & w0ab & H2c).
  destruct (planet_get_pvh_ahead fuel b w0a w0ab bpvh' Hah0a Hrb' H2c)
    as ((w0d & H2d) & _).
  rewrite H2b in H2d. injection H2d as <- _.
  rewrite H2c.
  destruct (Rgt_dec _ _); injection Hrun as <- <-; eauto.
Qed.

Hypothesis Hwarm : pvo_warm w0 obs.

Lemma planet_get_pvo_warm (fuel : nat) (o : nat) (w w' : world)
      (v : pv_t) :
  ahead w0 obs w ->
  planet_get_pvo fuel o obs true w = Some (v, w') -> w' = w.
Proof.
  intros Hah Hrun. unfold planet_get_pvo in Hrun. unfold_monad.
  destruct (w !! o) as [po|] eqn:Hpo; [|discriminate].
  destruct (ahead_lookup w o po Hah Hpo) as (po0 & Hpo0 & _ & Ho).
  unfold pvo_part in Ho. injection Ho as Hh _.
  assert (Hhash : hash obs = pvo_obs_hash po).
  { rewrite <- Hh. unfold pvo_warm in Hwarm.
    rewrite Forall_forall in Hwarm.
    apply Hwarm. eapply list_elem_of_lookup_2. exact Hpo0. }
  rewrite Hhash, Z.eqb_refl in Hrun. cbn [andb] in Hrun.
  now injection Hrun as _ <-.
Qed.

(** With observer-relative caches that answer, the bodies the loop
    accepts are those for which [could_cast_shadow] answers true in the
    world the loop started from. *)
Lemma shadow_scan_log_warm (fuel : nat) (planet : nat) (nb_max : nat)
      (others : list nat) :
  all_resolve w0 fuel ->
  forall (spheres res : list sphere) (log log' : list visit_t)
         (w w' : world),
    ahead w0 obs w ->
    shadow_scan_log fuel planet obs nb_max others spheres log w
    = Some ((res, log'), w') ->
    ahead w0 obs w' /\
    forall other : nat,
      other ∈ accepted log' <->
      other ∈ accepted log \/
      (other ∈ others /\
       exists w1 : world,
         could_cast_shadow fuel (Some other) planet obs w0
         = Some (true, w1)).
Proof.
  intros Hall. induction others as [|o rest IH];
    intros spheres res log log' w w' Hah Hrun; simpl in Hrun;
    unfold_monad.
  { injection Hrun as <- <- <-. split; [exact Hah|].
    intros other. split; [auto|]. intros [H|[H _]]; [assumption|].
    now apply elem_of_nil in H. }
  destruct (could_cast_shadow fuel (Some o) planet obs w)
    as [[c w1]|] eqn:Hc; [|discriminate].
  destruct (could_cast_shadow_ahead fuel o planet w w1 c Hall Hah Hc)
    as ((w0c & Hc0) & Hah1).
  set (log1 := mk_visit o w c :: log) in *.
  assert (Hl : forall other : nat,
             other ∈ accepted log1 <->
             other ∈ accepted log \/ (other = o /\ c = true)).
  { intros other. unfold log1. simpl. destruct c.
    - rewrite elem_of_cons. tauto.
    - split; [auto|]. intros [H|[_ H]]; [assumption|discriminate]. }
  assert (Hnext : forall (s : list sphere),
             shadow_scan_log fuel planet obs nb_max rest s log1 w1
             = Some (res, log', w') ->
             ahead w0 obs w' /\
             forall other : nat,
               other ∈ accepted log' <->
               other ∈ accepted log \/
               (other ∈ o :: rest /\
                exists w2 : world,
                  could_cast_shadow fuel (Some other) planet obs w0
                  = Some (true, w2))).
  { intros s Hrun'.
    destruct (IH _ _ _ _ _ _ Hah1 Hrun') as [Hah' Hlog].
    split; [exact Hah'|].
    intros other. rewrite Hlog, Hl, elem_of_cons. split.
    - intros [[H|[-> ->]]|[H1 H2]]; eauto.
    - intros [H|[[->|H1] H2]]; auto.
      destruct H2 as (w2 & H2). rewrite Hc0 in H2.
      injection H2 as -> _. auto. }
  destruct c; [|exact (Hnext spheres Hrun)].
  destruct (w1 !! o) as [po|]; [|discriminate].
  assert (Hadd : forall kept : list sphere,
             match planet_get_pvo fuel o obs true w1 with
             | Some (a, w2) =>
               shadow_scan_log fuel planet obs nb_max rest
                 (qsort sort_shadow_cmp
                        (kept ++ [(fst a, radius_m po / DAU)]))
                 log1 w2
             | None => None
             end = Some (res, log', w') ->
             ahead w0 obs w' /\
             forall other : nat,
               other ∈ accepted log' <->
               other ∈ accepted log \/
               (other ∈ o :: rest /\
                exists w2 : world,
                  could_cast_shadow fuel (Some other) planet obs w0
                  = Some (true, w2))).
  { intros kept Hrun'.
    destruct (planet_get_pvo fuel o obs true w1) as [[v w2]|] eqn:Hv;
      [|discriminate].
    pose proof (planet_get_pvo_warm _ _ _ _ _ Hah1 Hv). subst w2.
    exact (Hnext _ Hrun'). }
  destruct (nb_max <=? length spheres)%nat; [|exact (Hadd spheres Hrun)].
  destruct (spheres !! (nb_max - 1)%nat) as [m|]; [|discriminate].
  destruct (Rlt_dec _ _); [exact (Hnext spheres Hrun)|].
  exact (Hadd (take (length spheres - 1) spheres) Hrun).
Qed.

End Ahead.

(** *** The candidates returned *)

Lemma could_cast_shadow_null `{Eph : Ephemeris} (fuel : nat) (b : nat)
      (obs : observer_t) (w w' : world) (c : bool) :
  could_cast_shadow fuel None b obs w = Some (c, w') -> w' = w.
Proof.
  unfold could_cast_shadow; unfold_monad. intros Hc.
  destruct (w !! b); [|discriminate]. now injection Hc as _ <-.
Qed.

Lemma selection_nil (w : world) (nb_max : nat) : selection w nb_max [] [].
Proof.
  split; [constructor|]. split.
  - intros i Hi. exact Hi.
  - intros i Hi. now apply elem_of_nil in Hi.
Qed.

(** C3, as the code has it.  For a bound of at least 1 and a world whose
    parent chains resolve, [get_shadow_candidates] returns; it returns at
    most [nb_max] spheres, their radii in non-increasing order.  The
    turns of the loop are recorded in [log]: every turn holds the answer
    [could_cast_shadow] gave for the body visited, in the world the loop
    was in.  The spheres are the positions [planet_get_pvo] gives, with
    the light-time adjustment, and the radii of the bodies [sel]:
    distinct bodies, each accepted by a turn of the loop, none left out
    while there is room and none left out that is bigger than a body
    kept; their radii are the [nb_max] biggest radii of the accepted
    bodies, and the body accepted last is left out only if it is
    strictly smaller than every body kept.  The pre-filter answers true
    for the Moon and for the ids from [IO] to [JUPITER].  When the
    pre-filter [could_cast_shadow (NULL, target)]
    answers false nothing is returned and no turn is made.  When it
    answers true every body is visited once, in iteration order, the
    first one in the world given; and when moreover the
    observer-relative caches of the world carry the fingerprint of the
    observer, the date is not 0 and the refresh intervals are positive,
    the accepted bodies are exactly those for which
    [could_cast_shadow (other, target, observer)] answers true in the
    world given. *)
Theorem get_shadow_candidates_top (Eph : Ephemeris) (fuel : nat)
        (planet : nat) (obs : observer_t) (nb_max : nat) (w : world) :
  (1 <= nb_max)%nat ->
  (planet < length w)%nat ->
  all_resolve w fuel ->
  exists (spheres : list sphere) (log : list visit_t) (sel : list nat)
         (w' : world),
    get_shadow_candidates fuel planet obs nb_max w = Some (spheres, w') /\
    get_shadow_candidates_log fuel planet obs nb_max w
    = Some ((spheres, log), w') /\
    (length spheres <= nb_max)%nat /\
    Sorted Rge (radii spheres) /\
    Forall (fun v => visit_holds fuel planet obs v /\
                     map static_part (visit_world v) = map static_part w)
           log /\
    spheres = map (sphere_of w') sel /\
    (forall i : nat,
        i ∈ sel ->
        exists v : pv_t,
          planet_get_pvo fuel i obs true w' = Some (v, w') /\
          sphere_of w' i = (fst v, candidate_radius w i)) /\
    selection w nb_max (accepted log) sel /\
    latest_kept w (accepted log) sel /\
    radii spheres
    = top_radii nb_max (map (candidate_radius w) (accepted log)) /\
    (forall pl : planet_t,
        w !! planet = Some pl ->
        could_cast_shadow fuel None planet obs w
        = Some (((id pl =? MOON) || ((IO <=? id pl) && (id pl <=? JUPITER)))%Z,
                w)) /\
    (could_cast_shadow fuel None planet obs w = Some (false, w) ->
     spheres = [] /\ log = []) /\
    (could_cast_shadow fuel None planet obs w = Some (true, w) ->
     map visit_body log = rev (seq 0 (length w)) /\
     (exists c : bool, mk_visit 0 w c ∈ log) /\
     (pvo_warm w obs -> tt obs <> 0 ->
      Forall (fun pl => 0 < update_delta_s pl) w ->
      forall other : nat,
        other ∈ accepted log <->
        exists w1 : world,
          could_cast_shadow fuel (Some other) planet obs w
          = Some (true, w1))).
Proof.
  intros Hn Hp Hall.
  assert (Hpre : forall pl : planet_t,
             w !! planet = Some pl ->
             could_cast_shadow fuel None planet obs w
             = Some (((id pl =? MOON)
                      || ((IO <=? id pl) && (id pl <=? JUPITER)))%Z, w)).
  { intros pl Hpl. unfold could_cast_shadow. unfold_monad.
    rewrite Hpl. reflexivity. }
  unfold get_shadow_candidates, get_shadow_candidates_log, bind.
  destruct (could_cast_shadow_total fuel None planet obs w Hall Hp)
    as (c & w1 & Hc); [discriminate|].
  rewrite Hc.
  pose proof (could_cast_shadow_null _ _ _ _ _ _ Hc). subst w1.
  destruct c; cbn [negb].
  - destruct (shadow_scan_total fuel planet obs nb_max
                (seq 0 (length w)) Hn [] w Hall Hp)
      as (res & w' & Hrun).
    { apply Forall_forall. intros i Hi.
      apply list_elem_of_In, in_seq in Hi. lia. }
    rewrite Hrun.
    rewrite (shadow_scan_erase fuel planet obs nb_max _ [] [] w) in Hrun.
    destruct (shadow_scan_log fuel planet obs nb_max (seq 0 (length w))
                              [] [] w) as [[[res' log] w'']|] eqn:Hlog;
      [|discriminate].
    injection Hrun as -> ->.
    assert (Hnil : radii [] = top_radii nb_max
                                        (map (candidate_radius w)
                                             (accepted [])))
      by (unfold top_radii; simpl; now rewrite take_nil).
    destruct (shadow_scan_log_top fuel planet obs nb_max w _ Hn
                [] res [] log w w' eq_refl Hnil Hlog) as [Htop Hst'].
    destruct (shadow_scan_log_selection
                fuel planet obs nb_max w Hn (seq 0 (length w))
                [] res [] log w w' [] eq_refl (NoDup_seq 0 (length w)))
      as (sel & Hsph & Hcached & Hsel & Hlast); try assumption.
    { intros o _ Ho. now apply elem_of_nil in Ho. }
    { reflexivity. }
    { constructor. }
    { simpl. lia. }
    { intros i Hi. now apply elem_of_nil in Hi. }
    { apply selection_nil. }
    { intros o rest' Heq. discriminate. }
    destruct (shadow_scan_log_visits fuel planet obs nb_max w _
                [] res [] log w w' eq_refl Hlog)
      as (Hbodies & Hholds & _ & Hfirst).
    exists res, log, sel, w'.
    split; [reflexivity|]. split; [reflexivity|].
    split.
    { rewrite <- (length_map snd res). fold (radii res). rewrite Htop.
      apply top_radii_length. }
    split; [rewrite Htop; apply top_radii_sorted|].
    split; [apply Hholds; constructor|].
    split; [exact Hsph|].
    split.
    { intros i Hi. destruct (Hcached i Hi) as (p & Hpi & Hh).
      exists (pvo p). split.
      - apply planet_get_pvo_hit; [exact Hpi|now symmetry].
      - unfold sphere_of. rewrite Hpi. f_equal.
        apply (candidate_radius_static w' w i p Hst' Hpi). }
    split; [exact Hsel|].
    split; [exact Hlast|].
    split; [exact Htop|].
    split; [intros pl Hpl; rewrite <- (Hpre pl Hpl); now symmetry|].
    split; [discriminate|].
    intros _.
    split; [rewrite Hbodies; simpl; now rewrite app_nil_r|].
    split.
    { destruct (length w) as [|n] eqn:Hlen; [lia|].
      exact (Hfirst 0%nat (seq 1 n) eq_refl). }
    intros Hwarm Hdate Hdelta other.
    destruct (shadow_scan_log_warm w obs Hdate Hdelta Hwarm fuel planet
                nb_max (seq 0 (length w)) Hall [] res [] log w w'
                (ahead_refl w obs) Hlog) as [_ Hacc].
    rewrite Hacc. split.
    + intros [Hin|[_ Hcast]]; [|exact Hcast].
      now apply elem_of_nil in Hin.
    + intros (w1 & Hcast). right. split; [|eauto].
      apply list_elem_of_In, in_seq.
      pose proof (could_cast_shadow_valid _ _ _ _ _ _ _ Hcast). lia.
  - exists [], [], [], w.
    split; [reflexivity|]. split; [reflexivity|].
    split; [simpl; lia|].
    split; [constructor|].
    split; [constructor|].
    split; [reflexivity|].
    split; [intros i Hi; now apply elem_of_nil in Hi|].
    split; [apply selection_nil|].
    split; [intros o rest' Heq; discriminate|].
    split; [unfold top_radii; simpl; now rewrite take_nil|].
    split; [intros pl Hpl; rewrite <- (Hpre pl Hpl); now symmetry|].
    split; [auto|discriminate].
Qed.

Lemma jovian_sky_resolves : all_resolve jovian_sky 2.
Proof.
  intros i Hi. destruct i as [|[|[|[|[|[|i]]]]]]; try reflexivity.
  simpl in Hi. lia.
Qed.

Lemma get_shadow_candidates_top_witness :
  exists (spheres : list sphere) (log : list visit_t) (sel : list nat)
         (w' : world),
    get_shadow_candidates (Eph := still_ephemeris) 2 3
                          (observer_at 58000 1) 1 jovian_sky
    = Some (spheres, w') /\
    get_shadow_candidates_log (Eph := still_ephemeris) 2 3
                              (observer_at 58000 1) 1 jovian_sky
    = Some ((spheres, log), w') /\
    (length spheres <= 1)%nat /\
    Sorted Rge (radii spheres) /\
    Forall (fun v =>
              visit_holds (Eph := still_ephemeris) 2 3
                          (observer_at 58000 1) v /\
              map static_part (visit_world v) = map static_part jovian_sky)
           log /\
    spheres = map (sphere_of w') sel /\
    (forall i : nat,
        i ∈ sel ->
        exists v : pv_t,
          planet_get_pvo (Eph := still_ephemeris) 2 i
                         (observer_at 58000 1) true w' = Some (v, w') /\
          sphere_of w' i = (fst v, candidate_radius jovian_sky i)) /\
    selection jovian_sky 1 (accepted log) sel /\
    latest_kept jovian_sky (accepted log) sel /\
    radii spheres
    = top_radii 1 (map (candidate_radius jovian_sky) (accepted log)) /\
    map visit_body log = rev (seq 0 (length jovian_sky)) /\
    (exists c : bool, mk_visit 0 jovian_sky c ∈ log) /\
    forall other : nat,
      other ∈ accepted log <->
      exists w1 : world,
        could_cast_shadow (Eph := still_ephemeris) 2 (Some other) 3
                          (observer_at 58000 1) jovian_sky
        = Some (true, w1).
Proof.
  destruct (get_shadow_candidates_top still_ephemeris 2 3
              (observer_at 58000 1) 1 jovian_sky)
    as (spheres & log & sel & w' & H1 & H2 & H3 & H4 & H5 & H6 & H7 & H8
        & H9 & H10 & _ & _ & H11).
  - lia.
  - simpl. lia.
  - exact jovian_sky_resolves.
  - destruct (H11 eq_refl) as (Hb & Hf & Hw).
    exists spheres, log, sel, w'.
    repeat (split; [assumption|]).
    apply Hw.
    + repeat constructor.
    + simpl. lra.
    + repeat constructor; simpl; lra.
Defined.
